(** * Regnier problem: clustering qualitative data by clique partitioning

    A shallow embedding of [RegnierProblem.py], the CPLEX front-end: the
    constructor that builds the similarity matrix, the model builders of
    the variants RM, RMalpha, RMbeta and RMgamma, the two connectivity-cut
    heuristics, the decoding of the solver's values into groups and the
    [run] methods around them. [RegnierProblemLP.py], the LP-file
    front-end, has the same constructor and heuristics; its [save]
    methods are embedded in module [LP].

    Python lists are [list]s read with stdpp's lookups and written with
    [insert] and [alter]; integers are [Z]; loop counters and indices are
    [nat]; the solver's values are rationals; an uncaught Python exception
    is the [Raise] case of [result]. The parameters [debug] and
    [model_file] of the methods, which only select what is printed and
    whether the model is also saved, and the timings are left out.

    The definitions come first, the proofs after them. *)

From stdpp Require Import base list strings pretty sorting relations.
From Stdlib Require Import ZArith QArith Lia.

Local Open Scope nat_scope.

#[local] Set Warnings "-clear-no-such-hyp".

(** ** Exceptions and loops *)

Inductive exn := ZeroDivisionError | IndexError | TypeError.

Inductive result (A : Type) :=
  | Ok (a : A)
  | Raise (e : exn).
Arguments Ok {A} a.
Arguments Raise {A} e.

#[global] Instance result_ret : MRet result := λ A a, Ok a.
#[global] Instance result_bind : MBind result := λ A B f r,
  match r with
  | Ok a => f a
  | Raise e => Raise e
  end.

(** [range(lo, hi)]. *)
Definition range (lo hi : nat) : list nat := seq lo (hi - lo).

(** [for i in l: body], the loop state passed along. *)
Definition for_ {St : Type} (l : list nat) (body : nat → St → St) (st : St) : St :=
  foldl (λ s i, body i s) st l.

(** The same loop when the body can raise: the first exception ends it. *)
Fixpoint forM {St : Type} (l : list nat) (body : nat → St → result St) (st : St)
  : result St :=
  match l with
  | [] => Ok st
  | i :: l' => st' ← body i st; forM l' body st'
  end.

(** ** The constructor: dataset to similarity matrix *)

(** The object's attributes [_S], [_n], [_m]. *)
Record RegnierProblem := mkRegnierProblem {
  _S : list (list Z);
  _n : nat;
  _m : nat
}.

(** The body of [for row in spamreader]: the rows are what the csv reader
    yields, one list of tokens per line of the file. [m] counts every
    token read so far. *)
Definition read_row (row : list string) (st : list (list string) * nat * nat)
  : list (list string) * nat * nat :=
  let '(D, n, m) := st in
  let D := D ++ [[]] in
  let '(D, m) :=
    foldl (λ '(D, m) v, (alter (λ r, r ++ [v]) n D, m + 1)) (D, m) row in
  (D, n + 1, m).

Definition read_dataset (rows : list (list string))
  : list (list string) * nat * nat :=
  foldl (λ st row, read_row row st) ([], 0, 0) rows.

(** The initialisation of [S] with the sentinel [-m-1]. *)
Definition init_S (n m : nat) : list (list Z) :=
  for_ (range 0 n)
    (λ i S, for_ (range 0 n)
              (λ j S, alter (λ r, r ++ [(- Z.of_nat m - 1)%Z]) i S)
              (S ++ [[]]))
    [].

(** [D[i][k]]. *)
Definition getD (D : list (list string)) (i k : nat) : result string :=
  match D !! i with
  | Some row =>
      match row !! k with
      | Some v => Ok v
      | None => Raise IndexError
      end
  | None => Raise IndexError
  end.

(** The body of [for k in range(m)]. The conjunction is evaluated left to
    right and stops at the first false operand, so [D[j][k]] is read only
    when [D[i][k]] is not the missing token. *)
Definition count_attr (D : list (list string)) (i j k : nat) (st : Z * Z)
  : result (Z * Z) :=
  let '(total, total_missing) := st in
  a ← getD D i k;
  if decide (a ≠ "?") then
    b ← getD D j k;
    if decide (b ≠ "?") then
      if decide (a = b) then Ok ((total + 1)%Z, total_missing)
      else Ok (total, total_missing)
    else Ok (total, (total_missing + 1)%Z)
  else Ok (total, (total_missing + 1)%Z).

(** The body of [for j in range(n)] in the similarity loop. *)
Definition fill_cell (D : list (list string)) (m i j : nat) (S : list (list Z))
  : result (list (list Z)) :=
  if decide (i ≠ j) then
    '(total, total_missing) ← forM (range 0 m) (count_attr D i j) (0%Z, 0%Z);
    Ok (alter (<[j := (- ((Z.of_nat m - total_missing) - 2 * total))%Z]>) i S)
  else Ok S.

Definition __init__ (dataset : list (list string)) : result RegnierProblem :=
  let '(D, n, m) := read_dataset dataset in
  if decide (n = 0) then Raise ZeroDivisionError
  else
    let m := m `div` n in
    S ← forM (range 0 n) (λ i, forM (range 0 n) (fill_cell D m i)) (init_S n m);
    Ok {| _S := S; _n := n; _m := m |}.



(** ** The model handed to the solver *)

(** What the code uses of a [cplex.Cplex] problem object: the objective
    sense, the variables and the linear constraints, each list in the
    order of the [add] calls. *)
Inductive objective_sense := minimize | maximize.

Inductive variable_type := continuous | binary.

Record variable := mkVariable {
  obj : Z;
  lb : Z;
  ub : Z;
  names : string;
  types : variable_type
}.

Record SparsePair := mkSparsePair {
  ind : list nat;
  val : list Z
}.

Record linear_constraint := mkConstraint {
  lin_expr : SparsePair;
  senses : string;
  rhs : Z
}.

Record Cplex := mkCplex {
  sense : objective_sense;
  variables : list variable;
  linear_constraints : list linear_constraint
}.

Definition new_Cplex : Cplex := mkCplex minimize [] [].

Definition set_sense (s : objective_sense) (my_prob : Cplex) : Cplex :=
  mkCplex s (variables my_prob) (linear_constraints my_prob).

(** [my_prob.variables.get_num()] *)
Definition get_num (my_prob : Cplex) : nat := length (variables my_prob).

Definition variables_add (v : variable) (my_prob : Cplex) : Cplex :=
  mkCplex (sense my_prob) (variables my_prob ++ [v]) (linear_constraints my_prob).

Definition linear_constraints_add (c : linear_constraint) (my_prob : Cplex) : Cplex :=
  mkCplex (sense my_prob) (variables my_prob) (linear_constraints my_prob ++ [c]).

(** [S[i][j]] and [X[i][j]] inside the model builders, the heuristics and
    the decoder. Both matrices are [n × n] and every index used there is
    below [n] (lemmas [init_reads_in_range] and [model_reads_in_range]),
    so the default of the total lookup is never what is read. *)
Definition at2 {A : Type} `{Inhabited A} (M : list (list A)) (i j : nat) : A :=
  (M !!! i) !!! j.

(** The variables matrix, all zero. *)
Definition new_X (n : nat) : list (list nat) :=
  for_ (range 0 n)
    (λ i X, for_ (range 0 n) (λ j X, alter (λ r, r ++ [0]) i X) (X ++ [[]]))
    [].

(** The body of the two variable loops, which differ in the type only. *)
Definition add_variable (S : list (list Z)) (ty : variable_type) (i j : nat)
    (st : list (list nat) * Cplex) : list (list nat) * Cplex :=
  let '(X, my_prob) := st in
  let var_name := "v." +:+ pretty i +:+ "." +:+ pretty j in
  let X := alter (<[j := get_num my_prob]>) i X in
  (X, variables_add (mkVariable (at2 S i j) 0 1 var_name ty) my_prob).

(** "Create Objective Function". *)
Definition create_objective (S : list (list Z)) (n : nat) (lp_problem : bool)
    (st : list (list nat) * Cplex) : list (list nat) * Cplex :=
  if lp_problem then
    for_ (range 0 n) (λ i, for_ (range (i + 1) n) (add_variable S continuous i)) st
  else
    for_ (range 0 n) (λ i, for_ (range (i + 1) n) (add_variable S binary i)) st.

(** One constraint over the triple: the variables [X[i][j]], [X[j][k]],
    [X[i][k]] with the given coefficients, sense ["L"] and right-hand side
    1. *)
Definition triangle (X : list (list nat)) (i j k : nat) (cij cjk cik : Z)
  : linear_constraint :=
  mkConstraint
    (mkSparsePair [at2 X i j; at2 X j k; at2 X i k] [cij; cjk; cik]) "L" 1.

(** dij + djk - dki <= 1 *)
Definition tri1 (X : list (list nat)) (i j k : nat) : linear_constraint :=
  triangle X i j k 1 1 (-1).

(** dij - djk + dki <= 1 *)
Definition tri2 (X : list (list nat)) (i j k : nat) : linear_constraint :=
  triangle X i j k 1 (-1) 1.

(** -dij + djk + dki <= 1 *)
Definition tri3 (X : list (list nat)) (i j k : nat) : linear_constraint :=
  triangle X i j k (-1) 1 1.

(** The loop over the triples [i < j < k]. *)
Definition for_triples {St : Type} (n : nat) (body : nat → nat → nat → St → St)
    (st : St) : St :=
  for_ (range 0 n)
    (λ i, for_ (range (i + 1) n) (λ j, for_ (range (j + 1) n) (body i j)))
    st.

(** "Insert Constraints" of [runRM]. *)
Definition insert_constraints_RM (X : list (list nat)) (n : nat) : Cplex → Cplex :=
  for_triples n (λ i j k my_prob,
    let my_prob := linear_constraints_add (tri1 X i j k) my_prob in
    let my_prob := linear_constraints_add (tri2 X i j k) my_prob in
    linear_constraints_add (tri3 X i j k) my_prob).

(** "Insert Constraints" of [runRMalpha]. *)
Definition insert_constraints_RMalpha (S : list (list Z)) (cut : Z)
    (X : list (list nat)) (n : nat) : Cplex → Cplex :=
  for_triples n (λ i j k my_prob,
    let my_prob :=
      if decide (at2 S i j >= cut ∨ at2 S j k >= cut)%Z
      then linear_constraints_add (tri1 X i j k) my_prob else my_prob in
    let my_prob :=
      if decide (at2 S i j >= cut ∨ at2 S i k >= cut)%Z
      then linear_constraints_add (tri2 X i j k) my_prob else my_prob in
    if decide (at2 S j k >= cut ∨ at2 S i k >= cut)%Z
    then linear_constraints_add (tri3 X i j k) my_prob else my_prob).

(** "Insert Constraints" of [runRMbeta]. *)
Definition insert_constraints_RMbeta (S : list (list Z)) (cut : Z)
    (X : list (list nat)) (n : nat) : Cplex → Cplex :=
  for_triples n (λ i j k my_prob,
    let my_prob :=
      if decide (at2 S i j + at2 S j k >= cut)%Z
      then linear_constraints_add (tri1 X i j k) my_prob else my_prob in
    let my_prob :=
      if decide (at2 S i j + at2 S i k >= cut)%Z
      then linear_constraints_add (tri2 X i j k) my_prob else my_prob in
    if decide (at2 S j k + at2 S i k >= cut)%Z
    then linear_constraints_add (tri3 X i j k) my_prob else my_prob).

(** "Insert Constraints" of [runRMgamma]. *)
Definition insert_constraints_RMgamma (S : list (list Z)) (cut : Z)
    (X : list (list nat)) (n : nat) : Cplex → Cplex :=
  for_triples n (λ i j k my_prob,
    let my_prob :=
      if decide (at2 S i j >= 0 ∧ at2 S j k >= cut ∧ at2 S i k <= 0)%Z
      then linear_constraints_add (tri1 X i j k) my_prob else my_prob in
    let my_prob :=
      if decide (at2 S i j >= 0 ∧ at2 S j k <= 0 ∧ at2 S i k >= cut)%Z
      then linear_constraints_add (tri2 X i j k) my_prob else my_prob in
    if decide (at2 S i j <= 0 ∧ at2 S j k >= cut ∧ at2 S i k >= 0)%Z
    then linear_constraints_add (tri3 X i j k) my_prob else my_prob).

(** ** The connectivity-cut heuristics *)

(** What the code uses of an [igraph.Graph]: the vertices [0 .. vcount-1]
    and the undirected edges with their [weight] attribute, in the order
    they were added. *)
Record Graph := mkGraph {
  vcount : nat;
  es : list (nat * nat * Z)
}.

Definition new_Graph : Graph := mkGraph 0 [].

Definition add_vertices (n : nat) (g : Graph) : Graph :=
  mkGraph (vcount g + n) (es g).

Definition add_edge (i j : nat) (weight : Z) (g : Graph) : Graph :=
  mkGraph (vcount g) (es g ++ [(i, j, weight)]).

(** [g.delete_edges(g.es.select(weight_lt=newCut))] *)
Definition delete_edges_weight_lt (newCut : Z) (g : Graph) : Graph :=
  mkGraph (vcount g) (filter (λ e, ¬ (e.2 < newCut)%Z) (es g)).

Definition neighbours (g : Graph) (v : nat) : list nat :=
  es g ≫= λ '(a, b, _),
    if decide (a = v) then [b] else if decide (b = v) then [a] else [].

(** One more step from the vertices already seen, and the vertices
    reached from [seen] in at most [rounds] steps. *)
Definition expand (g : Graph) (seen : list nat) : list nat :=
  remove_dups (seen ++ (seen ≫= neighbours g)).

Fixpoint reach (g : Graph) (rounds : nat) (seen : list nat) : list nat :=
  match rounds with
  | 0 => seen
  | S rounds => reach g rounds (expand g seen)
  end.

(** [g.is_connected()]: every vertex is reached from vertex 0; the graph
    without vertices counts as not connected, as igraph has it. *)
Definition is_connected (g : Graph) : bool :=
  match vcount g with
  | 0 => false
  | S _ => bool_decide (Forall (λ v, v ∈ reach g (vcount g) [0]) (seq 0 (vcount g)))
  end.

(** A Python [set] of integers, kept as a list without repetition; only
    membership and [sorted] are used on it. *)
Definition set_add (w : Z) (s : list Z) : list Z :=
  if decide (w ∈ s) then s else s ++ [w].

(** [sorted(s)] *)
Definition sorted (s : list Z) : list Z := merge_sort Z.le s.

(** The heuristic object; the three timings are wall-clock measurements
    and are left out. *)
Record Heuristic := mkHeuristic { cut : Z }.

(** "Graph and unique set construction" of [__findPositiveCut]. *)
Definition positive_graph (S : list (list Z)) (n : nat) : Graph * list Z :=
  for_ (range 0 n)
    (λ i, for_ (range (i + 1) n)
       (λ j '(graph_positive, unique_positive_weights),
          if decide (at2 S i j >= 0)%Z then
            (add_edge i j (at2 S i j) graph_positive,
             set_add (at2 S i j) unique_positive_weights)
          else (graph_positive, unique_positive_weights)))
    (add_vertices n new_Graph, []).

(** "Graph and unique set construction" of [__findNegativeCut]. *)
Definition negative_graph (S : list (list Z)) (n : nat) : Graph * list Z :=
  for_ (range 0 n)
    (λ i, for_ (range (i + 1) n)
       (λ j '(graph_negative, unique_negative_weights),
          if decide (at2 S i j <= 0)%Z then
            (add_edge i j (at2 S i j) graph_negative,
             set_add (at2 S i j) unique_negative_weights)
          else (graph_negative, unique_negative_weights)))
    (add_vertices n new_Graph, []).

(** "Test different cuts and check connected": the loop over the sorted
    weights, left at the first cut that disconnects the graph. The edges
    deleted for one cut stay deleted for the next. *)
Fixpoint test_cuts (cuts : list Z) (g : Graph) (best_cut : Z) : Z :=
  match cuts with
  | [] => best_cut
  | newCut :: cuts =>
      let g := delete_edges_weight_lt newCut g in
      if is_connected g then test_cuts cuts g newCut else best_cut
  end.

Definition __findPositiveCut (self : RegnierProblem) : Heuristic :=
  let '(graph_positive, unique_positive_weights) :=
    positive_graph (_S self) (_n self) in
  let unique_positive_weights := sorted unique_positive_weights in
  let best_positive_cut := test_cuts unique_positive_weights graph_positive 0%Z in
  mkHeuristic best_positive_cut.

Definition __findNegativeCut (self : RegnierProblem) : Heuristic :=
  let '(graph_negative, unique_negative_weights) :=
    negative_graph (_S self) (_n self) in
  let unique_negative_weights := sorted unique_negative_weights in
  let best_negative_cut := test_cuts unique_negative_weights graph_negative 0%Z in
  mkHeuristic best_negative_cut.

(** The two graph constructions differ in the test on the weight only:
    the construction for an arbitrary test. *)
Definition signed_graph (keep : Z → Prop) `{∀ w, Decision (keep w)}
    (S : list (list Z)) (n : nat) : Graph * list Z :=
  for_ (range 0 n)
    (λ i, for_ (range (i + 1) n)
       (λ j '(g, u),
          if decide (keep (at2 S i j)) then
            (add_edge i j (at2 S i j) g, set_add (at2 S i j) u)
          else (g, u)))
    (add_vertices n new_Graph, []).

(** ** Decoding the solver's values into groups *)

(** The body of [if x[index] > 0]. *)
Definition join_pair (i j : nat) (st : list Z * Z) : list Z * Z :=
  let '(groups, groupID) := st in
  if decide (groups !!! i = (-1)%Z ∧ groups !!! j = (-1)%Z) then
    let groups := <[i := groupID]> groups in
    let groups := <[j := groupID]> groups in
    (groups, (groupID + 1)%Z)
  else if decide (groups !!! i = (-1)%Z) then
    (<[i := groups !!! j]> groups, groupID)
  else
    (<[j := groups !!! i]> groups, groupID).

(** The body of [for j in range(n)] of the partition loop: the cell
    [X[i][j]] is read for every [i] and [j], and [x[index]] raises when the
    solver returned no value at that index. *)
Definition visit_cell (X : list (list nat)) (x : list Q) (i j : nat)
    (st : list Z * Z) : result (list Z * Z) :=
  let index := at2 X i j in
  match x !! index with
  | Some v => if Qlt_le_dec 0 v then Ok (join_pair i j st) else Ok st
  | None => Raise IndexError
  end.

(** "The objects that remained alone create its own group". *)
Definition close_singletons (st : list Z * Z) : list Z * Z :=
  for_ (range 0 (length st.1))
    (λ i '(groups, groupID),
       if decide (groups !!! i = (-1)%Z)
       then (<[i := groupID]> groups, (groupID + 1)%Z)
       else (groups, groupID))
    st.

(** "Creating partition", the same text in the four [run] methods. *)
Definition create_partition (X : list (list nat)) (x : list Q) (n : nat)
  : result (list Z) :=
  let groups := for_ (range 0 n) (λ _ groups, groups ++ [(-1)%Z]) [] in
  let groupID := 0%Z in
  st ← forM (range 0 n) (λ i, forM (range 0 n) (visit_cell X x i)) (groups, groupID);
  Ok (close_singletons st).1.

(** ** The [run] methods *)

Record Solution := mkSolution {
  num_rows : nat;
  num_cols : nat;
  objective : Q;
  heuristic : option Heuristic;
  groups : list Z
}.

Section run.
(** The solver is outside the program: [solve my_prob] stands for
    [my_prob.solve()] followed by [get_objective_value()] and
    [get_values()], and is [None] when these raise a [CplexError]
    (which the methods catch, print and answer with [None]). *)
Variable solve : Cplex → option (Q * list Q).

(** From "Solve" to the solution object. *)
Definition solve_and_decode (X : list (list nat)) (my_prob : Cplex) (n : nat)
    (heuristic : option Heuristic) : result (option Solution) :=
  match solve my_prob with
  | None => Ok None
  | Some (objective, x) =>
      groups ← create_partition X x n;
      Ok (Some (mkSolution (length (linear_constraints my_prob))
                  (get_num my_prob) objective heuristic groups))
  end.

Definition runRM (self : RegnierProblem) (lp_problem : bool)
  : result (option Solution) :=
  let my_prob := set_sense maximize new_Cplex in
  let X := new_X (_n self) in
  let '(X, my_prob) := create_objective (_S self) (_n self) lp_problem (X, my_prob) in
  let my_prob := insert_constraints_RM X (_n self) my_prob in
  solve_and_decode X my_prob (_n self) None.

Definition runRMalpha (self : RegnierProblem) (cut : Z) (lp_problem : bool)
  : result (option Solution) :=
  let my_prob := set_sense maximize new_Cplex in
  let X := new_X (_n self) in
  let '(X, my_prob) := create_objective (_S self) (_n self) lp_problem (X, my_prob) in
  let my_prob := insert_constraints_RMalpha (_S self) cut X (_n self) my_prob in
  solve_and_decode X my_prob (_n self) None.

Definition runRMbeta (self : RegnierProblem) (cut : Z) (lp_problem : bool)
  : result (option Solution) :=
  let my_prob := set_sense maximize new_Cplex in
  let X := new_X (_n self) in
  let '(X, my_prob) := create_objective (_S self) (_n self) lp_problem (X, my_prob) in
  let my_prob := insert_constraints_RMbeta (_S self) cut X (_n self) my_prob in
  solve_and_decode X my_prob (_n self) None.

Definition runRMgamma (self : RegnierProblem) (lp_problem : bool)
  : result (option Solution) :=
  let heuristic := __findNegativeCut self in
  let cut := cut heuristic in
  let my_prob := set_sense maximize new_Cplex in
  let X := new_X (_n self) in
  let '(X, my_prob) := create_objective (_S self) (_n self) lp_problem (X, my_prob) in
  let my_prob := insert_constraints_RMgamma (_S self) cut X (_n self) my_prob in
  solve_and_decode X my_prob (_n self) (Some heuristic).

(** [solution['heuristic'] = heuristic] on a [None] solution is a
    [TypeError]. *)
Definition set_heuristic (heuristic : Heuristic) (solution : option Solution)
  : result (option Solution) :=
  match solution with
  | Some s =>
      Ok (Some (mkSolution (num_rows s) (num_cols s) (objective s)
                  (Some heuristic) (groups s)))
  | None => Raise TypeError
  end.

Definition runRMalphaPlus (self : RegnierProblem) (lp_problem : bool)
  : result (option Solution) :=
  let heuristic := __findPositiveCut self in
  solution ← runRMalpha self (cut heuristic) lp_problem;
  set_heuristic heuristic solution.

Definition runRMbetaPlus (self : RegnierProblem) (lp_problem : bool)
  : result (option Solution) :=
  let heuristic := __findPositiveCut self in
  solution ← runRMbeta self (cut heuristic) lp_problem;
  set_heuristic heuristic solution.
End run.

(** The model a [run] method hands to the solver, with its variables
    matrix. *)
Definition model_with (insert_constraints : list (list nat) → nat → Cplex → Cplex)
    (self : RegnierProblem) (lp_problem : bool) : list (list nat) * Cplex :=
  let my_prob := set_sense maximize new_Cplex in
  let X := new_X (_n self) in
  let '(X, my_prob) := create_objective (_S self) (_n self) lp_problem (X, my_prob) in
  (X, insert_constraints X (_n self) my_prob).

Definition model_RM : RegnierProblem → bool → list (list nat) * Cplex :=
  model_with insert_constraints_RM.

Definition model_RMalpha (self : RegnierProblem) (cut : Z)
  : bool → list (list nat) * Cplex :=
  model_with (insert_constraints_RMalpha (_S self) cut) self.

Definition model_RMbeta (self : RegnierProblem) (cut : Z)
  : bool → list (list nat) * Cplex :=
  model_with (insert_constraints_RMbeta (_S self) cut) self.

Definition model_RMgamma (self : RegnierProblem)
  : bool → list (list nat) * Cplex :=
  model_with (insert_constraints_RMgamma (_S self) (cut (__findNegativeCut self))) self.

(** Scenario A: the object, the variables matrix of its models, the
    optimal values of the base model (records 0 and 1 together, record 2
    apart), and a fractional point of the relaxed four-record model. *)
Definition scenario_A_self : RegnierProblem :=
  mkRegnierProblem [[-3; 2; -2]; [2; -3; -2]; [-2; -2; -3]]%Z 3 2.

Definition scenario_A_X : list (list nat) := [[0; 0; 1]; [0; 0; 2]; [0; 0; 0]].

Definition scenario_A_x : list Q := [1%Q; 0%Q; 0%Q].

(** Four records and a point of the relaxed base model, half-way between
    its integral solutions, that the solver may return. *)
Definition scenario_B : list (list string) :=
  [["a"; "b"]; ["c"; "d"]; ["a"; "d"]; ["c"; "b"]].

Definition scenario_B_self : RegnierProblem :=
  mkRegnierProblem
    [[-3; -2; 0; 0]; [-2; -3; 0; 0]; [0; 0; -3; -2]; [0; 0; -2; -3]]%Z 4 2.

Definition scenario_B_X : list (list nat) :=
  [[0; 0; 1; 2]; [0; 0; 3; 4]; [0; 0; 0; 5]; [0; 0; 0; 0]].

Definition scenario_B_x : list Q := [0; 1 # 2; 0; 0; 1 # 2; 1 # 2]%Q.

(** The left-hand side of a constraint at the values [x], and whether [x]
    is within the bounds and satisfies every constraint of a model. *)
Definition lhs (x : list Q) (c : linear_constraint) : Q :=
  foldr Qplus 0%Q
    (zip_with (λ v a, (inject_Z a * default 0 (x !! v))%Q)
       (ind (lin_expr c)) (val (lin_expr c))).

Definition feasible (x : list Q) (my_prob : Cplex) : bool :=
  forallb (λ v, Qle_bool 0 v && Qle_bool v 1) x
  && forallb (λ c, Qle_bool (lhs x c) (inject_Z (rhs c))) (linear_constraints my_prob)
  && bool_decide (length x = get_num my_prob).

(** ** The LP-file front-end *)

(** [RegnierProblemLP] has the constructor and the two heuristics of
    [RegnierProblem], text for text, and one [save] method for each [run]
    method, which writes the model as an LP file instead of solving it.
    The file is the list of the strings written to it, in order;
    [contraintID] numbers the constraint lines. *)
Module LP.

Definition newline : string := String (Ascii.ascii_of_nat 10) "".

(** ["v."+str(i)+"."+str(j)] *)
Definition v (i j : nat) : string := "v." +:+ pretty i +:+ "." +:+ pretty j.

(** dij + djk - dik <= 1 *)
Definition line1 (i j k contraintID : nat) : string :=
  " c" +:+ pretty contraintID +:+ ": " +:+ v i j +:+ " + " +:+ v j k
  +:+ " - " +:+ v i k +:+ " <= 1" +:+ newline.

(** dij - djk + dik <= 1 *)
Definition line2 (i j k contraintID : nat) : string :=
  " c" +:+ pretty contraintID +:+ ": " +:+ v i j +:+ " - " +:+ v j k
  +:+ " + " +:+ v i k +:+ " <= 1" +:+ newline.

(** -dij + djk + dik <= 1 *)
Definition line3 (i j k contraintID : nat) : string :=
  " c" +:+ pretty contraintID +:+ ": - " +:+ v i j +:+ " + " +:+ v j k
  +:+ " + " +:+ v i k +:+ " <= 1" +:+ newline.

(** [f.write("%s" % constraint); contraintID = contraintID + 1] *)
Definition write_constraint (constraint : nat → string) (st : list string * nat)
  : list string * nat :=
  (st.1 ++ [constraint st.2], st.2 + 1).

Definition subject_to (f : list string) : list string * nat :=
  (f ++ [newline +:+ "Subject To" +:+ newline], 1).

(** "Insert Constraints" of [saveRM]. *)
Definition saveRM_constraints (self : RegnierProblem) (f : list string)
  : list string * nat :=
  for_triples (_n self) (λ i j k st,
    let st := write_constraint (line1 i j k) st in
    let st := write_constraint (line2 i j k) st in
    write_constraint (line3 i j k) st)
    (subject_to f).

(** "Insert Constraints" of [saveRMalpha] and [saveRMalphaPlus], which
    differ in where [cut] comes from. *)
Definition alpha_block (self : RegnierProblem) (cut : Z) (f : list string)
  : list string * nat :=
  for_triples (_n self) (λ i j k st,
    let st :=
      if decide (at2 (_S self) i j >= cut ∨ at2 (_S self) j k >= cut)%Z
      then write_constraint (line1 i j k) st else st in
    let st :=
      if decide (at2 (_S self) i j >= cut ∨ at2 (_S self) i k >= cut)%Z
      then write_constraint (line2 i j k) st else st in
    if decide (at2 (_S self) j k >= cut ∨ at2 (_S self) i k >= cut)%Z
    then write_constraint (line3 i j k) st else st)
    (subject_to f).

Definition saveRMalpha_constraints (self : RegnierProblem) : list string → list string * nat :=
  let cut := 0%Z in
  alpha_block self cut.

Definition saveRMalphaPlus_constraints (self : RegnierProblem)
  : list string → list string * nat :=
  let heuristic := __findPositiveCut self in
  let cut := cut heuristic in
  alpha_block self cut.

(** "Insert Constraints" of [saveRMbeta] and [saveRMbetaPlus]. *)
Definition beta_block (self : RegnierProblem) (cut : Z) (f : list string)
  : list string * nat :=
  for_triples (_n self) (λ i j k st,
    let st :=
      if decide (at2 (_S self) i j + at2 (_S self) j k >= cut)%Z
      then write_constraint (line1 i j k) st else st in
    let st :=
      if decide (at2 (_S self) i j + at2 (_S self) i k >= cut)%Z
      then write_constraint (line2 i j k) st else st in
    if decide (at2 (_S self) j k + at2 (_S self) i k >= cut)%Z
    then write_constraint (line3 i j k) st else st)
    (subject_to f).

Definition saveRMbeta_constraints (self : RegnierProblem) : list string → list string * nat :=
  let cut := 0%Z in
  beta_block self cut.

Definition saveRMbetaPlus_constraints (self : RegnierProblem)
  : list string → list string * nat :=
  let heuristic := __findPositiveCut self in
  let cut := cut heuristic in
  beta_block self cut.

(** "Insert Constraints" of [saveRMgamma]. *)
Definition saveRMgamma_constraints (self : RegnierProblem) (f : list string)
  : list string * nat :=
  let heuristic := __findNegativeCut self in
  let gamma := cut heuristic in
  for_triples (_n self) (λ i j k st,
    let st :=
      if decide (at2 (_S self) i j >= 0 ∧ at2 (_S self) j k >= gamma
                 ∧ at2 (_S self) i k <= 0)%Z
      then write_constraint (line1 i j k) st else st in
    let st :=
      if decide (at2 (_S self) i j >= 0 ∧ at2 (_S self) j k <= 0
                 ∧ at2 (_S self) i k >= gamma)%Z
      then write_constraint (line2 i j k) st else st in
    if decide (at2 (_S self) i j <= 0 ∧ at2 (_S self) j k >= gamma
               ∧ at2 (_S self) i k >= 0)%Z
    then write_constraint (line3 i j k) st else st)
    (subject_to f).

(** The three triangle constraints of a triple, the line each one is
    written as once it has its number, the constraints kept at one triple
    by three tests, and the file after a list of constraints is written,
    numbered from [st.2] on. *)
Inductive which := C1 | C2 | C3.

Definition line (c : which * nat * nat * nat) : nat → string :=
  match c with
  | (C1, i, j, k) => line1 i j k
  | (C2, i, j, k) => line2 i j k
  | (C3, i, j, k) => line3 i j k
  end.

Definition kept (c1 c2 c3 : nat → nat → nat → bool) (i j k : nat)
  : list (which * nat * nat * nat) :=
  (if c1 i j k then [(C1, i, j, k)] else [])
  ++ (if c2 i j k then [(C2, i, j, k)] else [])
  ++ (if c3 i j k then [(C3, i, j, k)] else []).

Definition test_of (c1 c2 c3 : nat → nat → nat → bool) (c : which * nat * nat * nat)
  : bool :=
  match c with
  | (C1, i, j, k) => c1 i j k
  | (C2, i, j, k) => c2 i j k
  | (C3, i, j, k) => c3 i j k
  end.

Definition write_all (cs : list (which * nat * nat * nat)) (st : list string * nat)
  : list string * nat :=
  foldl (λ st c, write_constraint (line c) st) st cs.

(** *** The rest of a [save] method *)

(** The body of the loop that writes the objective: the term of the pair
    [(i, j)], its sign written apart from [str(abs(S[i][j]))]; the term
    written when [total] is 4 ends the line, with a blank before the line
    feed. *)
Definition objective_term (self : RegnierProblem) (i j : nat)
    (st : list string * nat) : list string * nat :=
  let '(f, total) := st in
  let '(f, total) :=
    if decide (total = 4) then
      if decide (at2 (_S self) i j >= 0)%Z then
        (f ++ [" + " +:+ pretty (Z.abs (at2 (_S self) i j)) +:+ " " +:+ v i j
               +:+ " " +:+ newline], 0)
      else
        (f ++ [" - " +:+ pretty (Z.abs (at2 (_S self) i j)) +:+ " " +:+ v i j
               +:+ " " +:+ newline], 0)
    else
      if decide (at2 (_S self) i j >= 0)%Z then
        (f ++ [" + " +:+ pretty (Z.abs (at2 (_S self) i j)) +:+ " " +:+ v i j], total)
      else
        (f ++ [" - " +:+ pretty (Z.abs (at2 (_S self) i j)) +:+ " " +:+ v i j], total) in
  (f, total + 1).

(** From [f = open(filename, 'w')] to the end of the objective; [name] is
    the problem name, which differs from method to method. *)
Definition objective_block (name : string) (self : RegnierProblem) : list string :=
  let f := [] in
  let f := f ++ ["\ENCODING=ISO-8859-1" +:+ newline] in
  let f := f ++ ["\Problem name: " +:+ name +:+ " model" +:+ newline +:+ newline] in
  let f := f ++ ["Maximize" +:+ newline] in
  let f := f ++ [" obj: " +:+ newline] in
  let total := 0 in
  (for_ (range 0 (_n self))
     (λ i, for_ (range (i + 1) (_n self)) (objective_term self i)) (f, total)).1.

(** "Bounds": one line for each variable. [header] is the line that opens
    the section, which [saveRM] writes after an empty line. *)
Definition bounds_block (header : string) (self : RegnierProblem) (f : list string)
  : list string :=
  let f := f ++ [header] in
  for_ (range 0 (_n self))
    (λ i, for_ (range (i + 1) (_n self))
       (λ j f, f ++ [" 0 <= " +:+ v i j +:+ " <= 1" +:+ newline])) f.

(** The body of the loop that writes the binaries: names are gathered in
    [var_name] and written four at a time. *)
Definition binaries_name (i j : nat) (st : list string * nat * string)
  : list string * nat * string :=
  let '(f, total, var_name) := st in
  let total := total + 1 in
  if decide (total = 4) then
    let var_name := var_name +:+ (" " +:+ v i j +:+ newline) in
    (f ++ [var_name], 0, "")
  else
    (f, total, var_name +:+ (" " +:+ v i j)).

(** From [if(lp_problem==False)] to [f.close()]. What is left in
    [var_name] when the loops end is not written. *)
Definition binaries_block (header : string) (self : RegnierProblem)
    (lp_problem : bool) (f : list string) : list string :=
  let f :=
    if lp_problem then f
    else
      let f := f ++ [header] in
      let total := 0 in
      let var_name := "" in
      (for_ (range 0 (_n self))
         (λ i, for_ (range (i + 1) (_n self)) (binaries_name i))
         (f, total, var_name)).1.1 in
  f ++ ["End" +:+ newline].

(** The six [save] methods: the name of the file that is opened and the
    strings written to it, in order. *)
Definition saveRM (self : RegnierProblem) (filename : string) (lp_problem : bool)
  : string * list string :=
  let filename := filename +:+ "(RM).lp" in
  let f := objective_block "RM" self in
  let f := (saveRM_constraints self f).1 in
  let f := bounds_block (newline +:+ "Bounds" +:+ newline) self f in
  (filename, binaries_block (newline +:+ "Binaries" +:+ newline) self lp_problem f).

Definition saveRMalpha (self : RegnierProblem) (filename : string) (lp_problem : bool)
  : string * list string :=
  let filename := filename +:+ "(RMalpha0).lp" in
  let f := objective_block "RMalpha0" self in
  let f := (saveRMalpha_constraints self f).1 in
  let f := bounds_block ("Bounds" +:+ newline) self f in
  (filename, binaries_block ("Binaries" +:+ newline) self lp_problem f).

Definition saveRMalphaPlus (self : RegnierProblem) (filename : string) (lp_problem : bool)
  : string * list string :=
  let filename := filename +:+ "(RMalpha+).lp" in
  let f := objective_block "RMalpha+" self in
  let f := (saveRMalphaPlus_constraints self f).1 in
  let f := bounds_block ("Bounds" +:+ newline) self f in
  (filename, binaries_block ("Binaries" +:+ newline) self lp_problem f).

Definition saveRMbeta (self : RegnierProblem) (filename : string) (lp_problem : bool)
  : string * list string :=
  let filename := filename +:+ "(RMbeta0).lp" in
  let f := objective_block "RMbeta" self in
  let f := (saveRMbeta_constraints self f).1 in
  let f := bounds_block ("Bounds" +:+ newline) self f in
  (filename, binaries_block ("Binaries" +:+ newline) self lp_problem f).

Definition saveRMbetaPlus (self : RegnierProblem) (filename : string) (lp_problem : bool)
  : string * list string :=
  let filename := filename +:+ "(RMbeta+).lp" in
  let f := objective_block "RMbeta+" self in
  let f := (saveRMbetaPlus_constraints self f).1 in
  let f := bounds_block ("Bounds" +:+ newline) self f in
  (filename, binaries_block ("Binaries" +:+ newline) self lp_problem f).

Definition saveRMgamma (self : RegnierProblem) (filename : string) (lp_problem : bool)
  : string * list string :=
  let filename := filename +:+ "(RMgamma).lp" in
  let f := objective_block "RMgamma" self in
  let f := (saveRMgamma_constraints self f).1 in
  let f := bounds_block ("Bounds" +:+ newline) self f in
  (filename, binaries_block ("Binaries" +:+ newline) self lp_problem f).

End LP.

(** ** Quantities the statements are written with *)

(** [S[i][j]] as a partial read: [None] outside the matrix. *)
Definition cell {A : Type} (M : list (list A)) (i j : nat) : option A :=
  M !! i ≫= (.!! j).

(** An attribute position holds a pair of tokens, one of each record. *)
Definition both_present (p : string * string) : Prop :=
  p.1 ≠ "?" ∧ p.2 ≠ "?".

(** Number of attributes where both records have non-missing, equal
    values. *)
Definition matches (r1 r2 : list string) : nat :=
  length (filter (λ p, both_present p ∧ p.1 = p.2) (zip r1 r2)).

(** Number of attributes where both values are non-missing and differ. *)
Definition mismatches (r1 r2 : list string) : nat :=
  length (filter (λ p, both_present p ∧ p.1 ≠ p.2) (zip r1 r2)).

(** Number of attributes where at least one value is missing. *)
Definition missing (r1 r2 : list string) : nat :=
  length (filter (λ p, ¬ both_present p) (zip r1 r2)).

(** Total number of tokens of the dataset, and the attribute count the
    constructor derives from it. *)
Definition tokens (D : list (list string)) : nat := sum_list (length <$> D).

Definition derived_m (D : list (list string)) : nat := tokens D `div` length D.

(** The similarity of two records over their first [m] attributes: matches
    minus mismatches. *)
Definition sim_value (m : nat) (r1 r2 : list string) : Z :=
  (Z.of_nat (matches (take m r1) (take m r2))
   - Z.of_nat (mismatches (take m r1) (take m r2)))%Z.

(** A dataset is an [n × L] data matrix when each of its rows has [L]
    tokens; it is ragged when no column count fits all its rows. *)
Definition columns (L : nat) (D : list (list string)) : Prop :=
  Forall (λ r, length r = L) D.

Definition ragged (D : list (list string)) : Prop := ∀ L, ¬ columns L D.

(** Scenario A of the specification, and the same records with a stray
    third token on the last line. *)
Definition scenario_A : list (list string) :=
  [["a"; "b"]; ["a"; "b"]; ["x"; "y"]].

Definition scenario_A_ragged : list (list string) :=
  [["a"; "b"]; ["a"; "b"]; ["x"; "y"; "z"]].

(** The index of the variable of the pair [i < j]: the pairs are numbered
    row by row, [row_start n i] pairs coming before row [i]. *)
Fixpoint row_start (n i : nat) : nat :=
  match i with
  | 0 => 0
  | S i' => row_start n i' + (n - 1 - i')
  end.

Definition var_index (n i j : nat) : nat := row_start n i + (j - i - 1).

(** Binomial coefficients, by Pascal's rule. *)
Fixpoint choose (n k : nat) : nat :=
  match k, n with
  | 0, _ => 1
  | S _, 0 => 0
  | S k', S n' => choose n' k' + choose n' k
  end.

(** The triangle constraints kept at one triple by three tests, in the
    order the builders add them, and the constraints of all the triples
    [i < j < k < n]. *)
Definition emit (b : bool) (c : linear_constraint) : list linear_constraint :=
  if b then [c] else [].

Definition kept (c1 c2 c3 : nat → nat → nat → bool) (X : list (list nat))
    (i j k : nat) : list linear_constraint :=
  emit (c1 i j k) (tri1 X i j k) ++ emit (c2 i j k) (tri2 X i j k)
  ++ emit (c3 i j k) (tri3 X i j k).

Definition over_triples {A : Type} (n : nat) (f : nat → nat → nat → list A) : list A :=
  range 0 n ≫= λ i, range (i + 1) n ≫= λ j, range (j + 1) n ≫= λ k, f i j k.

Definition always (i j k : nat) : bool := true.

(** The tests of the variants. *)
Definition alpha1 (S : list (list Z)) (cut : Z) (i j k : nat) : bool :=
  bool_decide (at2 S i j >= cut ∨ at2 S j k >= cut)%Z.
Definition alpha2 (S : list (list Z)) (cut : Z) (i j k : nat) : bool :=
  bool_decide (at2 S i j >= cut ∨ at2 S i k >= cut)%Z.
Definition alpha3 (S : list (list Z)) (cut : Z) (i j k : nat) : bool :=
  bool_decide (at2 S j k >= cut ∨ at2 S i k >= cut)%Z.

Definition beta1 (S : list (list Z)) (cut : Z) (i j k : nat) : bool :=
  bool_decide (at2 S i j + at2 S j k >= cut)%Z.
Definition beta2 (S : list (list Z)) (cut : Z) (i j k : nat) : bool :=
  bool_decide (at2 S i j + at2 S i k >= cut)%Z.
Definition beta3 (S : list (list Z)) (cut : Z) (i j k : nat) : bool :=
  bool_decide (at2 S j k + at2 S i k >= cut)%Z.

Definition gamma1 (S : list (list Z)) (cut : Z) (i j k : nat) : bool :=
  bool_decide (at2 S i j >= 0 ∧ at2 S j k >= cut ∧ at2 S i k <= 0)%Z.
Definition gamma2 (S : list (list Z)) (cut : Z) (i j k : nat) : bool :=
  bool_decide (at2 S i j >= 0 ∧ at2 S j k <= 0 ∧ at2 S i k >= cut)%Z.
Definition gamma3 (S : list (list Z)) (cut : Z) (i j k : nat) : bool :=
  bool_decide (at2 S i j <= 0 ∧ at2 S j k >= cut ∧ at2 S i k >= 0)%Z.

(** A variables matrix that holds, above the diagonal, the index of each
    pair's variable. *)
Definition indexes_pairs (n : nat) (X : list (list nat)) : Prop :=
  ∀ a b, a < b < n → at2 X a b = var_index n a b.

(** The similarity the constructor stores for the records at rows [a] and
    [b] of the dataset. *)
Definition sim_entry (D : list (list string)) (m a b : nat) : Z :=
  sim_value m (D !!! a) (D !!! b).

(** Two vertices are adjacent when an edge joins them, and a graph is
    well formed when its edges join vertices it has. *)
Definition adjacent (g : Graph) (a b : nat) : Prop :=
  ∃ w, (a, b, w) ∈ es g ∨ (b, a, w) ∈ es g.

Definition well_formed (g : Graph) : Prop :=
  ∀ e, e ∈ es g → e.1.1 < vcount g ∧ e.1.2 < vcount g.

(** What holds of the graph and of the set of weights all along a graph
    construction with the test [keep], once rows [0 .. i-1] and the columns
    below [j] of row [i] are done. *)
Definition graph_inv (keep : Z → Prop) (S : list (list Z)) (n i j : nat)
    (st : Graph * list Z) : Prop :=
  vcount st.1 = n ∧
  (∀ e, e ∈ es st.1 → e.2 ∈ st.2 ∧ e.1.1 < e.1.2 ∧ e.1.2 < n) ∧
  (∀ w, w ∈ st.2 → keep w ∧ ∃ a b, a < b ∧ b < n ∧ at2 S a b = w) ∧
  (∀ a b, (a < i ∨ (a = i ∧ b < j)) → a < b → b < n →
          keep (at2 S a b) → at2 S a b ∈ st.2).

(** Following the specification: the decoding that consults the pairs
    [i < j] only. It differs from [create_partition] in the range of [j]
    and in nothing else. *)
Definition create_partition_pairs (X : list (list nat)) (x : list Q) (n : nat)
  : result (list Z) :=
  let groups := for_ (range 0 n) (λ _ groups, groups ++ [(-1)%Z]) [] in
  let groupID := 0%Z in
  st ← forM (range 0 n) (λ i, forM (range (i + 1) n) (visit_cell X x i)) (groups, groupID);
  Ok (close_singletons st).1.

(** A variables matrix as the model builders leave it: the index of the
    pair's variable above the diagonal, the default 0 on and below it. *)
Definition variables_matrix (n : nat) (X : list (list nat)) : Prop :=
  ∀ a b, a < n → b < n →
    at2 X a b = if decide (a < b) then var_index n a b else 0.

(** ** Further quantities *)

(** The pairs [i < j < n] in the order the loops over the pairs visit
    them. *)
Definition pairs (n : nat) : list (nat * nat) :=
  range 0 n ≫= λ i, range (i + 1) n ≫= λ j, [(i, j)].

(** The variable a model builder adds for a pair. *)
Definition variable_of (S : list (list Z)) (ty : variable_type) (p : nat * nat)
  : variable :=
  mkVariable (at2 S p.1 p.2) 0 1 ("v." +:+ pretty p.1 +:+ "." +:+ pretty p.2) ty.

Definition type_of (lp_problem : bool) : variable_type :=
  if lp_problem then continuous else binary.

(** A constraint loop leaves the variables and the sense of the problem
    as they are. *)
Definition keeps_variables (ins : list (list nat) → nat → Cplex → Cplex) : Prop :=
  ∀ X n p, variables (ins X n p) = variables p ∧ sense (ins X n p) = sense p.



(** The lines of a block of constraints are those of the constraints
    [cs], numbered from 1 in the order of [cs], after the line that opens
    the section. *)
Definition numbered_from_one (f : list string) (cs : list (LP.which * nat * nat * nat))
    (out : list string * nat) : Prop :=
  out.1 = f ++ [LP.newline +:+ "Subject To" +:+ LP.newline]
            ++ imap (λ k c, LP.line c (k + 1)) cs ∧
  out.2 = length cs + 1.

(** The term of the objective written for the pair [p], the [k]-th pair
    from 0: its sign, the absolute value of the similarity and the name of
    the variable, followed by a blank and a line feed at every fourth
    pair but the first. *)
Definition objective_string (self : RegnierProblem) (k : nat) (p : nat * nat)
  : string :=
  if decide (0 < k ∧ k `mod` 4 = 0) then
    (if decide (at2 (_S self) p.1 p.2 >= 0)%Z then " + " else " - ")
    +:+ pretty (Z.abs (at2 (_S self) p.1 p.2)) +:+ " " +:+ LP.v p.1 p.2
    +:+ " " +:+ LP.newline
  else
    (if decide (at2 (_S self) p.1 p.2 >= 0)%Z then " + " else " - ")
    +:+ pretty (Z.abs (at2 (_S self) p.1 p.2)) +:+ " " +:+ LP.v p.1 p.2.

(** The value of [total] in the objective loop before the [k]-th pair. *)
Definition objective_total (k : nat) : nat :=
  if decide (k = 0) then 0 else (k - 1) `mod` 4 + 1.

(** The line of bounds of a pair. *)
Definition bounds_line (p : nat * nat) : string :=
  " 0 <= " +:+ LP.v p.1 p.2 +:+ " <= 1" +:+ LP.newline.

(** The lines of names written for a list of pairs: one for every four
    pairs, the pairs left over giving none. *)
Fixpoint names_by_four (l : list (nat * nat)) : list string :=
  match l with
  | p1 :: p2 :: p3 :: p4 :: l' =>
      (((("" +:+ (" " +:+ LP.v p1.1 p1.2)) +:+ (" " +:+ LP.v p2.1 p2.2))
        +:+ (" " +:+ LP.v p3.1 p3.2)) +:+ (" " +:+ LP.v p4.1 p4.2 +:+ LP.newline))
      :: names_by_four l'
  | _ => []
  end.

(** The strings a [save] method writes: the objective, the constraints
    [cs] numbered from 1, the bounds and, when [lp_problem] is false, the
    binaries; [blank] is what precedes the words [Bounds] and [Binaries],
    a line feed in [saveRM] and nothing in the other methods. *)
Definition lp_file (name : string) (self : RegnierProblem)
    (cs : list (LP.which * nat * nat * nat)) (blank : string) (lp_problem : bool)
  : list string :=
  ["\ENCODING=ISO-8859-1" +:+ LP.newline;
   "\Problem name: " +:+ name +:+ " model" +:+ LP.newline +:+ LP.newline;
   "Maximize" +:+ LP.newline;
   " obj: " +:+ LP.newline]
  ++ imap (objective_string self) (pairs (_n self))
  ++ [LP.newline +:+ "Subject To" +:+ LP.newline]
  ++ imap (λ k c, LP.line c (k + 1)) cs
  ++ [blank +:+ "Bounds" +:+ LP.newline]
  ++ (bounds_line <$> pairs (_n self))
  ++ (if lp_problem then []
      else [blank +:+ "Binaries" +:+ LP.newline] ++ names_by_four (pairs (_n self)))
  ++ ["End" +:+ LP.newline].

(** The number of records that have no group yet, and what holds of the
    decoder's state all along: the ids in use are below the next fresh id,
    and there are enough records left without a group for the fresh ids
    never to exceed the number of records. *)
Definition unassigned (groups : list Z) : nat :=
  length (filter (λ g, g = (-1)%Z) groups).

Definition decoder_inv (n : nat) (st : list Z * Z) : Prop :=
  length st.1 = n ∧ (0 ≤ st.2)%Z ∧
  Forall (λ g, g = (-1)%Z ∨ (0 ≤ g < st.2)%Z) st.1 ∧
  (st.2 + Z.of_nat (unassigned st.1) ≤ Z.of_nat n)%Z.

(** The decoder on the values of a partition. [c] gives each record its
    cluster. A record has been given a group by the pairs that come before
    [(i, j)] when one of them holds it and joins two records of one
    cluster. *)
Definition assigned_by (c : nat → nat) (n i j a : nat) : Prop :=
  ∃ p q, (p < i ∨ (p = i ∧ q < j)) ∧ p < q ∧ q < n ∧ c p = c q ∧ (a = p ∨ a = q).

(** The ids in use are below the next fresh id, and two records that
    have a group have the same one exactly when they are in one
    cluster. *)
Definition clusters_inv (c : nat → nat) (n : nat) (st : list Z * Z) : Prop :=
  length st.1 = n ∧ (0 ≤ st.2)%Z ∧
  (∀ a, a < n → st.1 !!! a = (-1)%Z ∨ (0 ≤ st.1 !!! a < st.2)%Z) ∧
  (∀ a b, a < n → b < n → st.1 !!! a ≠ (-1)%Z → st.1 !!! b ≠ (-1)%Z →
     (st.1 !!! a = st.1 !!! b ↔ c a = c b)).

Definition pairs_inv (c : nat → nat) (n i j : nat) (st : list Z * Z) : Prop :=
  clusters_inv c n st ∧
  ∀ a, a < n → (st.1 !!! a ≠ (-1)%Z ↔ assigned_by c n i j a).

(** The decoder once the value at index 0 is positive: the only group is
    group 0, and 1 is the next fresh id. *)
Definition one_group_inv (n : nat) (st : list Z * Z) : Prop :=
  length st.1 = n ∧ st.2 = 1%Z ∧ Forall (λ g, g = (-1)%Z ∨ g = 0%Z) st.1.

(** * Proofs *)

(** ** Loops *)

Section loops.
Context {St : Type}.

(** Invariant rule for a loop over [seq lo len]. *)
Lemma for_seq_inv (P : nat → St → Prop) (body : nat → St → St) len :
  ∀ lo st,
    P lo st →
    (∀ i s, lo ≤ i < lo + len → P i s → P (S i) (body i s)) →
    P (lo + len) (for_ (seq lo len) body st).
Proof.
  induction len as [|len IH]; intros lo st H0 Hstep; simpl.
  - by rewrite Nat.add_0_r.
  - replace (lo + S len) with (S lo + len) by lia.
    apply IH.
    + apply Hstep; [lia | done].
    + intros i s Hi. apply Hstep. lia.
Qed.

Lemma for_range_inv (P : nat → St → Prop) (body : nat → St → St) lo hi st :
  lo ≤ hi →
  P lo st →
  (∀ i s, lo ≤ i < hi → P i s → P (S i) (body i s)) →
  P hi (for_ (range lo hi) body st).
Proof.
  intros Hle H0 Hstep. unfold range.
  replace hi with (lo + (hi - lo)) at 1 by lia.
  apply for_seq_inv; [done |].
  intros i s Hi. apply Hstep. lia.
Qed.

(** The same for a body that can raise: if every iteration succeeds
    under the invariant, so does the loop. *)
Lemma forM_seq_inv (P : nat → St → Prop) (body : nat → St → result St) len :
  ∀ lo st,
    P lo st →
    (∀ i s, lo ≤ i < lo + len → P i s → ∃ s', body i s = Ok s' ∧ P (S i) s') →
    ∃ st', forM (seq lo len) body st = Ok st' ∧ P (lo + len) st'.
Proof.
  induction len as [|len IH]; intros lo st H0 Hstep; simpl.
  - exists st. by rewrite Nat.add_0_r.
  - destruct (Hstep lo st) as (s' & -> & Hs'); [lia | done |]. simpl.
    replace (lo + S len) with (S lo + len) by lia.
    apply IH; [done |].
    intros i s Hi. apply Hstep. lia.
Qed.

Lemma forM_range_inv (P : nat → St → Prop) (body : nat → St → result St) lo hi st :
  lo ≤ hi →
  P lo st →
  (∀ i s, lo ≤ i < hi → P i s → ∃ s', body i s = Ok s' ∧ P (S i) s') →
  ∃ st', forM (range lo hi) body st = Ok st' ∧ P hi st'.
Proof.
  intros Hle H0 Hstep. unfold range.
  destruct (forM_seq_inv P body (hi - lo) lo st) as (st' & Hrun & HP);
    [done | intros i s Hi; apply Hstep; lia |].
  exists st'. split; [done |].
  by replace (lo + (hi - lo)) with hi in HP by lia.
Qed.

(** A loop that returned ran every one of its iterations to the end. *)
Lemma forM_Ok_each (body : nat → St → result St) l :
  ∀ st st', forM l body st = Ok st' →
  ∀ i, i ∈ l → ∃ s s', body i s = Ok s'.
Proof.
  induction l as [|a l IH]; intros st st' Hrun i Hi.
  - by apply elem_of_nil in Hi.
  - simpl in Hrun. destruct (body a st) as [s1|e] eqn:Hb; [|done].
    simpl in Hrun. apply elem_of_cons in Hi as [-> | Hi]; eauto.
Qed.

(** The only exceptions a loop raises are those of its body. *)
Lemma forM_raises (body : nat → St → result St) (e0 : exn) l :
  (∀ i s e, body i s = Raise e → e = e0) →
  ∀ st e, forM l body st = Raise e → e = e0.
Proof.
  intros Hb. induction l as [|a l IH]; intros st e Hrun; [done |].
  simpl in Hrun. destruct (body a st) as [s1|e1] eqn:Hba; simpl in Hrun.
  - eauto.
  - inversion Hrun; subst. eauto.
Qed.
End loops.

Lemma for_cons {St : Type} (body : nat → St → St) i l st :
  for_ (i :: l) body st = for_ l body (body i st).
Proof. done. Qed.

Lemma elem_of_range i lo hi : i ∈ range lo hi ↔ lo ≤ i < hi.
Proof. unfold range. rewrite elem_of_seq. lia. Qed.

Lemma forM_app {St : Type} (body : nat → St → result St) (l1 l2 : list nat) :
  ∀ st, forM (l1 ++ l2) body st = forM l1 body st ≫= forM l2 body.
Proof.
  induction l1 as [|i l1 IH]; intros st; [done |].
  simpl. destruct (body i st) as [s|e]; [|done]. apply IH.
Qed.

Lemma forM_skip {St : Type} (body : nat → St → result St) (l : list nat) :
  (∀ i s, i ∈ l → body i s = Ok s) → ∀ st, forM l body st = Ok st.
Proof.
  induction l as [|i l IH]; intros Hid st; [done |].
  simpl. rewrite Hid by left. simpl. apply IH.
  intros j s Hj. apply Hid. by right.
Qed.

Lemma forM_ext {St : Type} (f g : nat → St → result St) (l : list nat) :
  (∀ i s, i ∈ l → f i s = g i s) → ∀ st, forM l f st = forM l g st.
Proof.
  induction l as [|i l IH]; intros Hfg st; [done |].
  simpl. rewrite Hfg by left. destruct (g i st) as [s|e]; [|done]. simpl.
  apply IH. intros j s' Hj. apply Hfg. by right.
Qed.

Lemma range_split (lo mid hi : nat) :
  lo ≤ mid → mid ≤ hi → range lo hi = range lo mid ++ range mid hi.
Proof.
  intros H1 H2. unfold range.
  replace (hi - lo) with ((mid - lo) + (hi - mid)) by lia.
  rewrite seq_app. do 2 f_equal. lia.
Qed.

(** ** The constructor *)

Lemma alter_last {A : Type} (f : A → A) (l : list A) (a : A) :
  alter f (length l) (l ++ [a]) = l ++ [f a].
Proof.
  rewrite <- (Nat.add_0_r (length l)). by rewrite alter_app_r.
Qed.

Lemma read_tokens (D : list (list string)) (row : list string) :
  ∀ (acc : list string) (m : nat),
    foldl (λ '(D', m) v, (alter (λ r, r ++ [v]) (length D) D', m + 1))
          (D ++ [acc], m) row
    = (D ++ [acc ++ row], m + length row).
Proof.
  induction row as [|v row IH]; intros acc m; simpl.
  - by rewrite app_nil_r, Nat.add_0_r.
  - rewrite alter_last, IH, <- app_assoc. simpl. f_equal. lia.
Qed.

Lemma read_row_spec (D : list (list string)) (row : list string) (m : nat) :
  read_row row (D, length D, m) = (D ++ [row], length D + 1, m + length row).
Proof. unfold read_row. by rewrite read_tokens. Qed.

Lemma read_rows_spec (rows : list (list string)) :
  ∀ (D : list (list string)) (m : nat),
    foldl (λ st row, read_row row st) (D, length D, m) rows
    = (D ++ rows, length D + length rows, m + tokens rows).
Proof.
  unfold tokens.
  induction rows as [|row rows IH]; intros D m; cbn -[read_row].
  - by rewrite app_nil_r, !Nat.add_0_r.
  - rewrite read_row_spec.
    replace (length D + 1) with (length (D ++ [row])) by (rewrite length_app; simpl; lia).
    rewrite IH, <- app_assoc, length_app. simpl. f_equal; [f_equal |]; lia.
Qed.

(** The reading loop copies the rows, counts them and counts the tokens. *)
Lemma read_dataset_spec (rows : list (list string)) :
  read_dataset rows = (rows, length rows, tokens rows).
Proof. unfold read_dataset. apply (read_rows_spec rows [] 0). Qed.

Lemma init_row {A : Type} (v : A) (S0 : list (list A)) len :
  ∀ lo (r : list A),
    for_ (seq lo len) (λ _ S, alter (λ r, r ++ [v]) (length S0) S) (S0 ++ [r])
    = S0 ++ [r ++ replicate len v].
Proof.
  unfold for_.
  induction len as [|len IH]; intros lo r; simpl.
  - by rewrite app_nil_r.
  - rewrite alter_last, IH, <- app_assoc. done.
Qed.

Lemma init_row_range {A : Type} (v : A) (S0 : list (list A)) (n : nat) :
  for_ (range 0 n) (λ _ S, alter (λ r, r ++ [v]) (length S0) S) (S0 ++ [[]])
  = S0 ++ [replicate n v].
Proof. unfold range. by rewrite init_row, Nat.sub_0_r. Qed.

Lemma init_rows {A : Type} (n : nat) (v : A) len :
  ∀ lo (S0 : list (list A)),
    length S0 = lo →
    for_ (seq lo len)
      (λ i S, for_ (range 0 n) (λ _ S, alter (λ r, r ++ [v]) i S) (S ++ [[]])) S0
    = S0 ++ replicate len (replicate n v).
Proof.
  induction len as [|len IH]; intros lo S0 Hlo.
  - by rewrite app_nil_r.
  - change (seq lo (S len)) with (lo :: seq (S lo) len).
    rewrite for_cons. subst lo. rewrite init_row_range.
    rewrite IH by (rewrite length_app; simpl; lia).
    by rewrite <- app_assoc.
Qed.

(** The sentinel matrix. *)
Lemma init_S_spec (n m : nat) :
  init_S n m = replicate n (replicate n (- Z.of_nat m - 1)%Z).
Proof.
  unfold init_S, range at 1. rewrite Nat.sub_0_r.
  by rewrite (init_rows n _ n 0 []).
Qed.

(** *** Reading and writing one cell *)

Lemma cell_replicate {A : Type} (n k : nat) (v : A) (a b : nat) :
  cell (replicate n (replicate k v)) a b
  = if decide (a < n ∧ b < k) then Some v else None.
Proof.
  unfold cell. case_decide as H.
  - destruct H. rewrite lookup_replicate_2 by done. simpl.
    by rewrite lookup_replicate_2.
  - destruct (decide (a < n)).
    + rewrite lookup_replicate_2 by done. simpl.
      apply lookup_replicate_None. lia.
    + assert (replicate n (replicate k v) !! a = None) as ->; [|done].
      apply lookup_replicate_None. lia.
Qed.

Lemma cell_write {A : Type} (M : list (list A)) (i j : nat) (v : A) (a b : nat) :
  cell (alter (<[j := v]>) i M) a b
  = if decide (a = i ∧ b = j) then (λ _, v) <$> cell M a b else cell M a b.
Proof.
  unfold cell. rewrite list_lookup_alter.
  destruct (decide (i = a)) as [->|Hne].
  - destruct (M !! a) as [row|]; simpl.
    + destruct (decide (b = j)) as [->|Hb].
      * rewrite decide_True by done.
        destruct (decide (j < length row)).
        -- rewrite list_lookup_insert_eq by done.
           by destruct (lookup_lt_is_Some_2 row j) as [x ->].
        -- rewrite list_insert_ge by lia.
           by rewrite (lookup_ge_None_2 row j) by lia.
      * rewrite decide_False by naive_solver.
        by rewrite list_lookup_insert_ne.
    + by case_decide.
  - by rewrite decide_False by naive_solver.
Qed.

Lemma cell_total {A : Type} `{Inhabited A} (M : list (list A)) (i j : nat) (v : A) :
  cell M i j = Some v → (M !!! i) !!! j = v.
Proof.
  unfold cell. intros Hc.
  destruct (M !! i) as [row|] eqn:Hrow; [|done]. simpl in Hc.
  rewrite (list_lookup_total_correct _ _ _ Hrow).
  by apply list_lookup_total_correct.
Qed.

(** *** Counting attributes *)

Lemma zip_snoc {A B : Type} (l1 : list A) (l2 : list B) a b :
  length l1 = length l2 → zip (l1 ++ [a]) (l2 ++ [b]) = zip l1 l2 ++ [(a, b)].
Proof. intros Hlen. by rewrite zip_with_app. Qed.

Lemma count_snoc {A : Type} (P : A → Prop) `{∀ x, Decision (P x)} (l : list A) x :
  length (filter P (l ++ [x]))
  = length (filter P l) + (if decide (P x) then 1 else 0).
Proof.
  rewrite filter_app, length_app. f_equal.
  rewrite filter_cons, filter_nil. by case_decide.
Qed.

(** Every attribute position is a match, a mismatch or has a missing
    value. *)
Lemma counts_total (r1 r2 : list string) :
  matches r1 r2 + mismatches r1 r2 + missing r1 r2 = length (zip r1 r2).
Proof.
  unfold matches, mismatches, missing.
  induction (zip r1 r2) as [|p l IH]; [done |].
  rewrite !filter_cons. simpl.
  repeat case_decide; simpl; try lia; naive_solver.
Qed.

Lemma matches_sym (r1 : list string) : ∀ r2, matches r1 r2 = matches r2 r1.
Proof.
  unfold matches.
  induction r1 as [|a r1 IH]; intros [|b r2]; try done.
  simpl. rewrite !filter_cons. unfold both_present. simpl.
  repeat case_decide; simpl; rewrite ?IH; try done; naive_solver.
Qed.

Lemma mismatches_sym (r1 : list string) : ∀ r2, mismatches r1 r2 = mismatches r2 r1.
Proof.
  unfold mismatches.
  induction r1 as [|a r1 IH]; intros [|b r2]; try done.
  simpl. rewrite !filter_cons. unfold both_present. simpl.
  repeat case_decide; simpl; rewrite ?IH; try done; naive_solver.
Qed.

Lemma sim_value_sym (m : nat) (r1 r2 : list string) :
  sim_value m r1 r2 = sim_value m r2 r1.
Proof. unfold sim_value. by rewrite matches_sym, mismatches_sym. Qed.

Lemma sim_value_bounds (m : nat) (r1 r2 : list string) :
  (- Z.of_nat m ≤ sim_value m r1 r2 ≤ Z.of_nat m)%Z.
Proof.
  unfold sim_value.
  pose proof (counts_total (take m r1) (take m r2)) as Ht.
  assert (length (zip (take m r1) (take m r2)) ≤ m).
  { rewrite length_zip_with, !length_take. lia. }
  lia.
Qed.

(** A row of full length is the row. *)
Lemma sim_value_full (r1 r2 : list string) :
  sim_value (length r1) r1 r2
  = (Z.of_nat (matches r1 r2) - Z.of_nat (mismatches r1 r2))%Z.
Proof.
  unfold sim_value, matches, mismatches.
  rewrite firstn_all, zip_with_take_r. done.
Qed.

(** *** The attribute loop *)

Section attribute_loop.
Variable D : list (list string).
Variables (i j : nat) (ri rj : list string).
Hypothesis Hi : D !! i = Some ri.
Hypothesis Hj : D !! j = Some rj.

Lemma getD_i k a : ri !! k = Some a → getD D i k = Ok a.
Proof using Hi. intros Hk. unfold getD. by rewrite Hi, Hk. Qed.

Lemma getD_j k b : rj !! k = Some b → getD D j k = Ok b.
Proof using Hj. intros Hk. unfold getD. by rewrite Hj, Hk. Qed.

(** After [k] iterations the counters hold the matches and the missing
    positions among the first [k] attributes. *)
Lemma count_attr_loop (m : nat) :
  m ≤ length ri → m ≤ length rj →
  forM (range 0 m) (count_attr D i j) (0%Z, 0%Z)
  = Ok (Z.of_nat (matches (take m ri) (take m rj)),
        Z.of_nat (missing (take m ri) (take m rj))).
Proof using Hi Hj.
  intros Hmi Hmj.
  destruct (forM_range_inv
    (λ k st, st = (Z.of_nat (matches (take k ri) (take k rj)),
                   Z.of_nat (missing (take k ri) (take k rj))))
    (count_attr D i j) 0 m (0%Z, 0%Z)) as (st & -> & ->); [lia | done | | done].
  intros k s Hk ->.
  destruct (lookup_lt_is_Some_2 ri k) as [a Ha]; [lia |].
  destruct (lookup_lt_is_Some_2 rj k) as [b Hb]; [lia |].
  rewrite (take_S_r _ _ _ Ha), (take_S_r _ _ _ Hb).
  unfold matches, missing.
  rewrite zip_snoc by (rewrite !length_take; lia).
  rewrite !count_snoc. unfold count_attr, both_present.
  rewrite (getD_i _ _ Ha). simpl.
  destruct (decide (a ≠ "?")) as [Hpa|Hpa]; simpl.
  - rewrite (getD_j _ _ Hb). simpl.
    destruct (decide (b ≠ "?")) as [Hpb|Hpb]; simpl.
    + destruct (decide (a = b)) as [Hab|Hab].
      * rewrite decide_True, decide_False by naive_solver.
        eexists; split; [done |]. f_equal; lia.
      * rewrite decide_False, decide_False by naive_solver.
        eexists; split; [done |]. f_equal; lia.
    + rewrite decide_False, decide_True by naive_solver.
      eexists; split; [done |]. f_equal; lia.
  - rewrite decide_False, decide_True by naive_solver.
    eexists; split; [done |]. f_equal; lia.
Qed.

(** The value the similarity loop stores at [(i, j)]. *)
Lemma fill_cell_ok (m : nat) (S : list (list Z)) :
  i ≠ j → m ≤ length ri → m ≤ length rj →
  fill_cell D m i j S = Ok (alter (<[j := sim_value m ri rj]>) i S).
Proof using Hi Hj.
  intros Hne Hmi Hmj. unfold fill_cell.
  rewrite decide_True by done. rewrite count_attr_loop by done. simpl.
  do 3 f_equal. unfold sim_value.
  pose proof (counts_total (take m ri) (take m rj)) as Ht.
  rewrite length_zip_with, !length_take in Ht. lia.
Qed.
End attribute_loop.

(** *** The similarity loop *)

Section similarity_loop.
Variable D : list (list string).
Variable m : nat.
Hypothesis Hrows : Forall (λ r, m ≤ length r) D.


Lemma row_at (a : nat) : a < length D → D !! a = Some (D !!! a) ∧ m ≤ length (D !!! a).
Proof using Hrows.
  intros Ha. destruct (lookup_lt_is_Some_2 D a Ha) as [r Hr].
  rewrite (list_lookup_total_correct _ _ _ Hr). split; [done |].
  by apply (Forall_lookup_1 _ _ _ _ Hrows Hr).
Qed.

Lemma fill_cell_total (i j : nat) (S : list (list Z)) :
  i < length D → j < length D →
  fill_cell D m i j S
  = Ok (if decide (i ≠ j) then alter (<[j := sim_entry D m i j]>) i S else S).
Proof using Hrows.
  intros Hi Hj. destruct (row_at i Hi) as [Hri Hmi], (row_at j Hj) as [Hrj Hmj].
  case_decide as Hne.
  - by apply fill_cell_ok.
  - unfold fill_cell. rewrite decide_False by naive_solver. done.
Qed.

Lemma fill_row (i : nat) (S0 : list (list Z)) :
  i < length D →
  ∃ S1, forM (range 0 (length D)) (fill_cell D m i) S0 = Ok S1 ∧
    ∀ a b, cell S1 a b
           = if decide (a = i ∧ b < length D ∧ b ≠ a)
             then (λ _, sim_entry D m a b) <$> cell S0 a b else cell S0 a b.
Proof using Hrows.
  intros Hi.
  destruct (forM_range_inv
    (λ j S1, ∀ a b, cell S1 a b
                    = if decide (a = i ∧ b < j ∧ b ≠ a)
                      then (λ _, sim_entry D m a b) <$> cell S0 a b else cell S0 a b)
    (fill_cell D m i) 0 (length D) S0) as (S1 & Hrun & HS1).
  - lia.
  - intros a b. rewrite decide_False by lia. done.
  - intros j s Hj Hs. rewrite fill_cell_total by lia.
    eexists; split; [done |]. intros a b.
    destruct (decide (i ≠ j)) as [Hne|Heq].
    + rewrite cell_write, Hs.
      repeat case_decide; try done; try (exfalso; lia).
      all: destruct_and?; by subst.
    + rewrite Hs. repeat case_decide; try done; exfalso; lia.
  - by exists S1.
Qed.

Lemma fill_rows (S0 : list (list Z)) :
  ∃ S1, forM (range 0 (length D)) (λ i, forM (range 0 (length D)) (fill_cell D m i)) S0 = Ok S1 ∧
    ∀ a b, cell S1 a b
           = if decide (a < length D ∧ b < length D ∧ b ≠ a)
             then (λ _, sim_entry D m a b) <$> cell S0 a b else cell S0 a b.
Proof using Hrows.
  destruct (forM_range_inv
    (λ i S1, ∀ a b, cell S1 a b
                    = if decide (a < i ∧ b < length D ∧ b ≠ a)
                      then (λ _, sim_entry D m a b) <$> cell S0 a b else cell S0 a b)
    (λ i, forM (range 0 (length D)) (fill_cell D m i)) 0 (length D) S0) as (S1 & Hrun & HS1).
  - lia.
  - intros a b. rewrite decide_False by lia. done.
  - intros i s Hi Hs.
    destruct (fill_row i s) as (s' & -> & Hs'); [lia |].
    eexists; split; [done |]. intros a b.
    rewrite Hs', Hs.
    repeat case_decide; try done; exfalso; lia.
  - by exists S1.
Qed.
End similarity_loop.

(** What the constructor builds when no row is shorter than the derived
    attribute count. *)
Lemma init_accepts (D : list (list string)) :
  D ≠ [] →
  Forall (λ r, derived_m D ≤ length r) D →
  ∃ S, __init__ D = Ok (mkRegnierProblem S (length D) (derived_m D)) ∧
    ∀ a b, cell S a b
           = if decide (a < length D ∧ b < length D)
             then Some (if decide (a ≠ b)
                        then sim_value (derived_m D) (D !!! a) (D !!! b)
                        else (- Z.of_nat (derived_m D) - 1)%Z)
             else None.
Proof.
  intros Hne Hrows. unfold __init__. rewrite read_dataset_spec.
  rewrite decide_False by (by destruct D).
  fold (derived_m D). rewrite init_S_spec.
  destruct (fill_rows D (derived_m D) Hrows
              (replicate (length D) (replicate (length D)
                 (- Z.of_nat (derived_m D) - 1)%Z))) as (S1 & -> & HS1).
  exists S1. split; [done |]. intros a b.
  rewrite HS1, cell_replicate.
  repeat case_decide; try done; exfalso; lia.
Qed.

(** *** When the constructor raises *)

Lemma getD_Ok (D : list (list string)) (i k : nat) (v : string) :
  getD D i k = Ok v → ∃ r, D !! i = Some r ∧ k < length r.
Proof.
  unfold getD. destruct (D !! i) as [r|]; [|done].
  destruct (r !! k) eqn:Hk; [|done].
  intros _. exists r. split; [done |]. by eapply lookup_lt_Some.
Qed.

Lemma getD_raises (D : list (list string)) (i k : nat) (e : exn) :
  getD D i k = Raise e → e = IndexError.
Proof.
  unfold getD. destruct (D !! i) as [r|]; [destruct (r !! k) |]; congruence.
Qed.

Lemma count_attr_Ok (D : list (list string)) (i j k : nat) (s s' : Z * Z) :
  count_attr D i j k s = Ok s' → ∃ r, D !! i = Some r ∧ k < length r.
Proof.
  unfold count_attr. destruct s as [t tm].
  destruct (getD D i k) as [a|e] eqn:Ha; [|done].
  intros _. by eapply getD_Ok.
Qed.

Lemma count_attr_raises (D : list (list string)) (i j k : nat) (s : Z * Z) (e : exn) :
  count_attr D i j k s = Raise e → e = IndexError.
Proof.
  unfold count_attr. destruct s as [t tm].
  destruct (getD D i k) as [a|e1] eqn:Ha; simpl.
  - case_decide; [|done].
    destruct (getD D j k) as [b|e2] eqn:Hb; simpl.
    + repeat case_decide; done.
    + intros [= <-]. by eapply getD_raises.
  - intros [= <-]. by eapply getD_raises.
Qed.

Lemma fill_cell_Ok (D : list (list string)) (m i j : nat) (S S' : list (list Z)) (r : list string) :
  i ≠ j → D !! i = Some r → fill_cell D m i j S = Ok S' → m ≤ length r.
Proof.
  intros Hne Hr. unfold fill_cell. rewrite decide_True by done.
  destruct (forM (range 0 m) (count_attr D i j) (0%Z, 0%Z)) as [st|e] eqn:Hloop; [|done].
  intros _. destruct m as [|m]; [lia |].
  destruct (forM_Ok_each _ _ _ _ Hloop m) as (s & s' & Hs).
  { apply elem_of_range. lia. }
  apply count_attr_Ok in Hs as (r' & Hr' & Hlt).
  rewrite Hr in Hr'. injection Hr' as <-. lia.
Qed.

Lemma fill_cell_raises (D : list (list string)) (m i j : nat) (S : list (list Z)) (e : exn) :
  fill_cell D m i j S = Raise e → e = IndexError.
Proof.
  unfold fill_cell. case_decide; [|done].
  destruct (forM (range 0 m) (count_attr D i j) (0%Z, 0%Z)) as [[t tm]|e1] eqn:Hloop;
    simpl; [done |].
  intros [= <-].
  eapply (forM_raises (count_attr D i j) IndexError); [|exact Hloop].
  intros k s e2. apply count_attr_raises.
Qed.

Lemma tokens_singleton (r : list string) : derived_m [r] = length r.
Proof.
  unfold derived_m, tokens.
  replace (sum_list (length <$> [r])) with (length r) by (simpl; lia).
  apply Nat.div_1_r.
Qed.

(** A dataset the constructor accepts has at least one row and no row
    shorter than the derived attribute count. *)
Lemma init_Ok_inv (D : list (list string)) (self : RegnierProblem) :
  __init__ D = Ok self →
  D ≠ [] ∧ Forall (λ r, derived_m D ≤ length r) D.
Proof.
  unfold __init__. rewrite read_dataset_spec.
  case_decide as Hn; [done |]. fold (derived_m D).
  destruct (forM _ _ _) as [S1|e] eqn:Hloop; [|done].
  intros _. split; [by intros -> |].
  apply Forall_lookup_2. intros i r Hr.
  pose proof (lookup_lt_Some _ _ _ Hr) as Hi.
  destruct (decide (length D = 1)) as [H1|H1].
  - destruct D as [|r0 [|? ?]]; try done.
    destruct i; [|done]. injection Hr as ->. by rewrite tokens_singleton.
  - set (j := if decide (i = 0) then 1 else 0).
    assert (j < length D ∧ i ≠ j) as [Hj Hij] by (unfold j; case_decide; lia).
    destruct (forM_Ok_each _ _ _ _ Hloop i) as (s & s' & Hrow).
    { apply elem_of_range. lia. }
    destruct (forM_Ok_each _ _ _ _ Hrow j) as (t & t' & Hcell).
    { apply elem_of_range. lia. }
    by eapply fill_cell_Ok.
Qed.

(** The similarity loops raise nothing but [IndexError]. *)
Lemma init_raises (D : list (list string)) (e : exn) :
  __init__ D = Raise e →
  (e = ZeroDivisionError ∧ D = []) ∨ (e = IndexError ∧ D ≠ []).
Proof.
  unfold __init__. rewrite read_dataset_spec.
  case_decide as Hn.
  - intros [= <-]. left. split; [done |]. by destruct D.
  - destruct (forM _ _ _) as [S1|e1] eqn:Hloop; simpl; [done |].
    intros [= <-]. right. split; [|by intros ->].
    eapply (forM_raises _ IndexError); [|exact Hloop].
    intros i s e2 Hrow.
    eapply (forM_raises _ IndexError); [|exact Hrow].
    intros j t e3. apply fill_cell_raises.
Qed.

Lemma columns_tokens (D : list (list string)) (L : nat) :
  columns L D → tokens D = length D * L.
Proof.
  induction 1 as [|r D Hr _ IH]; [done |].
  change (tokens (r :: D)) with (length r + tokens D).
  rewrite IH. simpl. lia.
Qed.

Lemma columns_derived_m (D : list (list string)) (L : nat) :
  D ≠ [] → columns L D → derived_m D = L.
Proof.
  intros Hne Hrect. unfold derived_m. rewrite (columns_tokens D L Hrect).
  rewrite Nat.mul_comm. apply Nat.div_mul.
  by destruct D.
Qed.

Lemma columns_accepted (D : list (list string)) (L : nat) :
  D ≠ [] → columns L D → Forall (λ r, derived_m D ≤ length r) D.
Proof.
  intros Hne Hcol. rewrite (columns_derived_m D L Hne Hcol).
  eapply Forall_impl; [exact Hcol |]. simpl. lia.
Qed.

(** *** The claims about the similarity matrix *)

(** C3. For a data matrix with [L] columns the constructor returns, and
    for every ordered pair of distinct records the entry [S[i][j]] is the
    number of attributes where both values are present and equal minus the
    number where both are present and differ; an attribute with a missing
    value in either record is in neither count. *)
Theorem similarity_entry_counts (D : list (list string)) (L : nat) :
  D ≠ [] → columns L D →
  ∃ self, __init__ D = Ok self ∧
    ∀ i j ri rj, D !! i = Some ri → D !! j = Some rj → i ≠ j →
      cell (_S self) i j
      = Some (Z.of_nat (matches ri rj) - Z.of_nat (mismatches ri rj))%Z.
Proof.
  intros Hne Hcol.
  destruct (init_accepts D Hne (columns_accepted D L Hne Hcol)) as (S & HS & Hcell).
  eexists; split; [exact HS |]. simpl.
  intros i j ri rj Hi Hj Hij.
  rewrite Hcell, decide_True, decide_True; [|done |].
  - rewrite (list_lookup_total_correct _ _ _ Hi), (list_lookup_total_correct _ _ _ Hj).
    rewrite (columns_derived_m D L Hne Hcol).
    rewrite <- (Forall_lookup_1 _ _ _ _ Hcol Hi). by rewrite sim_value_full.
  - split; by eapply lookup_lt_Some.
Qed.

Lemma similarity_entry_counts_witness :
  ∃ self, __init__ scenario_A = Ok self ∧
    ∀ i j ri rj, scenario_A !! i = Some ri → scenario_A !! j = Some rj → i ≠ j →
      cell (_S self) i j
      = Some (Z.of_nat (matches ri rj) - Z.of_nat (mismatches ri rj))%Z.
Proof.
  apply (similarity_entry_counts scenario_A 2).
  - discriminate.
  - repeat constructor.
Defined.

(** C9. The similarity matrix the constructor builds is symmetric: the
    entries [S[i][j]] and [S[j][i]] of two distinct records are both there
    and equal. *)
Theorem similarity_symmetric (D : list (list string)) (self : RegnierProblem) (i j : nat) :
  __init__ D = Ok self → i < _n self → j < _n self → i ≠ j →
  ∃ v, cell (_S self) i j = Some v ∧ cell (_S self) j i = Some v.
Proof.
  intros Hinit. destruct (init_Ok_inv D self Hinit) as [Hne Hrows].
  destruct (init_accepts D Hne Hrows) as (S & HS & Hcell).
  rewrite Hinit in HS. injection HS as ->. simpl. intros Hi Hj Hij.
  exists (sim_value (derived_m D) (D !!! i) (D !!! j)).
  rewrite !Hcell, !decide_True by (done || lia).
  by rewrite (sim_value_sym _ (D !!! j)).
Qed.

Lemma similarity_symmetric_witness :
  ∃ v, cell [[-3; 2; -2]; [2; -3; -2]; [-2; -2; -3]]%Z 0 2 = Some v ∧
       cell [[-3; 2; -2]; [2; -3; -2]; [-2; -2; -3]]%Z 2 0 = Some v.
Proof.
  apply (similarity_symmetric scenario_A
           (mkRegnierProblem [[-3; 2; -2]; [2; -3; -2]; [-2; -2; -3]]%Z 3 2) 0 2).
  - vm_compute. reflexivity.
  - simpl. lia.
  - simpl. lia.
  - lia.
Defined.

(** C10. For a data matrix with [m] columns the constructor returns a
    matrix whose off-diagonal entries lie between [-m] and [m] and whose
    diagonal entries are the sentinel [-m-1]. *)
Theorem similarity_range (D : list (list string)) (m : nat) :
  D ≠ [] → columns m D →
  ∃ self, __init__ D = Ok self ∧ _n self = length D ∧ _m self = m ∧
    ∀ i j, i < length D → j < length D →
      (i ≠ j → ∃ v, cell (_S self) i j = Some v ∧ (- Z.of_nat m ≤ v ≤ Z.of_nat m)%Z) ∧
      cell (_S self) i i = Some (- Z.of_nat m - 1)%Z.
Proof.
  intros Hne Hcol.
  destruct (init_accepts D Hne (columns_accepted D m Hne Hcol)) as (S & HS & Hcell).
  rewrite (columns_derived_m D m Hne Hcol) in HS, Hcell.
  eexists; split; [exact HS |]. simpl. do 2 (split; [done |]).
  intros i j Hi Hj. split.
  - intros Hij. eexists. split.
    + by rewrite Hcell, decide_True, decide_True.
    + apply sim_value_bounds.
  - rewrite Hcell, decide_True, decide_False; [done | naive_solver | done].
Qed.

Lemma similarity_range_witness :
  ∃ self, __init__ scenario_A = Ok self ∧ _n self = 3 ∧ _m self = 2 ∧
    ∀ i j, i < 3 → j < 3 →
      (i ≠ j → ∃ v, cell (_S self) i j = Some v ∧ (- 2 ≤ v ≤ 2)%Z) ∧
      cell (_S self) i i = Some (- 2 - 1)%Z.
Proof.
  apply (similarity_range scenario_A 2).
  - discriminate.
  - repeat constructor.
Defined.

(** C8, as the code has it. The constructor does not compare the rows'
    lengths. It takes [m] to be the number of tokens of the whole file
    divided by the number of rows, rounded down. It raises (before any
    model exists) on an empty dataset and when some row has fewer than [m]
    tokens; every other dataset, ragged or not, is accepted, and the
    similarities are computed on the first [m] tokens of each row. *)
Theorem load_outcome (D : list (list string)) :
  match __init__ D with
  | Raise ZeroDivisionError => D = []
  | Raise IndexError => D ≠ [] ∧ Exists (λ r, length r < derived_m D) D
  | Raise TypeError => False
  | Ok self =>
      D ≠ [] ∧ Forall (λ r, derived_m D ≤ length r) D ∧
      _n self = length D ∧ _m self = derived_m D ∧
      ∀ i j, i < length D → j < length D → i ≠ j →
        cell (_S self) i j = Some (sim_value (derived_m D) (D !!! i) (D !!! j))
  end.
Proof.
  destruct (__init__ D) as [self|e] eqn:Hinit.
  - destruct (init_Ok_inv D self Hinit) as [Hne Hrows].
    destruct (init_accepts D Hne Hrows) as (S & HS & Hcell).
    rewrite Hinit in HS. injection HS as ->. simpl.
    do 4 (split; [done |]). intros i j Hi Hj Hij.
    by rewrite Hcell, decide_True, decide_True.
  - destruct (init_raises D e Hinit) as [[-> HD]|[-> HD]]; [done |].
    split; [done |].
    destruct (decide (Forall (λ r, derived_m D ≤ length r) D)) as [Hrows|Hrows].
    + destruct (init_accepts D HD Hrows) as (S & HS & _). congruence.
    + apply not_Forall_Exists in Hrows; [|apply _].
      eapply Exists_impl; [exact Hrows |]. simpl. lia.
Qed.

(** C8 fails as stated: the rows of this dataset have two and three
    tokens, and the constructor accepts it with [m = 7 // 3 = 2], the
    third token of the last row being ignored. *)
Lemma ragged_dataset_accepted :
  ragged scenario_A_ragged ∧
  __init__ scenario_A_ragged
  = Ok (mkRegnierProblem [[-3; 2; -2]; [2; -3; -2]; [-2; -2; -3]]%Z 3 2).
Proof.
  split.
  - intros L Hcol. unfold columns, scenario_A_ragged in Hcol.
    apply Forall_cons in Hcol as [H1 Hcol].
    apply Forall_cons in Hcol as [_ Hcol].
    apply Forall_cons in Hcol as [H3 _].
    simpl in H1, H3. lia.
  - vm_compute. reflexivity.
Qed.

(** The matrix of an object the constructor returned is [n × n]: the
    reads [S[i][j]] with [i, j < n] never leave it. *)
Lemma init_reads_in_range (D : list (list string)) (self : RegnierProblem) (i j : nat) :
  __init__ D = Ok self → i < _n self → j < _n self →
  cell (_S self) i j = Some (at2 (_S self) i j).
Proof.
  intros Hinit. destruct (init_Ok_inv D self Hinit) as [Hne Hrows].
  destruct (init_accepts D Hne Hrows) as (S & HS & Hcell).
  rewrite Hinit in HS. injection HS as ->. simpl. intros Hi Hj.
  pose proof (Hcell i j) as Hc. rewrite decide_True in Hc by done.
  rewrite Hc. f_equal. symmetry. by apply cell_total.
Qed.

(** ** The variables matrix *)

Lemma new_X_spec (n : nat) : new_X n = replicate n (replicate n 0).
Proof.
  unfold new_X, range at 1. rewrite Nat.sub_0_r.
  by rewrite (init_rows n 0 n 0 []).
Qed.

Lemma row_start_S (n i : nat) : row_start n (S i) = row_start n i + (n - 1 - i).
Proof. done. Qed.

Lemma row_start_mono (n a b : nat) : a ≤ b → row_start n a ≤ row_start n b.
Proof. induction 1; [done |]. rewrite row_start_S. lia. Qed.

Lemma var_index_bounds (n a b : nat) :
  a < b < n → row_start n a ≤ var_index n a b < row_start n (S a).
Proof. intros Hab. unfold var_index. rewrite row_start_S. lia. Qed.

(** Two pairs with the same variable index are the same pair. *)
Lemma var_index_inj (n a b a' b' : nat) :
  a < b < n → a' < b' < n →
  var_index n a b = var_index n a' b' → a = a' ∧ b = b'.
Proof.
  intros Hab Hab' Heq.
  pose proof (var_index_bounds n a b Hab) as H1.
  pose proof (var_index_bounds n a' b' Hab') as H2.
  assert (a = a') as <-.
  { destruct (decide (a < a')) as [Hlt|Hge].
    - pose proof (row_start_mono n (S a) a' Hlt). lia.
    - destruct (decide (a' < a)) as [Hlt'|Hge']; [|lia].
      pose proof (row_start_mono n (S a') a Hlt'). lia. }
  split; [done |]. unfold var_index in Heq. lia.
Qed.

Lemma var_index_lt (n a b : nat) : a < b < n → var_index n a b < row_start n n.
Proof.
  intros Hab. pose proof (var_index_bounds n a b Hab).
  pose proof (row_start_mono n (S a) n). lia.
Qed.

Section variables_loop.
Variable S : list (list Z).
Variable n : nat.
Variable ty : variable_type.

(** One row of variables. *)
Lemma add_variables_row (i : nat) (X0 : list (list nat)) (p0 : Cplex) :
  i < n → get_num p0 = row_start n i →
  let st := for_ (range (i + 1) n) (add_variable S ty i) (X0, p0) in
  get_num st.2 = row_start n (i + 1) ∧
  linear_constraints st.2 = linear_constraints p0 ∧
  ∀ a b, cell st.1 a b
         = if decide (a = i ∧ i < b < n)
           then (λ _, var_index n a b) <$> cell X0 a b else cell X0 a b.
Proof.
  intros Hi Hnum st. subst st.
  pose proof (for_range_inv
    (λ j st, get_num st.2 = row_start n i + (j - (i + 1)) ∧
             linear_constraints st.2 = linear_constraints p0 ∧
             ∀ a b, cell st.1 a b
                    = if decide (a = i ∧ i < b < j)
                      then (λ _, var_index n a b) <$> cell X0 a b
                      else cell X0 a b)
    (add_variable S ty i) (i + 1) n (X0, p0)) as Hloop.
  destruct Hloop as (Hn & Hc & HX).
  - lia.
  - cbn [fst snd]. split_and!; [lia | done |].
    intros a b. by rewrite decide_False by lia.
  - intros j [X p] Hj (Hn & Hc & HX). cbn [fst snd add_variable] in *.
    split_and!.
    + unfold get_num in *. simpl. rewrite length_app. simpl. lia.
    + done.
    + intros a b. rewrite cell_write, HX.
      repeat case_decide; try done; try (exfalso; lia).
      destruct_and!; subst. unfold var_index.
      destruct (cell X0 i j); simpl; [|done]. f_equal. lia.
  - split_and!; [|done|done].
    rewrite Hn. replace (i + 1) with (Datatypes.S i) by lia.
    rewrite row_start_S. lia.
Qed.

(** All the rows. *)
Lemma add_variables_rows (X0 : list (list nat)) (p0 : Cplex) :
  get_num p0 = 0 →
  let st := for_ (range 0 n)
              (λ i, for_ (range (i + 1) n) (add_variable S ty i)) (X0, p0) in
  get_num st.2 = row_start n n ∧
  linear_constraints st.2 = linear_constraints p0 ∧
  ∀ a b, cell st.1 a b
         = if decide (a < b < n)
           then (λ _, var_index n a b) <$> cell X0 a b else cell X0 a b.
Proof.
  intros Hnum st. subst st.
  pose proof (for_range_inv
    (λ i st, get_num st.2 = row_start n i ∧
             linear_constraints st.2 = linear_constraints p0 ∧
             ∀ a b, cell st.1 a b
                    = if decide (a < i ∧ a < b < n)
                      then (λ _, var_index n a b) <$> cell X0 a b
                      else cell X0 a b)
    (λ i, for_ (range (i + 1) n) (add_variable S ty i)) 0 n (X0, p0)) as Hloop.
  destruct Hloop as (Hn & Hc & HX).
  - lia.
  - cbn [fst snd]. split_and!; [done | done |].
    intros a b. by rewrite decide_False by lia.
  - intros i [X p] Hi (Hn & Hc & HX). cbn [fst snd] in *.
    destruct (add_variables_row i X p) as (Hn' & Hc' & HX'); [lia | done |].
    split_and!.
    + by replace (Datatypes.S i) with (i + 1) by lia.
    + congruence.
    + intros a b. rewrite HX', HX.
      repeat case_decide; try done; exfalso; lia.
  - split_and!; [done | done |].
    intros a b. rewrite HX.
    repeat case_decide; try done; exfalso; lia.
Qed.
End variables_loop.

(** The variables matrix every [run] method builds: the index of the
    pair's variable above the diagonal, the default 0 on and below it. *)
Lemma create_objective_spec (S : list (list Z)) (n : nat) (lp_problem : bool) :
  let st := create_objective S n lp_problem (new_X n, set_sense maximize new_Cplex) in
  get_num st.2 = row_start n n ∧
  linear_constraints st.2 = [] ∧
  ∀ a b, cell st.1 a b
         = if decide (a < n ∧ b < n)
           then Some (if decide (a < b) then var_index n a b else 0)
           else None.
Proof.
  intros st. subst st. unfold create_objective.
  assert (∀ ty,
    let st := for_ (range 0 n)
                (λ i, for_ (range (i + 1) n) (add_variable S ty i))
                (new_X n, set_sense maximize new_Cplex) in
    get_num st.2 = row_start n n ∧
    linear_constraints st.2 = [] ∧
    ∀ a b, cell st.1 a b
           = if decide (a < n ∧ b < n)
             then Some (if decide (a < b) then var_index n a b else 0)
             else None) as Hty.
  { intros ty st. subst st.
    destruct (add_variables_rows S n ty (new_X n) (set_sense maximize new_Cplex))
      as (Hn & Hc & HX); [done |].
    split_and!; [done | done |].
    intros a b. rewrite HX, new_X_spec, cell_replicate.
    repeat case_decide; try done; exfalso; lia. }
  destruct lp_problem; apply Hty.
Qed.

Lemma at2_cell {A : Type} `{Inhabited A} (M : list (list A)) (i j : nat) (v : A) :
  cell M i j = Some v → at2 M i j = v.
Proof. apply cell_total. Qed.

(** The variables matrix is [n × n]: the reads [X[i][j]] with [i, j < n]
    never leave it. *)
Lemma model_reads_in_range (S : list (list Z)) (n : nat) (lp_problem : bool) (i j : nat) :
  i < n → j < n →
  let X := (create_objective S n lp_problem (new_X n, set_sense maximize new_Cplex)).1 in
  cell X i j = Some (at2 X i j).
Proof.
  intros Hi Hj X. subst X.
  destruct (create_objective_spec S n lp_problem) as (_ & _ & HX).
  pose proof (HX i j) as Hc. rewrite decide_True in Hc by done.
  rewrite Hc. f_equal. symmetry. by apply at2_cell.
Qed.

(** ** The constraint loops *)

(** A loop whose body appends to one component of the state appends the
    concatenation of what the iterations append. *)
Lemma for_appends {St A : Type} (proj : St → list A) (body : nat → St → St)
    (f : nat → list A) (l : list nat) :
  (∀ i s, proj (body i s) = proj s ++ f i) →
  ∀ s, proj (for_ l body s) = proj s ++ (l ≫= f).
Proof.
  intros Hbody. induction l as [|i l IH]; intros s.
  - by rewrite app_nil_r.
  - rewrite for_cons, IH, Hbody, bind_cons, app_assoc. done.
Qed.

Lemma for_triples_appends (n : nat) (body : nat → nat → nat → Cplex → Cplex)
    (f : nat → nat → nat → list linear_constraint) :
  (∀ i j k p, linear_constraints (body i j k p) = linear_constraints p ++ f i j k) →
  ∀ p, linear_constraints (for_triples n body p)
       = linear_constraints p ++ over_triples n f.
Proof.
  intros Hbody p. unfold for_triples, over_triples.
  apply (for_appends linear_constraints). intros i s.
  apply (for_appends linear_constraints). intros j s'.
  apply (for_appends linear_constraints). intros k s''. apply Hbody.
Qed.

Lemma elem_of_over_triples {A : Type} (n : nat) (f : nat → nat → nat → list A) (c : A) :
  c ∈ over_triples n f ↔ ∃ i j k, i < j ∧ j < k ∧ k < n ∧ c ∈ f i j k.
Proof.
  unfold over_triples. rewrite list_elem_of_bind. split.
  - intros (i & Hc & Hi). apply list_elem_of_bind in Hc as (j & Hc & Hj).
    apply list_elem_of_bind in Hc as (k & Hc & Hk).
    apply elem_of_range in Hi, Hj, Hk. exists i, j, k. split_and!; [lia.. | done].
  - intros (i & j & k & Hij & Hjk & Hkn & Hc).
    exists i. split; [|apply elem_of_range; lia].
    apply list_elem_of_bind. exists j. split; [|apply elem_of_range; lia].
    apply list_elem_of_bind. exists k. split; [done |apply elem_of_range; lia].
Qed.

Lemma insert_constraints_RM_spec (X : list (list nat)) (n : nat) (p : Cplex) :
  linear_constraints (insert_constraints_RM X n p)
  = linear_constraints p ++ over_triples n (kept always always always X).
Proof.
  apply for_triples_appends. intros i j k q. simpl.
  by rewrite <- !app_assoc.
Qed.

Lemma insert_constraints_RMalpha_spec (S : list (list Z)) (cut : Z)
    (X : list (list nat)) (n : nat) (p : Cplex) :
  linear_constraints (insert_constraints_RMalpha S cut X n p)
  = linear_constraints p
    ++ over_triples n (kept (alpha1 S cut) (alpha2 S cut) (alpha3 S cut) X).
Proof.
  apply for_triples_appends. intros i j k q.
  unfold kept, alpha1, alpha2, alpha3, emit.
  repeat case_bool_decide; repeat case_decide; try done;
    simpl; rewrite <- ?app_assoc, ?app_nil_r; done.
Qed.

Lemma insert_constraints_RMbeta_spec (S : list (list Z)) (cut : Z)
    (X : list (list nat)) (n : nat) (p : Cplex) :
  linear_constraints (insert_constraints_RMbeta S cut X n p)
  = linear_constraints p
    ++ over_triples n (kept (beta1 S cut) (beta2 S cut) (beta3 S cut) X).
Proof.
  apply for_triples_appends. intros i j k q.
  unfold kept, beta1, beta2, beta3, emit.
  repeat case_bool_decide; repeat case_decide; try done;
    simpl; rewrite <- ?app_assoc, ?app_nil_r; done.
Qed.

Lemma insert_constraints_RMgamma_spec (S : list (list Z)) (cut : Z)
    (X : list (list nat)) (n : nat) (p : Cplex) :
  linear_constraints (insert_constraints_RMgamma S cut X n p)
  = linear_constraints p
    ++ over_triples n (kept (gamma1 S cut) (gamma2 S cut) (gamma3 S cut) X).
Proof.
  apply for_triples_appends. intros i j k q.
  unfold kept, gamma1, gamma2, gamma3, emit.
  repeat case_bool_decide; repeat case_decide; try done;
    simpl; rewrite <- ?app_assoc, ?app_nil_r; done.
Qed.

(** The model of a variant: the variables matrix indexes the pairs, and
    the constraints are those its loop kept. *)
Lemma model_with_spec (ins : list (list nat) → nat → Cplex → Cplex)
    (c1 c2 c3 : nat → nat → nat → bool) (self : RegnierProblem) (lp_problem : bool) :
  (∀ X n p, linear_constraints (ins X n p)
            = linear_constraints p ++ over_triples n (kept c1 c2 c3 X)) →
  indexes_pairs (_n self) (model_with ins self lp_problem).1 ∧
  linear_constraints (model_with ins self lp_problem).2
  = over_triples (_n self) (kept c1 c2 c3 (model_with ins self lp_problem).1) ∧
  (model_with ins self lp_problem).1 = (model_with insert_constraints_RM self lp_problem).1.
Proof.
  intros Hins. unfold model_with.
  destruct (create_objective_spec (_S self) (_n self) lp_problem) as (_ & Hc & HX).
  destruct (create_objective _ _ _ _) as [X p]. cbn [fst snd] in *.
  split_and!; [|by rewrite Hins, Hc | done].
  intros a b Hab. apply at2_cell. rewrite HX, decide_True, decide_True by lia. done.
Qed.

(** ** Which constraints a model holds *)

Section kept_constraints.
Variable n : nat.
Variable X : list (list nat).
Hypothesis HX : indexes_pairs n X.

(** A triangle constraint names its triple and its coefficients. *)
Lemma triangle_inj (i j k i' j' k' : nat) (a b c a' b' c' : Z) :
  i < j → j < k → k < n → i' < j' → j' < k' → k' < n →
  triangle X i j k a b c = triangle X i' j' k' a' b' c' →
  (i = i' ∧ j = j' ∧ k = k') ∧ (a = a' ∧ b = b' ∧ c = c').
Proof using HX.
  intros Hij Hjk Hk Hij' Hjk' Hk'. unfold triangle. intros [= H1 H2 H3 -> -> ->].
  rewrite !HX in H1, H2, H3 by lia.
  apply var_index_inj in H1 as [-> ->]; [|lia..].
  apply var_index_inj in H3 as [_ ->]; [|lia..]. done.
Qed.

Variables c1 c2 c3 : nat → nat → nat → bool.

Lemma elem_of_kept (c : linear_constraint) (i j k : nat) :
  c ∈ kept c1 c2 c3 X i j k ↔
  (c = tri1 X i j k ∧ c1 i j k = true) ∨
  (c = tri2 X i j k ∧ c2 i j k = true) ∨
  (c = tri3 X i j k ∧ c3 i j k = true).
Proof.
  unfold kept, emit. rewrite !elem_of_app.
  destruct (c1 i j k), (c2 i j k), (c3 i j k);
    rewrite ?list_elem_of_singleton, ?elem_of_nil; naive_solver.
Qed.

(** Nothing but triangle constraints of triples [i < j < k < n] that
    pass their test. *)
Lemma kept_only (c : linear_constraint) :
  c ∈ over_triples n (kept c1 c2 c3 X) →
  ∃ i j k, i < j ∧ j < k ∧ k < n ∧
    ((c = tri1 X i j k ∧ c1 i j k = true) ∨
     (c = tri2 X i j k ∧ c2 i j k = true) ∨
     (c = tri3 X i j k ∧ c3 i j k = true)).
Proof.
  rewrite elem_of_over_triples. intros (i & j & k & Hij & Hjk & Hk & Hc).
  exists i, j, k. by rewrite <- elem_of_kept.
Qed.

Lemma tri1_kept (i j k : nat) :
  i < j → j < k → k < n →
  tri1 X i j k ∈ over_triples n (kept c1 c2 c3 X) ↔ c1 i j k = true.
Proof using HX.
  intros Hij Hjk Hk. split.
  - intros Hin. apply kept_only in Hin
      as (i' & j' & k' & Hij' & Hjk' & Hk' & [[Heq Hc]|[[Heq Hc]|[Heq Hc]]]);
      apply triangle_inj in Heq as [(-> & -> & ->) (? & ? & ?)]; done.
  - intros Hc. apply elem_of_over_triples. exists i, j, k.
    split_and!; [done.. |]. apply elem_of_kept. auto.
Qed.

Lemma tri2_kept (i j k : nat) :
  i < j → j < k → k < n →
  tri2 X i j k ∈ over_triples n (kept c1 c2 c3 X) ↔ c2 i j k = true.
Proof using HX.
  intros Hij Hjk Hk. split.
  - intros Hin. apply kept_only in Hin
      as (i' & j' & k' & Hij' & Hjk' & Hk' & [[Heq Hc]|[[Heq Hc]|[Heq Hc]]]);
      apply triangle_inj in Heq as [(-> & -> & ->) (? & ? & ?)]; done.
  - intros Hc. apply elem_of_over_triples. exists i, j, k.
    split_and!; [done.. |]. apply elem_of_kept. auto.
Qed.

Lemma tri3_kept (i j k : nat) :
  i < j → j < k → k < n →
  tri3 X i j k ∈ over_triples n (kept c1 c2 c3 X) ↔ c3 i j k = true.
Proof using HX.
  intros Hij Hjk Hk. split.
  - intros Hin. apply kept_only in Hin
      as (i' & j' & k' & Hij' & Hjk' & Hk' & [[Heq Hc]|[[Heq Hc]|[Heq Hc]]]);
      apply triangle_inj in Heq as [(-> & -> & ->) (? & ? & ?)]; done.
  - intros Hc. apply elem_of_over_triples. exists i, j, k.
    split_and!; [done.. |]. apply elem_of_kept. auto.
Qed.

(** Whatever the tests, the kept constraints are among those of the
    base model. *)
Lemma kept_subset (c : linear_constraint) :
  c ∈ over_triples n (kept c1 c2 c3 X) →
  c ∈ over_triples n (kept always always always X).
Proof.
  rewrite !elem_of_over_triples. intros (i & j & k & Hij & Hjk & Hk & Hc).
  exists i, j, k. split_and!; [done.. |].
  apply elem_of_kept in Hc. unfold kept, always, emit.
  rewrite !elem_of_app, !list_elem_of_singleton. naive_solver.
Qed.
End kept_constraints.

(** *** Counting the triples *)

Lemma choose_0 (n : nat) : choose n 0 = 1.
Proof. by destruct n. Qed.

(** The hockey-stick identity along a loop: if iteration [x] of a loop
    over [lo .. n-1] yields [m * choose (n - 1 - x) k] items, the loop
    yields [m * choose (n - lo) (k + 1)]. *)
Lemma length_bind_seq {A : Type} (m k : nat) (f : nat → list A) (len : nat) :
  ∀ lo,
    (∀ x, lo ≤ x < lo + len → length (f x) = m * choose (lo + len - 1 - x) k) →
    length (seq lo len ≫= f) = m * choose len (S k).
Proof.
  induction len as [|len IH]; intros lo Hf.
  - simpl. lia.
  - change (seq lo (S len)) with (lo :: seq (S lo) len).
    rewrite bind_cons, length_app. rewrite Hf by lia. rewrite (IH (S lo)).
    + replace (lo + S len - 1 - lo) with len by lia.
      change (choose (S len) (S k)) with (choose len k + choose len (S k)). lia.
    + intros x Hx. rewrite Hf by lia.
      by replace (S lo + len - 1 - x) with (lo + S len - 1 - x) by lia.
Qed.

Lemma length_bind_range {A : Type} (m k : nat) (f : nat → list A) (lo n : nat) :
  lo ≤ n →
  (∀ x, lo ≤ x < n → length (f x) = m * choose (n - 1 - x) k) →
  length (range lo n ≫= f) = m * choose (n - lo) (S k).
Proof.
  intros Hlo Hf. unfold range. apply length_bind_seq.
  intros x Hx. rewrite Hf by lia.
  by replace (lo + (n - lo) - 1 - x) with (n - 1 - x) by lia.
Qed.

(** The triples [i < j < k < n] are [choose n 3] many. *)
Lemma length_over_triples {A : Type} (n m : nat) (f : nat → nat → nat → list A) :
  (∀ i j k, length (f i j k) = m) →
  length (over_triples n f) = m * choose n 3.
Proof.
  intros Hf. unfold over_triples.
  rewrite (length_bind_range m 2 _ 0 n).
  - by rewrite Nat.sub_0_r.
  - lia.
  - intros i Hi. rewrite (length_bind_range m 1 _ (i + 1) n).
    + by replace (n - (i + 1)) with (n - 1 - i) by lia.
    + lia.
    + intros j Hj. rewrite (length_bind_range m 0 _ (j + 1) n).
      * by replace (n - (j + 1)) with (n - 1 - j) by lia.
      * lia.
      * intros k Hk. rewrite Hf, choose_0. lia.
Qed.

Lemma choose_1 (n : nat) : choose n 1 = n.
Proof.
  induction n as [|n IH]; [done |].
  change (choose (S n) 1) with (choose n 0 + choose n 1).
  rewrite choose_0, IH. done.
Qed.

Lemma choose_2 (n : nat) : 2 * choose n 2 = n * (n - 1).
Proof.
  induction n as [|n IH]; [done |].
  change (choose (S n) 2) with (choose n 1 + choose n 2).
  rewrite choose_1. destruct n; simpl in *; lia.
Qed.

(** [choose n 3] is [n (n-1) (n-2) / 6]. *)
Lemma choose_3 (n : nat) : 6 * choose n 3 = n * (n - 1) * (n - 2).
Proof.
  induction n as [|n IH]; [done |].
  change (choose (S n) 3) with (choose n 2 + choose n 3).
  pose proof (choose_2 n) as H2.
  destruct n as [|[|n]]; [done | done |].
  replace (S (S n) - 1) with (S n) in * by lia.
  replace (S (S n) - 2) with n in * by lia.
  replace (S (S (S n)) - 1) with (S (S n)) by lia.
  replace (S (S (S n)) - 2) with (S n) by lia.
  nia.
Qed.

(** *** The models of the [run] methods *)

Section run_models.
Variable solve : Cplex → option (Q * list Q).
Variable self : RegnierProblem.
Variable lp_problem : bool.

(** Each [run] method solves the model of its variant and decodes the
    values with that model's variables matrix. *)
Lemma runRM_model :
  runRM solve self lp_problem
  = solve_and_decode solve (model_RM self lp_problem).1
      (model_RM self lp_problem).2 (_n self) None.
Proof.
  unfold runRM, model_RM, model_with. by destruct (create_objective _ _ _ _).
Qed.

Lemma runRMalpha_model (cut : Z) :
  runRMalpha solve self cut lp_problem
  = solve_and_decode solve (model_RMalpha self cut lp_problem).1
      (model_RMalpha self cut lp_problem).2 (_n self) None.
Proof.
  unfold runRMalpha, model_RMalpha, model_with. by destruct (create_objective _ _ _ _).
Qed.

Lemma runRMbeta_model (cut : Z) :
  runRMbeta solve self cut lp_problem
  = solve_and_decode solve (model_RMbeta self cut lp_problem).1
      (model_RMbeta self cut lp_problem).2 (_n self) None.
Proof.
  unfold runRMbeta, model_RMbeta, model_with. by destruct (create_objective _ _ _ _).
Qed.

Lemma runRMgamma_model :
  runRMgamma solve self lp_problem
  = solve_and_decode solve (model_RMgamma self lp_problem).1
      (model_RMgamma self lp_problem).2 (_n self) (Some (__findNegativeCut self)).
Proof.
  unfold runRMgamma, model_RMgamma, model_with. by destruct (create_objective _ _ _ _).
Qed.
End run_models.

(** ** The connectivity-cut heuristics *)

Lemma elem_of_set_add (w w' : Z) (s : list Z) :
  w' ∈ set_add w s ↔ w' = w ∨ w' ∈ s.
Proof.
  unfold set_add. case_decide as Hin.
  - naive_solver.
  - rewrite elem_of_app, list_elem_of_singleton. naive_solver.
Qed.

Lemma elem_of_sorted (w : Z) (s : list Z) : w ∈ sorted s ↔ w ∈ s.
Proof. unfold sorted. by rewrite merge_sort_Permutation. Qed.

(** The first of the sorted weights is the smallest. *)
Lemma sorted_head_least (s : list Z) (w0 : Z) (rest : list Z) :
  sorted s = w0 :: rest → ∀ w, w ∈ s → (w0 ≤ w)%Z.
Proof.
  intros Hs w Hw. apply elem_of_sorted in Hw. rewrite Hs in Hw.
  assert (StronglySorted Z.le (w0 :: rest)) as Hsorted.
  { rewrite <- Hs. apply StronglySorted_merge_sort; apply _. }
  apply elem_of_cons in Hw as [-> | Hw]; [done |].
  apply StronglySorted_inv in Hsorted as [_ Hall].
  by apply (proj1 (Forall_forall _ _) Hall).
Qed.

Lemma sorted_nil (s : list Z) : sorted s = [] ↔ s = [].
Proof.
  split; [|by intros ->].
  intros Hs. destruct s as [|w s]; [done |].
  assert (w ∈ sorted (w :: s)) as Hw by (apply elem_of_sorted; left).
  rewrite Hs in Hw. by apply elem_of_nil in Hw.
Qed.

Lemma filter_all {A : Type} (P : A → Prop) `{∀ x, Decision (P x)} (l : list A) :
  Forall P l → filter P l = l.
Proof.
  induction 1 as [|x l Hx _ IH]; [done |].
  by rewrite filter_cons, decide_True, IH.
Qed.

(** The loop over the cuts returns the starting value or one of the
    cuts. *)
Lemma test_cuts_in (cuts : list Z) :
  ∀ g best, test_cuts cuts g best = best ∨ test_cuts cuts g best ∈ cuts.
Proof.
  induction cuts as [|w cuts IH]; intros g best; simpl; [by left |].
  destruct (is_connected _); [|by left].
  right. destruct (IH (delete_edges_weight_lt w g) w) as [-> | Hin].
  - left.
  - by right.
Qed.

(** It returns the starting value when there is no cut or the first cut
    disconnects the graph, and one of the cuts otherwise. *)
Lemma test_cuts_first (cuts : list Z) (g : Graph) (best : Z) :
  match cuts with
  | [] => test_cuts cuts g best = best
  | w0 :: _ =>
      if is_connected (delete_edges_weight_lt w0 g)
      then test_cuts cuts g best ∈ cuts
      else test_cuts cuts g best = best
  end.
Proof.
  destruct cuts as [|w0 cuts]; simpl; [done |].
  destruct (is_connected _); [|done].
  destruct (test_cuts_in cuts (delete_edges_weight_lt w0 g) w0) as [-> | Hin].
  - left.
  - by right.
Qed.

Section graph_construction.
Variable keep : Z → Prop.
Context `{∀ w, Decision (keep w)}.
Variable S : list (list Z).
Variable n : nat.

Lemma signed_graph_inv : graph_inv keep S n n 0 (signed_graph keep S n).
Proof.
  unfold signed_graph.
  apply (for_range_inv (λ i st, graph_inv keep S n i 0 st)); [lia | |].
  - unfold graph_inv. simpl. split_and!; [done | | |].
    + intros e He. by apply elem_of_nil in He.
    + intros w Hw. by apply elem_of_nil in Hw.
    + intros a b Hab. lia.
  - intros i st Hi Hst.
    assert (graph_inv keep S n i n
      (for_ (range (i + 1) n)
         (λ j '(g, u),
            if decide (keep (at2 S i j)) then
              (add_edge i j (at2 S i j) g, set_add (at2 S i j) u)
            else (g, u)) st)) as (Hv & He & Hu & Hseen).
    { apply (for_range_inv (λ j st, graph_inv keep S n i j st)); [lia | |].
      - destruct Hst as (Hv & He & Hu & Hseen). split_and!; [done.. |].
        intros a b Hab Hlt Hb Hk. apply Hseen; [lia | done..].
      - intros j [g u] Hj (Hv & He & Hu & Hseen). cbn [fst snd] in *.
        case_decide as Hkeep; unfold graph_inv; cbn [fst snd add_edge vcount es].
        + split_and!; [done | | |].
          * intros e Hin. rewrite elem_of_set_add.
            apply elem_of_app in Hin as [Hin | Hin].
            -- destruct (He e Hin) as (? & ? & ?). auto.
            -- apply list_elem_of_singleton in Hin as ->. simpl.
               split_and!; [by left | lia | lia].
          * intros w Hw. apply elem_of_set_add in Hw as [-> | Hw]; [|by apply Hu].
            split; [done |]. exists i, j. split_and!; [lia | lia | done].
          * intros a b Hab Hlt Hb Hk. apply elem_of_set_add.
            destruct (decide (a = i ∧ b = j)) as [[-> ->] | Hne]; [by left |].
            right. apply Hseen; [lia | done..].
        + split_and!; [done.. |].
          intros a b Hab Hlt Hb Hk.
          destruct (decide (a = i ∧ b = j)) as [[-> ->] | Hne]; [done |].
          apply Hseen; [lia | done..]. }
    split_and!; [done.. |].
    intros a b Hab Hlt Hb Hk. apply Hseen; [lia | done..].
Qed.

(** The set holds exactly the weights [S[a][b]], [a < b < n], that pass
    the test, and every edge of the graph has its weight in the set. *)
Lemma signed_graph_weights (w : Z) :
  w ∈ (signed_graph keep S n).2 ↔
  keep w ∧ ∃ a b, a < b ∧ b < n ∧ at2 S a b = w.
Proof.
  destruct signed_graph_inv as (_ & _ & Hu & Hseen). split; [apply Hu |].
  intros (Hk & a & b & Hab & Hb & <-). apply Hseen; [lia | done..].
Qed.

Lemma signed_graph_edges (e : nat * nat * Z) :
  e ∈ es (signed_graph keep S n).1 →
  e.2 ∈ (signed_graph keep S n).2 ∧ e.1.1 < e.1.2 ∧ e.1.2 < n.
Proof. destruct signed_graph_inv as (_ & He & _). apply He. Qed.

Lemma signed_graph_well_formed : well_formed (signed_graph keep S n).1.
Proof.
  destruct signed_graph_inv as (Hv & He & _). intros e Hin.
  destruct (He e Hin) as (_ & ? & ?). lia.
Qed.

(** Deleting the edges lighter than the smallest weight deletes
    nothing. *)
Lemma first_cut_deletes_nothing (w0 : Z) (rest : list Z) :
  sorted (signed_graph keep S n).2 = w0 :: rest →
  delete_edges_weight_lt w0 (signed_graph keep S n).1 = (signed_graph keep S n).1.
Proof.
  intros Hs. unfold delete_edges_weight_lt.
  destruct signed_graph_inv as (Hv & He & _).
  rewrite filter_all; [by destruct (signed_graph keep S n).1 |].
  apply Forall_forall. intros e Hin.
  destruct (He e Hin) as (Hw & _).
  pose proof (sorted_head_least _ _ _ Hs _ Hw). lia.
Qed.

(** The cut the search returns on the constructed graph. *)
Lemma signed_cut :
  let G := (signed_graph keep S n).1 in
  let W := (signed_graph keep S n).2 in
  let c := test_cuts (sorted W) G 0%Z in
  (c ∈ W ∧ is_connected G = true) ∨
  (c = 0%Z ∧ (W = [] ∨ is_connected G = false)).
Proof.
  intros G W c. subst c.
  pose proof (test_cuts_first (sorted W) G 0%Z) as Hfirst.
  destruct (sorted W) as [|w0 rest] eqn:Hs.
  - right. split; [done |]. left. by apply sorted_nil.
  - subst G W. rewrite (first_cut_deletes_nothing w0 rest Hs) in Hfirst.
    destruct (is_connected _).
    + left. split; [|done]. apply elem_of_sorted. by rewrite Hs.
    + right. split; [done |]. by right.
Qed.
End graph_construction.

Lemma positive_graph_signed (S : list (list Z)) (n : nat) :
  positive_graph S n = signed_graph (λ w, w >= 0)%Z S n.
Proof. done. Qed.

Lemma negative_graph_signed (S : list (list Z)) (n : nat) :
  negative_graph S n = signed_graph (λ w, w <= 0)%Z S n.
Proof. done. Qed.

Lemma findPositiveCut_cut (self : RegnierProblem) :
  cut (__findPositiveCut self)
  = test_cuts (sorted (positive_graph (_S self) (_n self)).2)
      (positive_graph (_S self) (_n self)).1 0%Z.
Proof. unfold __findPositiveCut. by destruct (positive_graph _ _). Qed.

Lemma findNegativeCut_cut (self : RegnierProblem) :
  cut (__findNegativeCut self)
  = test_cuts (sorted (negative_graph (_S self) (_n self)).2)
      (negative_graph (_S self) (_n self)).1 0%Z.
Proof. unfold __findNegativeCut. by destruct (negative_graph _ _). Qed.

(** ** Connectivity *)

Lemma elem_of_neighbours (g : Graph) (a b : nat) :
  b ∈ neighbours g a ↔ adjacent g a b.
Proof.
  unfold neighbours, adjacent. rewrite list_elem_of_bind. split.
  - intros ([[a' b'] w] & Hin & He).
    destruct (decide (a' = a)) as [->|Ha].
    + apply list_elem_of_singleton in Hin as ->. eauto.
    + destruct (decide (b' = a)) as [->|Hb].
      * apply list_elem_of_singleton in Hin as ->. eauto.
      * by apply elem_of_nil in Hin.
  - intros (w & [He | He]).
    + exists (a, b, w). split; [|done]. rewrite decide_True by done. left.
    + exists (b, a, w). split; [|done].
      destruct (decide (b = a)) as [->|Hne]; [left |].
      rewrite decide_True by done. left.
Qed.

Lemma elem_of_expand (g : Graph) (seen : list nat) (v : nat) :
  v ∈ expand g seen ↔ v ∈ seen ∨ ∃ s, s ∈ seen ∧ adjacent g s v.
Proof.
  unfold expand. rewrite elem_of_remove_dups, elem_of_app, list_elem_of_bind.
  setoid_rewrite elem_of_neighbours. naive_solver.
Qed.

(** What [reach] returns is reached from [seen]. *)
Lemma reach_sound (g : Graph) (rounds : nat) :
  ∀ seen v, v ∈ reach g rounds seen → ∃ s, s ∈ seen ∧ rtc (adjacent g) s v.
Proof.
  induction rounds as [|k IH]; intros seen v Hv; simpl in Hv.
  - exists v. split; [done | apply rtc_refl].
  - apply IH in Hv as (s & Hs & Hpath).
    apply elem_of_expand in Hs as [Hs | (s0 & Hs0 & Hadj)].
    + eauto.
    + exists s0. split; [done |]. by eapply rtc_l.
Qed.

Lemma reach_includes (g : Graph) (rounds : nat) :
  ∀ seen v, v ∈ seen → v ∈ reach g rounds seen.
Proof.
  induction rounds as [|k IH]; intros seen v Hv; simpl; [done |].
  apply IH, elem_of_expand. by left.
Qed.

Lemma reach_NoDup (g : Graph) (rounds : nat) :
  ∀ seen, NoDup seen → NoDup (reach g rounds seen).
Proof.
  induction rounds as [|k IH]; intros seen Hnd; simpl; [done |].
  apply IH, NoDup_remove_dups.
Qed.

Lemma adjacent_bounded (g : Graph) (a b : nat) :
  well_formed g → adjacent g a b → b < vcount g.
Proof.
  intros Hwf (w & [He | He]); apply Hwf in He; cbn [fst snd] in He; lia.
Qed.

Lemma reach_bounded (g : Graph) (rounds : nat) :
  well_formed g →
  ∀ seen, (∀ s, s ∈ seen → s < vcount g) →
  ∀ v, v ∈ reach g rounds seen → v < vcount g.
Proof.
  intros Hwf. induction rounds as [|k IH]; intros seen Hseen v Hv; simpl in Hv.
  - by apply Hseen.
  - eapply IH; [|exact Hv]. intros s Hs.
    apply elem_of_expand in Hs as [Hs | (s0 & _ & Hadj)]; [by apply Hseen |].
    by eapply adjacent_bounded.
Qed.

(** A set that a step does not enlarge holds everything reached from
    it. *)
Lemma closed_holds_reached (g : Graph) (seen : list nat) :
  (∀ v, v ∈ expand g seen → v ∈ seen) →
  ∀ s v, rtc (adjacent g) s v → s ∈ seen → v ∈ seen.
Proof.
  intros Hclosed s v Hpath. induction Hpath as [|s s' v Hadj _ IH]; [done |].
  intros Hs. apply IH, Hclosed, elem_of_expand. eauto.
Qed.

Lemma longer_when_more {A : Type} (l k : list A) :
  NoDup l → (∀ x, x ∈ l → x ∈ k) → ¬ (∀ x, x ∈ k → x ∈ l) → length l < length k.
Proof.
  intros Hnd Hsub Hnot.
  pose proof (NoDup_submseteq l k Hnd Hsub) as Hms.
  destruct (decide (length k ≤ length l)) as [Hle|Hgt]; [|lia].
  exfalso. apply Hnot. intros x Hx.
  by rewrite (submseteq_length_Permutation l k Hms Hle).
Qed.

(** After [rounds] steps either everything reached from [seen] has been
    found, or each step has found a new vertex. *)
Lemma reach_complete_or_grows (g : Graph) (rounds : nat) :
  ∀ seen, NoDup seen →
    (∀ s v, s ∈ seen → rtc (adjacent g) s v → v ∈ reach g rounds seen) ∨
    length seen + rounds ≤ length (reach g rounds seen).
Proof.
  induction rounds as [|k IH]; intros seen Hnd; simpl.
  - right. lia.
  - destruct (decide (Forall (λ v, v ∈ seen) (expand g seen))) as [Hclosed|Hopen].
    + left. intros s v Hs Hpath. apply reach_includes, elem_of_expand. left.
      eapply closed_holds_reached; [|exact Hpath | exact Hs].
      by apply Forall_forall.
    + assert (length seen < length (expand g seen)) as Hlonger.
      { apply longer_when_more; [done | |].
        - intros v Hv. apply elem_of_expand. by left.
        - intros Hall. apply Hopen. by apply Forall_forall. }
      destruct (IH (expand g seen)) as [Hall | Hlen]; [apply NoDup_remove_dups | |].
      * left. intros s v Hs Hpath. apply (Hall s); [|done].
        apply elem_of_expand. by left.
      * right. lia.
Qed.

(** [is_connected] decides whether every vertex is joined to vertex 0 by a
    path of edges. *)
Lemma is_connected_spec (g : Graph) :
  well_formed g →
  is_connected g = true ↔
  0 < vcount g ∧ ∀ v, v < vcount g → rtc (adjacent g) 0 v.
Proof.
  intros Hwf. unfold is_connected.
  destruct (vcount g) as [|n] eqn:Hn; [split; [done | lia] |].
  rewrite bool_decide_eq_true, Forall_forall. split.
  - intros Hall. split; [lia |]. intros v Hv.
    destruct (reach_sound g (S n) [0] v) as (s & Hs & Hpath).
    { apply Hall, elem_of_seq. lia. }
    by apply list_elem_of_singleton in Hs as ->.
  - intros [_ Hall] v Hv. apply elem_of_seq in Hv.
    destruct (reach_complete_or_grows g (S n) [0]) as [Hfound | Hgrows].
    { apply NoDup_singleton. }
    + apply (Hfound 0); [left | apply Hall; lia].
    + exfalso.
      assert (length (reach g (S n) [0]) ≤ length (seq 0 (S n))) as Hle.
      { apply submseteq_length, NoDup_submseteq.
        - apply reach_NoDup, NoDup_singleton.
        - intros u Hu. apply elem_of_seq.
          pose proof (reach_bounded g (S n) Hwf [0]) as Hb.
          rewrite Hn in Hb. apply Hb in Hu; [lia |].
          intros s Hs. apply list_elem_of_singleton in Hs. lia. }
      rewrite length_seq in Hle. change (length [0]) with 1 in Hgrows. lia.
Qed.

(** The graphs of the two heuristics are well formed, so the test the
    search applies to them is connectivity. *)
Lemma heuristic_graph_connected (keep : Z → Prop) `{∀ w, Decision (keep w)}
    (S : list (list Z)) (n : nat) :
  let G := (signed_graph keep S n).1 in
  is_connected G = true ↔ 0 < n ∧ ∀ v, v < n → rtc (adjacent G) 0 v.
Proof.
  intros G. subst G.
  rewrite is_connected_spec by apply signed_graph_well_formed.
  by destruct (signed_graph_inv keep S n) as (-> & _).
Qed.

(** *** The claim about the cuts *)

(** C4, as the code has it. The cut of the positive heuristic is never
    negative. For each heuristic, the weights it collects are the values
    [S[a][b]], [a < b], of its sign; when it collected some weight and its
    graph is connected, the cut it returns is one of the collected
    weights; when it collected none, or its graph is not connected (the
    smallest weight then already fails the test), it returns the initial
    value 0, whether or not 0 is a collected weight. A graph is connected
    when it has a vertex and every vertex is joined to vertex 0 by a path
    of its edges. *)
Theorem heuristic_cuts (self : RegnierProblem) :
  let Gp := (positive_graph (_S self) (_n self)).1 in
  let Wp := (positive_graph (_S self) (_n self)).2 in
  let Gn := (negative_graph (_S self) (_n self)).1 in
  let Wn := (negative_graph (_S self) (_n self)).2 in
  let cp := cut (__findPositiveCut self) in
  let cn := cut (__findNegativeCut self) in
  (0 ≤ cp)%Z ∧
  ((cp ∈ Wp ∧ is_connected Gp = true) ∨
   (cp = 0%Z ∧ (Wp = [] ∨ is_connected Gp = false))) ∧
  ((cn ∈ Wn ∧ is_connected Gn = true) ∨
   (cn = 0%Z ∧ (Wn = [] ∨ is_connected Gn = false))) ∧
  (∀ w, w ∈ Wp ↔ (w >= 0)%Z ∧ ∃ a b, a < b ∧ b < _n self ∧ at2 (_S self) a b = w) ∧
  (∀ w, w ∈ Wn ↔ (w <= 0)%Z ∧ ∃ a b, a < b ∧ b < _n self ∧ at2 (_S self) a b = w) ∧
  (is_connected Gp = true ↔ 0 < _n self ∧ ∀ v, v < _n self → rtc (adjacent Gp) 0 v) ∧
  (is_connected Gn = true ↔ 0 < _n self ∧ ∀ v, v < _n self → rtc (adjacent Gn) 0 v).
Proof.
  cbv zeta. rewrite findPositiveCut_cut, findNegativeCut_cut.
  rewrite positive_graph_signed, negative_graph_signed.
  pose proof (signed_cut (λ w, w >= 0)%Z (_S self) (_n self)) as Hp.
  pose proof (signed_cut (λ w, w <= 0)%Z (_S self) (_n self)) as Hn.
  cbv zeta in Hp, Hn.
  split_and!.
  - destruct Hp as [[Hin _] | [-> _]]; [|done].
    apply signed_graph_weights in Hin as [Hge _]. lia.
  - done.
  - done.
  - apply signed_graph_weights.
  - apply signed_graph_weights.
  - apply heuristic_graph_connected.
  - apply heuristic_graph_connected.
Qed.

(** C4 fails as stated. In scenario A the only weight the positive
    heuristic collects is 2, on the edge between records 0 and 1; record 2
    has no edge, the graph is not connected, and the cut returned is the
    initial 0, which is not a collected weight although the set is not
    empty. *)
Lemma positive_cut_outside_weights :
  __init__ scenario_A = Ok scenario_A_self ∧
  (positive_graph (_S scenario_A_self) (_n scenario_A_self)).2 = [2%Z] ∧
  cut (__findPositiveCut scenario_A_self) = 0%Z ∧
  ¬ (cut (__findPositiveCut scenario_A_self)
       ∈ (positive_graph (_S scenario_A_self) (_n scenario_A_self)).2
     ∨ ((positive_graph (_S scenario_A_self) (_n scenario_A_self)).2 = []
        ∧ cut (__findPositiveCut scenario_A_self) = 0%Z)).
Proof.
  assert ((positive_graph (_S scenario_A_self) (_n scenario_A_self)).2 = [2%Z]) as HW
    by (vm_compute; reflexivity).
  assert (cut (__findPositiveCut scenario_A_self) = 0%Z) as Hc
    by (vm_compute; reflexivity).
  split_and!; [vm_compute; reflexivity | done | done |].
  rewrite HW, Hc. intros [Hin | [Hnil _]]; [|done].
  apply list_elem_of_singleton in Hin. done.
Qed.

(** ** Decoding *)

Lemma scenario_A_object : __init__ scenario_A = Ok scenario_A_self.
Proof. vm_compute. reflexivity. Qed.

Lemma scenario_A_matrix : (model_RM scenario_A_self false).1 = scenario_A_X.
Proof. vm_compute. reflexivity. Qed.

Lemma scenario_A_feasible :
  feasible scenario_A_x (model_RM scenario_A_self false).2 = true.
Proof. vm_compute. reflexivity. Qed.

Lemma scenario_B_object : __init__ scenario_B = Ok scenario_B_self.
Proof. vm_compute. reflexivity. Qed.

Lemma scenario_B_matrix : (model_RM scenario_B_self true).1 = scenario_B_X.
Proof. vm_compute. reflexivity. Qed.

Lemma scenario_B_feasible :
  feasible scenario_B_x (model_RM scenario_B_self true).2 = true.
Proof. vm_compute. reflexivity. Qed.

Lemma insert_unchanged (groups : list Z) (j : nat) (g : Z) :
  j < length groups → (<[j := g]> groups = groups ↔ g = groups !!! j).
Proof.
  intros Hj. split.
  - intros Heq. apply (f_equal (λ l, l !!! j)) in Heq.
    by rewrite list_lookup_total_insert_eq in Heq.
  - intros ->. apply list_insert_id. by apply list_lookup_lookup_total_lt.
Qed.

(** C1, as the code has it. When the value of a pair is positive and both
    its records already have a group id, the group id of the first record
    is written over that of the second and no new id is used; the groups
    are left as they were exactly when the two ids were the same. *)
Theorem assigned_pair_overwrites (X : list (list nat)) (x : list Q) (i j : nat)
    (groups : list Z) (groupID : Z) (v : Q) :
  x !! at2 X i j = Some v → (0 < v)%Q → j < length groups →
  groups !!! i ≠ (-1)%Z → groups !!! j ≠ (-1)%Z →
  visit_cell X x i j (groups, groupID)
  = Ok (<[j := groups !!! i]> groups, groupID) ∧
  (<[j := groups !!! i]> groups = groups ↔ groups !!! i = groups !!! j).
Proof.
  intros Hx Hv Hj Hgi Hgj. split.
  - unfold visit_cell. rewrite Hx.
    destruct (Qlt_le_dec 0 v) as [_ | Hle]; [|by apply Qlt_not_le in Hv].
    unfold join_pair. by rewrite decide_False, decide_False by naive_solver.
  - by apply insert_unchanged.
Qed.

Lemma assigned_pair_overwrites_witness :
  visit_cell scenario_B_X scenario_B_x 2 3 ([0; 1; 0; 1]%Z, 2%Z)
  = Ok (<[3 := [0; 1; 0; 1]%Z !!! 2]> [0; 1; 0; 1]%Z, 2%Z) ∧
  (<[3 := [0; 1; 0; 1]%Z !!! 2]> [0; 1; 0; 1]%Z = [0; 1; 0; 1]%Z
   ↔ [0; 1; 0; 1]%Z !!! 2 = [0; 1; 0; 1]%Z !!! 3).
Proof.
  apply (assigned_pair_overwrites scenario_B_X scenario_B_x 2 3
           [0; 1; 0; 1]%Z 2%Z (1 # 2)%Q).
  - reflexivity.
  - reflexivity.
  - simpl. lia.
  - discriminate.
  - discriminate.
Defined.

(** C1 fails as stated. On the four records of scenario B with the
    values [x02 = x13 = x23 = 1/2], the decoder reaches the pair (2, 3)
    with record 2 in group 0 and record 3 in group 1; the value of the pair
    is positive, and processing it moves record 3 to group 0. *)
Lemma assigned_pair_changes_partition :
  (forM (range 0 2) (λ i, forM (range 0 4) (visit_cell scenario_B_X scenario_B_x i))
     ([-1; -1; -1; -1]%Z, 0%Z)
   ≫= forM (range 0 3) (visit_cell scenario_B_X scenario_B_x 2))
  = Ok ([0; 1; 0; 1]%Z, 2%Z) ∧
  scenario_B_x !! at2 scenario_B_X 2 3 = Some (1 # 2)%Q ∧
  visit_cell scenario_B_X scenario_B_x 2 3 ([0; 1; 0; 1]%Z, 2%Z)
  = Ok ([0; 1; 0; 0]%Z, 2%Z) ∧
  visit_cell scenario_B_X scenario_B_x 2 3 ([0; 1; 0; 1]%Z, 2%Z)
  ≠ Ok ([0; 1; 0; 1]%Z, 2%Z) ∧
  create_partition scenario_B_X scenario_B_x 4 = Ok [0; 1; 0; 0]%Z.
Proof.
  split_and!; [vm_compute; reflexivity | reflexivity | vm_compute; reflexivity
              | vm_compute; discriminate | vm_compute; reflexivity].
Qed.

(** C2 fails on the code. In scenario A the values [x01 = 1, x02 = x12 =
    0] are the optimum of the base model; the decoder reads the cell
    [X[2][0]], which holds the default 0, as the variable of the pair
    (0, 1), and puts record 2 in the group of records 0 and 1. The decoding
    that consults the pairs [i < j] only leaves record 2 alone. *)
Theorem decoder_reads_unused_cells :
  (model_RM scenario_A_self false).1 = scenario_A_X ∧
  feasible scenario_A_x (model_RM scenario_A_self false).2 = true ∧
  at2 scenario_A_X 2 0 = 0 ∧
  create_partition scenario_A_X scenario_A_x 3 = Ok [0; 0; 0]%Z ∧
  create_partition_pairs scenario_A_X scenario_A_x 3 = Ok [0; 0; 1]%Z.
Proof.
  split_and!; vm_compute; reflexivity.
Qed.

(** *** What joining a pair does *)

(** After a pair is joined its two records share a group id, which is a
    real one; the first record keeps its id if it had one; the other
    records keep theirs; the next fresh id stays non-negative. *)
Lemma join_pair_spec (i j : nat) (groups : list Z) (groupID : Z) :
  i < length groups → j < length groups → (0 ≤ groupID)%Z →
  let st := join_pair i j (groups, groupID) in
  length st.1 = length groups ∧
  (0 ≤ st.2)%Z ∧
  st.1 !!! i ≠ (-1)%Z ∧
  st.1 !!! j = st.1 !!! i ∧
  (groups !!! i ≠ (-1)%Z → st.1 !!! i = groups !!! i) ∧
  (∀ a, a ≠ i → a ≠ j → st.1 !!! a = groups !!! a).
Proof.
  intros Hi Hj Hid. unfold join_pair.
  destruct (decide (groups !!! i = (-1)%Z ∧ groups !!! j = (-1)%Z)) as [[Hgi Hgj]|Hnot].
  - cbn [fst snd]. rewrite !length_insert.
    assert (<[j:=groupID]> (<[i:=groupID]> groups) !!! i = groupID) as Hi'.
    { destruct (decide (i = j)) as [->|Hne].
      - by rewrite list_lookup_total_insert_eq by (by rewrite length_insert).
      - rewrite list_lookup_total_insert_ne by done.
        by rewrite list_lookup_total_insert_eq. }
    rewrite Hi'. split_and!; [done | lia | lia | | done |].
    + by rewrite list_lookup_total_insert_eq by (by rewrite length_insert).
    + intros a Hai Haj. by rewrite !list_lookup_total_insert_ne.
  - destruct (decide (groups !!! i = (-1)%Z)) as [Hgi|Hgi]; cbn [fst snd].
    + assert (groups !!! j ≠ (-1)%Z) as Hgj by naive_solver.
      assert (i ≠ j) as Hne by congruence.
      rewrite length_insert, list_lookup_total_insert_eq by done.
      rewrite list_lookup_total_insert_ne by done.
      split_and!; [done.. |].
      intros a Hai Haj. by rewrite list_lookup_total_insert_ne.
    + rewrite length_insert, list_lookup_total_insert_eq by done.
      assert (<[j:=groups !!! i]> groups !!! i = groups !!! i) as ->.
      { destruct (decide (i = j)) as [->|Hne].
        - by rewrite list_lookup_total_insert_eq.
        - by rewrite list_lookup_total_insert_ne. }
      split_and!; [done.. |].
      intros a Hai Haj. by rewrite list_lookup_total_insert_ne.
Qed.

(** A cell whose value is not positive changes nothing. *)
Lemma visit_cell_inactive (X : list (list nat)) (x : list Q) (i j : nat)
    (st : list Z * Z) (v : Q) :
  x !! at2 X i j = Some v → (v <= 0)%Q → visit_cell X x i j st = Ok st.
Proof.
  intros Hx Hv. unfold visit_cell. rewrite Hx.
  destruct (Qlt_le_dec 0 v) as [Hlt|_]; [|done].
  by apply Qlt_not_le in Hlt.
Qed.

Lemma visit_cell_active (X : list (list nat)) (x : list Q) (i j : nat)
    (st : list Z * Z) (v : Q) :
  x !! at2 X i j = Some v → (0 < v)%Q → visit_cell X x i j st = Ok (join_pair i j st).
Proof.
  intros Hx Hv. unfold visit_cell. rewrite Hx.
  destruct (Qlt_le_dec 0 v) as [_|Hle]; [done |].
  by apply Qlt_not_le in Hv.
Qed.

Lemma initial_groups (n : nat) :
  for_ (range 0 n) (λ _ groups, groups ++ [(-1)%Z]) [] = replicate n (-1)%Z.
Proof.
  unfold range. rewrite Nat.sub_0_r.
  assert (∀ len lo (l : list Z),
    for_ (seq lo len) (λ _ groups, groups ++ [(-1)%Z]) l = l ++ replicate len (-1)%Z) as Hgen.
  { induction len as [|len IH]; intros lo l.
    - by rewrite app_nil_r.
    - change (seq lo (S len)) with (lo :: seq (S lo) len).
      rewrite for_cons, IH, <- app_assoc. done. }
  apply (Hgen n 0 []).
Qed.

(** Records that all have a group id need no singleton group. *)
Lemma close_singletons_assigned (groups : list Z) (groupID : Z) :
  (∀ a, a < length groups → groups !!! a ≠ (-1)%Z) →
  close_singletons (groups, groupID) = (groups, groupID).
Proof.
  intros Hall. unfold close_singletons. cbn [fst].
  apply (for_range_inv (λ _ st, st = (groups, groupID))); [lia | done |].
  intros i s Hi ->. rewrite decide_False; [done |]. apply Hall. lia.
Qed.

Lemma model_variables_matrix (ins : list (list nat) → nat → Cplex → Cplex)
    (self : RegnierProblem) (lp_problem : bool) :
  variables_matrix (_n self) (model_with ins self lp_problem).1.
Proof.
  unfold model_with.
  destruct (create_objective_spec (_S self) (_n self) lp_problem) as (_ & _ & HX).
  destruct (create_objective _ _ _ _) as [X p]. cbn [fst snd] in *.
  intros a b Ha Hb. apply at2_cell. by rewrite HX, decide_True.
Qed.

Lemma replicate_total (l : list Z) (n : nat) (g : Z) :
  length l = n → (∀ a, a < n → l !!! a = g) → l = replicate n g.
Proof.
  intros Hlen Hall. apply list_eq. intros a.
  destruct (decide (a < n)) as [Ha|Ha].
  - rewrite lookup_replicate_2 by done.
    rewrite <- (Hall a Ha). apply list_lookup_lookup_total_lt. lia.
  - rewrite lookup_ge_None_2 by lia. symmetry.
    apply lookup_ge_None_2. rewrite length_replicate. lia.
Qed.

(** *** The first variable read through the unused cells *)

Section first_pair_joined.
Variable n : nat.
Variable X : list (list nat).
Variable x : list Q.
Variable v0 : Q.
Hypothesis HX : variables_matrix n X.
Hypothesis Hlen : length x = row_start n n.
Hypothesis Hx0 : x !! 0 = Some v0.
Hypothesis Hv0 : (0 < v0)%Q.

(** On and below the diagonal every cell reads the variable 0 and joins
    its two records. *)
Lemma lower_cell_joins (i j : nat) (st : list Z * Z) :
  i < n → j ≤ i → visit_cell X x i j st = Ok (join_pair i j st).
Proof using HX Hx0 Hv0.
  clear Hlen. intros Hi Hj. apply (visit_cell_active _ _ _ _ _ v0); [|done].
  rewrite HX, decide_False by lia. done.
Qed.

Lemma upper_cell_visits (i j : nat) (st : list Z * Z) :
  i < j → j < n →
  visit_cell X x i j st = Ok st ∨ visit_cell X x i j st = Ok (join_pair i j st).
Proof using HX Hlen.
  intros Hij Hj. unfold visit_cell. rewrite HX, decide_True by lia.
  destruct (lookup_lt_is_Some_2 x (var_index n i j)) as [v ->].
  { rewrite Hlen. apply var_index_lt. lia. }
  destruct (Qlt_le_dec 0 v); auto.
Qed.

(** After row [i] the records [0 .. i] are all in the group of record
    [i]. *)
Lemma row_collapses (i : nat) (st : list Z * Z) :
  i < n → length st.1 = n → (0 ≤ st.2)%Z →
  ∃ st', forM (range 0 n) (visit_cell X x i) st = Ok st' ∧
    length st'.1 = n ∧ (0 ≤ st'.2)%Z ∧
    st'.1 !!! i ≠ (-1)%Z ∧ ∀ a, a ≤ i → st'.1 !!! a = st'.1 !!! i.
Proof using HX Hlen Hx0 Hv0.
  intros Hi Hn Hid.
  destruct (forM_range_inv
    (λ j s, length s.1 = n ∧ (0 ≤ s.2)%Z ∧
            (1 ≤ j → s.1 !!! i ≠ (-1)%Z ∧
                     ∀ a, a < j → a ≤ i → s.1 !!! a = s.1 !!! i))
    (visit_cell X x i) 0 n st) as (st' & Hrun & Hl & Hg & Hall).
  - lia.
  - split_and!; [done | done | lia].
  - intros j [g gid] Hj (Hl & Hg & Hall). cbn [fst snd] in *.
    assert (∃ s', visit_cell X x i j (g, gid) = Ok s' ∧
              (s' = (g, gid) ∧ i < j ∨ s' = join_pair i j (g, gid))) as (s' & -> & Hs').
    { destruct (decide (j ≤ i)) as [Hle|Hgt].
      - rewrite lower_cell_joins by done. eauto.
      - destruct (upper_cell_visits i j (g, gid)) as [-> | ->]; [lia | lia | |];
          eexists; split; [done | left; split; [done | lia] | done | by right]. }
    exists s'. split; [done |].
    destruct Hs' as [[-> Hij] | ->].
    + cbn [fst snd]. split_and!; [done | done |].
      intros _. destruct Hall as [Hne Heq]; [lia |].
      split; [done |]. intros a Ha Hai. apply Heq; lia.
    + destruct (join_pair_spec i j g gid) as (Hl' & Hg' & Hne' & Hj' & Hkeep & Hother);
        [lia | lia | done |].
      split_and!; [congruence | done |].
      intros _. split; [done |]. intros a Ha Hai.
      destruct (decide (a = i)) as [->|Hane]; [done |].
      destruct (decide (a = j)) as [->|Hanj]; [done |].
      destruct Hall as [Hne Heq]; [lia |].
      rewrite Hother, Hkeep by done. apply Heq; lia.
  - exists st'. split; [done |]. destruct Hall as [Hne Heq]; [lia |].
    split_and!; [done | done | done |]. intros a Ha. apply Heq; lia.
Qed.

(** Whenever the value of the first variable is positive, the decoder
    puts all the records in one group, whatever the other values are. *)
Lemma first_pair_joins_everything :
  ∃ g, create_partition X x n = Ok (replicate n g).
Proof using HX Hlen Hx0 Hv0.
  unfold create_partition. rewrite initial_groups.
  assert (1 ≤ n) as Hn1.
  { destruct n; [|lia]. apply lookup_lt_Some in Hx0. simpl in Hlen. lia. }
  destruct (forM_range_inv
    (λ i s, length s.1 = n ∧ (0 ≤ s.2)%Z ∧
            (1 ≤ i → s.1 !!! (i - 1) ≠ (-1)%Z ∧
                     ∀ a, a < i → s.1 !!! a = s.1 !!! (i - 1)))
    (λ i, forM (range 0 n) (visit_cell X x i)) 0 n
    (replicate n (-1)%Z, 0%Z)) as ([g gid] & Hrun & Hl & Hg & Hall).
  - lia.
  - cbn [fst snd]. rewrite length_replicate. split_and!; [done | done | lia].
  - intros i s Hi (Hl & Hg & _).
    destruct (row_collapses i s) as (s' & Hs' & Hl' & Hg' & Hne & Heq); [lia | done | done |].
    exists s'. split; [done |]. split_and!; [done | done |].
    intros _. replace (S i - 1) with i by lia.
    split; [done |]. intros a Ha. apply Heq. lia.
  - rewrite Hrun. cbn [fst snd] in *. destruct Hall as [Hne Heq]; [lia |].
    exists (g !!! (n - 1)). simpl.
    rewrite close_singletons_assigned.
    + f_equal. by apply replicate_total.
    + intros a Ha. rewrite Heq by lia. done.
Qed.
End first_pair_joined.

(** When the value of the first variable is not positive, the cells on
    and below the diagonal change nothing, and the decoder does what the
    decoding over the pairs [i < j] does. *)
Lemma first_pair_apart (n : nat) (X : list (list nat)) (x : list Q) (v0 : Q) :
  variables_matrix n X → x !! 0 = Some v0 → (v0 <= 0)%Q →
  create_partition X x n = create_partition_pairs X x n.
Proof.
  intros HX Hx0 Hv0. unfold create_partition, create_partition_pairs.
  f_equal. apply forM_ext. intros i st Hi. apply elem_of_range in Hi.
  rewrite (range_split 0 (i + 1) n), forM_app by lia.
  rewrite forM_skip; [done |].
  intros j s Hj. apply elem_of_range in Hj.
  apply (visit_cell_inactive _ _ _ _ _ v0); [|done].
  rewrite HX, decide_False by lia. done.
Qed.

(** ** The LP-file front-end *)

Lemma write_all_app (cs1 cs2 : list (LP.which * nat * nat * nat)) (st : list string * nat) :
  LP.write_all (cs1 ++ cs2) st = LP.write_all cs2 (LP.write_all cs1 st).
Proof. unfold LP.write_all. by rewrite foldl_app. Qed.

(** A loop whose iterations write lists of constraints writes their
    concatenation. *)
Lemma for_writes (body : nat → list string * nat → list string * nat)
    (g : nat → list (LP.which * nat * nat * nat)) (l : list nat) :
  (∀ i st, body i st = LP.write_all (g i) st) →
  ∀ st, for_ l body st = LP.write_all (l ≫= g) st.
Proof.
  intros Hbody. induction l as [|i l IH]; intros st; [done |].
  by rewrite for_cons, IH, Hbody, bind_cons, write_all_app.
Qed.

Lemma for_triples_writes (n : nat)
    (body : nat → nat → nat → list string * nat → list string * nat)
    (g : nat → nat → nat → list (LP.which * nat * nat * nat)) :
  (∀ i j k st, body i j k st = LP.write_all (g i j k) st) →
  ∀ st, for_triples n body st = LP.write_all (over_triples n g) st.
Proof.
  intros Hbody st. unfold for_triples, over_triples.
  apply for_writes. intros i s.
  apply for_writes. intros j s'.
  apply for_writes. intros k s''. apply Hbody.
Qed.

(** Each [save] method writes one line for each constraint its tests
    keep, in the order of the triples, numbered from 1. *)
Lemma saveRM_constraints_spec (self : RegnierProblem) (f : list string) :
  LP.saveRM_constraints self f
  = LP.write_all (over_triples (_n self) (LP.kept always always always))
      (LP.subject_to f).
Proof. apply for_triples_writes. done. Qed.

Lemma alpha_block_spec (self : RegnierProblem) (cut : Z) (f : list string) :
  LP.alpha_block self cut f
  = LP.write_all
      (over_triples (_n self)
         (LP.kept (alpha1 (_S self) cut) (alpha2 (_S self) cut) (alpha3 (_S self) cut)))
      (LP.subject_to f).
Proof.
  apply for_triples_writes. intros i j k st.
  unfold LP.kept, alpha1, alpha2, alpha3.
  repeat case_bool_decide; repeat case_decide; done.
Qed.

Lemma beta_block_spec (self : RegnierProblem) (cut : Z) (f : list string) :
  LP.beta_block self cut f
  = LP.write_all
      (over_triples (_n self)
         (LP.kept (beta1 (_S self) cut) (beta2 (_S self) cut) (beta3 (_S self) cut)))
      (LP.subject_to f).
Proof.
  apply for_triples_writes. intros i j k st.
  unfold LP.kept, beta1, beta2, beta3.
  repeat case_bool_decide; repeat case_decide; done.
Qed.

Lemma saveRMgamma_constraints_spec (self : RegnierProblem) (f : list string) :
  LP.saveRMgamma_constraints self f
  = LP.write_all
      (over_triples (_n self)
         (LP.kept (gamma1 (_S self) (cut (__findNegativeCut self)))
                  (gamma2 (_S self) (cut (__findNegativeCut self)))
                  (gamma3 (_S self) (cut (__findNegativeCut self)))))
      (LP.subject_to f).
Proof.
  apply for_triples_writes. intros i j k st.
  unfold LP.kept, gamma1, gamma2, gamma3.
  repeat case_bool_decide; repeat case_decide; done.
Qed.

(** The constraints kept are those of the triples [i < j < k < n] that
    pass their test, and the base method keeps [3 * choose n 3]. *)
Lemma elem_of_lp_kept (n : nat) (c1 c2 c3 : nat → nat → nat → bool)
    (w : LP.which) (i j k : nat) :
  (w, i, j, k) ∈ over_triples n (LP.kept c1 c2 c3) ↔
  i < j ∧ j < k ∧ k < n ∧ LP.test_of c1 c2 c3 (w, i, j, k) = true.
Proof.
  rewrite elem_of_over_triples. unfold LP.kept. split.
  - intros (i' & j' & k' & Hij & Hjk & Hk & Hin).
    rewrite !elem_of_app in Hin.
    destruct (c1 i' j' k') eqn:H1, (c2 i' j' k') eqn:H2, (c3 i' j' k') eqn:H3;
      rewrite ?list_elem_of_singleton, ?elem_of_nil in Hin;
      destruct Hin as [Hin | [Hin | Hin]]; try done;
      injection Hin as -> -> -> ->; done.
  - intros (Hij & Hjk & Hk & Ht). exists i, j, k. split_and!; [done.. |].
    rewrite !elem_of_app. destruct w; simpl in Ht; rewrite Ht;
      rewrite list_elem_of_singleton; auto.
Qed.

Lemma lp_kept_subset (n : nat) (c1 c2 c3 : nat → nat → nat → bool) :
  over_triples n (LP.kept c1 c2 c3) ⊆ over_triples n (LP.kept always always always).
Proof.
  intros [[[w i] j] k]. rewrite !elem_of_lp_kept.
  intros (? & ? & ? & _). split_and!; [done.. |]. by destruct w.
Qed.

Lemma length_write_all (cs : list (LP.which * nat * nat * nat)) :
  ∀ st, length (LP.write_all cs st).1 = length st.1 + length cs ∧
        (LP.write_all cs st).2 = st.2 + length cs.
Proof.
  unfold LP.write_all.
  induction cs as [|c cs IH]; intros st; simpl; [lia |].
  destruct (IH (LP.write_constraint (LP.line c) st)) as [-> ->].
  unfold LP.write_constraint. simpl. rewrite length_app. simpl. lia.
Qed.

Lemma saveRM_constraints_count (self : RegnierProblem) (f : list string) :
  length (LP.saveRM_constraints self f).1 = length f + 1 + 3 * choose (_n self) 3 ∧
  (LP.saveRM_constraints self f).2 = 1 + 3 * choose (_n self) 3.
Proof.
  rewrite saveRM_constraints_spec.
  destruct (length_write_all
              (over_triples (_n self) (LP.kept always always always))
              (LP.subject_to f)) as [-> ->].
  rewrite (length_over_triples _ 3) by done.
  unfold LP.subject_to. simpl. rewrite length_app. simpl. lia.
Qed.

(** ** The claims about the constraints *)

Lemma lp_kept_triples (n : nat) (c1 c2 c3 : nat → nat → nat → bool)
    (c : LP.which * nat * nat * nat) :
  c ∈ over_triples n (LP.kept c1 c2 c3) →
  ∃ w i j k, c = (w, i, j, k) ∧ i < j ∧ j < k ∧ k < n.
Proof.
  destruct c as [[[w i] j] k]. rewrite elem_of_lp_kept.
  intros (? & ? & ? & _). by exists w, i, j, k.
Qed.

(** C5. In the alpha variant with cut [cut], for every triple [i < j < k]
    of records: the constraint x_ij + x_jk - x_ik <= 1 is emitted iff
    [S[i][j] >= cut] or [S[j][k] >= cut]; x_ij - x_jk + x_ik <= 1 iff
    [S[i][j] >= cut] or [S[i][k] >= cut]; -x_ij + x_jk + x_ik <= 1 iff
    [S[j][k] >= cut] or [S[i][k] >= cut]; and nothing else is emitted.
    This holds of the constraints of the model [runRMalpha] hands to the
    solver and of the lines the alpha [save] methods write. *)
Theorem alpha_constraints (self : RegnierProblem) (cut : Z) (lp_problem : bool)
    (f : list string) (i j k : nat) :
  i < j → j < k → k < _n self →
  let S := at2 (_S self) in
  let X := (model_RMalpha self cut lp_problem).1 in
  let emitted := linear_constraints (model_RMalpha self cut lp_problem).2 in
  let written :=
    over_triples (_n self)
      (LP.kept (alpha1 (_S self) cut) (alpha2 (_S self) cut) (alpha3 (_S self) cut)) in
  (tri1 X i j k ∈ emitted ↔ (S i j >= cut ∨ S j k >= cut)%Z) ∧
  (tri2 X i j k ∈ emitted ↔ (S i j >= cut ∨ S i k >= cut)%Z) ∧
  (tri3 X i j k ∈ emitted ↔ (S j k >= cut ∨ S i k >= cut)%Z) ∧
  (∀ c, c ∈ emitted →
     ∃ i' j' k', i' < j' ∧ j' < k' ∧ k' < _n self ∧
       (c = tri1 X i' j' k' ∨ c = tri2 X i' j' k' ∨ c = tri3 X i' j' k')) ∧
  LP.alpha_block self cut f = LP.write_all written (LP.subject_to f) ∧
  ((LP.C1, i, j, k) ∈ written ↔ (S i j >= cut ∨ S j k >= cut)%Z) ∧
  ((LP.C2, i, j, k) ∈ written ↔ (S i j >= cut ∨ S i k >= cut)%Z) ∧
  ((LP.C3, i, j, k) ∈ written ↔ (S j k >= cut ∨ S i k >= cut)%Z) ∧
  (∀ c, c ∈ written → ∃ w i' j' k', c = (w, i', j', k') ∧ i' < j' ∧ j' < k' ∧ k' < _n self).
Proof.
  intros Hij Hjk Hk. cbv zeta. unfold model_RMalpha.
  destruct (model_with_spec (insert_constraints_RMalpha (_S self) cut)
              (alpha1 (_S self) cut) (alpha2 (_S self) cut) (alpha3 (_S self) cut)
              self lp_problem) as (HX & Hem & _).
  { intros. apply insert_constraints_RMalpha_spec. }
  rewrite Hem. split_and!.
  - rewrite (tri1_kept _ _ HX) by done. apply bool_decide_eq_true.
  - rewrite (tri2_kept _ _ HX) by done. apply bool_decide_eq_true.
  - rewrite (tri3_kept _ _ HX) by done. apply bool_decide_eq_true.
  - intros c Hc. apply kept_only in Hc as (i' & j' & k' & ? & ? & ? & Hc).
    exists i', j', k'. naive_solver.
  - apply alpha_block_spec.
  - rewrite elem_of_lp_kept. simpl. unfold alpha1. rewrite bool_decide_eq_true. tauto.
  - rewrite elem_of_lp_kept. simpl. unfold alpha2. rewrite bool_decide_eq_true. tauto.
  - rewrite elem_of_lp_kept. simpl. unfold alpha3. rewrite bool_decide_eq_true. tauto.
  - apply lp_kept_triples.
Qed.

Lemma alpha_constraints_witness :
  let S := at2 (_S scenario_A_self) in
  let X := (model_RMalpha scenario_A_self 0 false).1 in
  let emitted := linear_constraints (model_RMalpha scenario_A_self 0 false).2 in
  let written :=
    over_triples 3
      (LP.kept (alpha1 (_S scenario_A_self) 0) (alpha2 (_S scenario_A_self) 0)
         (alpha3 (_S scenario_A_self) 0)) in
  (tri1 X 0 1 2 ∈ emitted ↔ (S 0%nat 1%nat >= 0)%Z ∨ (S 1%nat 2%nat >= 0)%Z) ∧
  (tri2 X 0 1 2 ∈ emitted ↔ (S 0%nat 1%nat >= 0)%Z ∨ (S 0%nat 2%nat >= 0)%Z) ∧
  (tri3 X 0 1 2 ∈ emitted ↔ (S 1%nat 2%nat >= 0)%Z ∨ (S 0%nat 2%nat >= 0)%Z) ∧
  (∀ c, c ∈ emitted →
     ∃ i' j' k', i' < j' ∧ j' < k' ∧ k' < 3 ∧
       (c = tri1 X i' j' k' ∨ c = tri2 X i' j' k' ∨ c = tri3 X i' j' k')) ∧
  LP.alpha_block scenario_A_self 0 [] = LP.write_all written (LP.subject_to []) ∧
  ((LP.C1, 0, 1, 2) ∈ written ↔ (S 0%nat 1%nat >= 0)%Z ∨ (S 1%nat 2%nat >= 0)%Z) ∧
  ((LP.C2, 0, 1, 2) ∈ written ↔ (S 0%nat 1%nat >= 0)%Z ∨ (S 0%nat 2%nat >= 0)%Z) ∧
  ((LP.C3, 0, 1, 2) ∈ written ↔ (S 1%nat 2%nat >= 0)%Z ∨ (S 0%nat 2%nat >= 0)%Z) ∧
  (∀ c, c ∈ written → ∃ w i' j' k', c = (w, i', j', k') ∧ i' < j' ∧ j' < k' ∧ k' < 3).
Proof.
  apply (alpha_constraints scenario_A_self 0 false [] 0 1 2); simpl; lia.
Defined.

(** C6. In the gamma variant, whose cut is the one the negative heuristic
    returns, for every triple [i < j < k]: x_ij + x_jk - x_ik <= 1 is
    emitted iff [S[i][j] >= 0], [S[j][k] >= cut] and [S[i][k] <= 0]; x_ij -
    x_jk + x_ik <= 1 iff [S[i][j] >= 0], [S[j][k] <= 0] and [S[i][k] >=
    cut]; -x_ij + x_jk + x_ik <= 1 iff [S[i][j] <= 0], [S[j][k] >= cut] and
    [S[i][k] >= 0]; and nothing else is emitted. This holds of the
    constraints of the model [runRMgamma] hands to the solver and of the
    lines [saveRMgamma] writes. *)
Theorem gamma_constraints (self : RegnierProblem) (lp_problem : bool)
    (f : list string) (i j k : nat) :
  i < j → j < k → k < _n self →
  let cut := cut (__findNegativeCut self) in
  let S := at2 (_S self) in
  let X := (model_RMgamma self lp_problem).1 in
  let emitted := linear_constraints (model_RMgamma self lp_problem).2 in
  let written :=
    over_triples (_n self)
      (LP.kept (gamma1 (_S self) cut) (gamma2 (_S self) cut) (gamma3 (_S self) cut)) in
  (tri1 X i j k ∈ emitted ↔ (S i j >= 0 ∧ S j k >= cut ∧ S i k <= 0)%Z) ∧
  (tri2 X i j k ∈ emitted ↔ (S i j >= 0 ∧ S j k <= 0 ∧ S i k >= cut)%Z) ∧
  (tri3 X i j k ∈ emitted ↔ (S i j <= 0 ∧ S j k >= cut ∧ S i k >= 0)%Z) ∧
  (∀ c, c ∈ emitted →
     ∃ i' j' k', i' < j' ∧ j' < k' ∧ k' < _n self ∧
       (c = tri1 X i' j' k' ∨ c = tri2 X i' j' k' ∨ c = tri3 X i' j' k')) ∧
  LP.saveRMgamma_constraints self f = LP.write_all written (LP.subject_to f) ∧
  ((LP.C1, i, j, k) ∈ written ↔ (S i j >= 0 ∧ S j k >= cut ∧ S i k <= 0)%Z) ∧
  ((LP.C2, i, j, k) ∈ written ↔ (S i j >= 0 ∧ S j k <= 0 ∧ S i k >= cut)%Z) ∧
  ((LP.C3, i, j, k) ∈ written ↔ (S i j <= 0 ∧ S j k >= cut ∧ S i k >= 0)%Z) ∧
  (∀ c, c ∈ written → ∃ w i' j' k', c = (w, i', j', k') ∧ i' < j' ∧ j' < k' ∧ k' < _n self).
Proof.
  intros Hij Hjk Hk. cbv zeta. unfold model_RMgamma.
  set (cut0 := cut (__findNegativeCut self)).
  destruct (model_with_spec (insert_constraints_RMgamma (_S self) cut0)
              (gamma1 (_S self) cut0) (gamma2 (_S self) cut0) (gamma3 (_S self) cut0)
              self lp_problem) as (HX & Hem & _).
  { intros. apply insert_constraints_RMgamma_spec. }
  rewrite Hem. split_and!.
  - rewrite (tri1_kept _ _ HX) by done. apply bool_decide_eq_true.
  - rewrite (tri2_kept _ _ HX) by done. apply bool_decide_eq_true.
  - rewrite (tri3_kept _ _ HX) by done. apply bool_decide_eq_true.
  - intros c Hc. apply kept_only in Hc as (i' & j' & k' & ? & ? & ? & Hc).
    exists i', j', k'. naive_solver.
  - apply saveRMgamma_constraints_spec.
  - rewrite elem_of_lp_kept. simpl. unfold gamma1. rewrite bool_decide_eq_true. tauto.
  - rewrite elem_of_lp_kept. simpl. unfold gamma2. rewrite bool_decide_eq_true. tauto.
  - rewrite elem_of_lp_kept. simpl. unfold gamma3. rewrite bool_decide_eq_true. tauto.
  - apply lp_kept_triples.
Qed.

Lemma gamma_constraints_witness :
  let cut := cut (__findNegativeCut scenario_A_self) in
  let S := at2 (_S scenario_A_self) in
  let X := (model_RMgamma scenario_A_self false).1 in
  let emitted := linear_constraints (model_RMgamma scenario_A_self false).2 in
  let written :=
    over_triples 3
      (LP.kept (gamma1 (_S scenario_A_self) cut) (gamma2 (_S scenario_A_self) cut)
         (gamma3 (_S scenario_A_self) cut)) in
  (tri1 X 0 1 2 ∈ emitted
   ↔ (S 0%nat 1%nat >= 0)%Z ∧ (S 1%nat 2%nat >= cut)%Z ∧ (S 0%nat 2%nat <= 0)%Z) ∧
  (tri2 X 0 1 2 ∈ emitted
   ↔ (S 0%nat 1%nat >= 0)%Z ∧ (S 1%nat 2%nat <= 0)%Z ∧ (S 0%nat 2%nat >= cut)%Z) ∧
  (tri3 X 0 1 2 ∈ emitted
   ↔ (S 0%nat 1%nat <= 0)%Z ∧ (S 1%nat 2%nat >= cut)%Z ∧ (S 0%nat 2%nat >= 0)%Z) ∧
  (∀ c, c ∈ emitted →
     ∃ i' j' k', i' < j' ∧ j' < k' ∧ k' < 3 ∧
       (c = tri1 X i' j' k' ∨ c = tri2 X i' j' k' ∨ c = tri3 X i' j' k')) ∧
  LP.saveRMgamma_constraints scenario_A_self [] = LP.write_all written (LP.subject_to []) ∧
  ((LP.C1, 0, 1, 2) ∈ written
   ↔ (S 0%nat 1%nat >= 0)%Z ∧ (S 1%nat 2%nat >= cut)%Z ∧ (S 0%nat 2%nat <= 0)%Z) ∧
  ((LP.C2, 0, 1, 2) ∈ written
   ↔ (S 0%nat 1%nat >= 0)%Z ∧ (S 1%nat 2%nat <= 0)%Z ∧ (S 0%nat 2%nat >= cut)%Z) ∧
  ((LP.C3, 0, 1, 2) ∈ written
   ↔ (S 0%nat 1%nat <= 0)%Z ∧ (S 1%nat 2%nat >= cut)%Z ∧ (S 0%nat 2%nat >= 0)%Z) ∧
  (∀ c, c ∈ written → ∃ w i' j' k', c = (w, i', j', k') ∧ i' < j' ∧ j' < k' ∧ k' < 3).
Proof.
  apply (gamma_constraints scenario_A_self false [] 0 1 2); simpl; lia.
Defined.

(** C7. The base model of [n] records has exactly [3 * choose n 3]
    triangle constraints, that is [n (n-1) (n-2) / 2]; and the constraints
    of the alpha, of the beta and of the gamma model, for every cut (so
    also for the cuts of the heuristics), are all among those of the base
    model. This holds of the models handed to the solver and of the lines
    the [save] methods write. *)
Theorem base_count_and_subsets (self : RegnierProblem) (lp_problem : bool)
    (f : list string) :
  let n := _n self in
  let base := linear_constraints (model_RM self lp_problem).2 in
  let base_written := over_triples n (LP.kept always always always) in
  length base = 3 * choose n 3 ∧
  2 * length base = n * (n - 1) * (n - 2) ∧
  (∀ cut, linear_constraints (model_RMalpha self cut lp_problem).2 ⊆ base) ∧
  (∀ cut, linear_constraints (model_RMbeta self cut lp_problem).2 ⊆ base) ∧
  (∀ cut, linear_constraints
            (model_with (insert_constraints_RMgamma (_S self) cut) self lp_problem).2
          ⊆ base) ∧
  linear_constraints (model_RMgamma self lp_problem).2 ⊆ base ∧
  LP.saveRM_constraints self f = LP.write_all base_written (LP.subject_to f) ∧
  length base_written = 3 * choose n 3 ∧
  (∀ cut, ∃ written,
     LP.alpha_block self cut f = LP.write_all written (LP.subject_to f) ∧
     written ⊆ base_written) ∧
  (∀ cut, ∃ written,
     LP.beta_block self cut f = LP.write_all written (LP.subject_to f) ∧
     written ⊆ base_written) ∧
  (∃ written,
     LP.saveRMgamma_constraints self f = LP.write_all written (LP.subject_to f) ∧
     written ⊆ base_written).
Proof.
  cbv zeta.
  destruct (model_with_spec insert_constraints_RM always always always
              self lp_problem) as (_ & Hbase & _).
  { intros. apply insert_constraints_RM_spec. }
  fold (model_RM self lp_problem) in Hbase. rewrite Hbase.
  assert (∀ ins c1 c2 c3,
    (∀ X n p, linear_constraints (ins X n p)
              = linear_constraints p ++ over_triples n (kept c1 c2 c3 X)) →
    linear_constraints (model_with ins self lp_problem).2
    ⊆ over_triples (_n self) (kept always always always (model_RM self lp_problem).1))
    as Hsub.
  { intros ins c1 c2 c3 Hins c.
    destruct (model_with_spec ins c1 c2 c3 self lp_problem Hins) as (_ & -> & ->).
    apply kept_subset. }
  rewrite !(length_over_triples _ 3) by done.
  split_and!.
  - done.
  - pose proof (choose_3 (_n self)). lia.
  - intros cut0. eapply Hsub. intros. apply insert_constraints_RMalpha_spec.
  - intros cut0. eapply Hsub. intros. apply insert_constraints_RMbeta_spec.
  - intros cut0. eapply Hsub. intros. apply insert_constraints_RMgamma_spec.
  - eapply Hsub. intros. apply insert_constraints_RMgamma_spec.
  - apply saveRM_constraints_spec.
  - done.
  - intros cut0. eexists. split; [apply alpha_block_spec |].
    apply lp_kept_subset.
  - intros cut0. eexists. split; [apply beta_block_spec |].
    apply lp_kept_subset.
  - eexists. split; [apply saveRMgamma_constraints_spec |].
    apply lp_kept_subset.
Qed.

(** * Further properties *)

(** ** The loops over the pairs *)

(** Two nested loops over [i < j] are one loop over the pairs. *)
Lemma for_pairs {St : Type} (n : nat) (body : nat → nat → St → St) (st : St) :
  for_ (range 0 n) (λ i, for_ (range (i + 1) n) (body i)) st
  = foldl (λ s p, body p.1 p.2 s) st (pairs n).
Proof.
  unfold pairs. generalize (range 0 n) as l. intros l. revert st.
  induction l as [|i l IH]; intros st; [done |].
  rewrite for_cons, IH, bind_cons, foldl_app. f_equal.
  generalize (range (i + 1) n) as k. intros k. revert st.
  induction k as [|j k IHk]; intros st; [done |].
  rewrite for_cons, IHk. done.
Qed.

Lemma range_single (i : nat) : range i (i + 1) = [i].
Proof. unfold range. by replace (i + 1 - i) with 1 by lia. Qed.

Lemma bind_single {A B : Type} (f : A → list B) (x : A) : [x] ≫= f = f x.
Proof. rewrite bind_cons. apply app_nil_r. Qed.

Lemma elem_of_pairs (n i j : nat) : (i, j) ∈ pairs n ↔ i < j ∧ j < n.
Proof.
  unfold pairs. rewrite list_elem_of_bind. split.
  - intros (a & Hin & Ha). apply list_elem_of_bind in Hin as (b & Hin & Hb).
    apply list_elem_of_singleton in Hin as [= -> ->].
    apply elem_of_range in Ha, Hb. lia.
  - intros [Hij Hj]. exists i. split; [|apply elem_of_range; lia].
    apply list_elem_of_bind. exists j. split; [left | apply elem_of_range; lia].
Qed.

Lemma length_pairs (n : nat) : length (pairs n) = choose n 2.
Proof.
  unfold pairs. rewrite (length_bind_range 1 1 _ 0 n).
  - rewrite Nat.sub_0_r. lia.
  - lia.
  - intros i Hi. rewrite (length_bind_range 1 0 _ (i + 1) n).
    + replace (n - (i + 1)) with (n - 1 - i) by lia. done.
    + lia.
    + intros j Hj. by rewrite choose_0.
Qed.

Lemma length_pairs_rows (n i : nat) :
  i ≤ n →
  length (range 0 i ≫= λ a, range (a + 1) n ≫= λ b, [(a, b)]) = row_start n i.
Proof.
  induction i as [|i IH]; intros Hi; [done |].
  rewrite (range_split 0 i (S i)) by lia.
  rewrite bind_app, length_app, IH by lia.
  replace (S i) with (i + 1) by lia. rewrite range_single, bind_single.
  assert (∀ l : list nat, length (l ≫= λ b, [(i, b)]) = length l) as Hone.
  { induction l as [|b l IHl]; [done |]. rewrite bind_cons. simpl. by rewrite IHl. }
  rewrite Hone. unfold range. rewrite length_seq.
  replace (i + 1) with (S i) by lia. simpl. lia.
Qed.

(** The pair of the variable with index [var_index n i j] is [(i, j)]. *)
Lemma pairs_lookup (n i j : nat) :
  i < j → j < n → pairs n !! var_index n i j = Some (i, j).
Proof.
  intros Hij Hj. unfold pairs, var_index.
  rewrite (range_split 0 i n), bind_app by lia.
  rewrite lookup_app_r by (rewrite length_pairs_rows; lia).
  rewrite length_pairs_rows by lia.
  replace (row_start n i + (j - i - 1) - row_start n i) with (j - i - 1) by lia.
  rewrite (range_split i (i + 1) n), bind_app, range_single, bind_single by lia.
  assert (∀ l : list nat, (l ≫= λ b, [(i, b)]) = (λ b, (i, b)) <$> l) as Hmap.
  { induction l as [|b l IHl]; [done |]. by rewrite bind_cons, IHl. }
  rewrite Hmap, lookup_app_l.
  - rewrite list_lookup_fmap. unfold range.
    rewrite lookup_seq_lt by lia. simpl. do 2 f_equal. lia.
  - rewrite length_fmap. unfold range. rewrite length_seq. lia.
Qed.

Lemma row_start_choose (n : nat) : row_start n n = choose n 2.
Proof. rewrite <- length_pairs. symmetry. unfold pairs. by apply length_pairs_rows. Qed.

(** ** The variables of the models *)

Lemma add_variables_pairs (S : list (list Z)) (ty : variable_type) (l : list (nat * nat)) :
  ∀ st : list (list nat) * Cplex,
    variables (foldl (λ s p, add_variable S ty p.1 p.2 s) st l).2
    = variables st.2 ++ (variable_of S ty <$> l) ∧
    sense (foldl (λ s p, add_variable S ty p.1 p.2 s) st l).2 = sense st.2.
Proof.
  induction l as [|p l IH]; intros [X q].
  - by rewrite app_nil_r.
  - cbn [foldl]. destruct (IH (add_variable S ty p.1 p.2 (X, q))) as [-> ->].
    unfold add_variable, variables_add. cbn [fst snd variables sense].
    rewrite fmap_cons, <- app_assoc. done.
Qed.

Lemma create_objective_variables (S : list (list Z)) (n : nat) (lp_problem : bool)
    (st : list (list nat) * Cplex) :
  variables (create_objective S n lp_problem st).2
  = variables st.2 ++ (variable_of S (type_of lp_problem) <$> pairs n) ∧
  sense (create_objective S n lp_problem st).2 = sense st.2.
Proof.
  unfold create_objective.
  destruct lp_problem; rewrite (for_pairs n (add_variable S _)); apply add_variables_pairs.
Qed.

Lemma for_preserves {St A : Type} (proj : St → A) (body : nat → St → St) (l : list nat) :
  (∀ i s, proj (body i s) = proj s) → ∀ s, proj (for_ l body s) = proj s.
Proof.
  intros Hbody. induction l as [|i l IH]; intros s; [done |].
  by rewrite for_cons, IH.
Qed.

Lemma for_triples_preserves {St A : Type} (proj : St → A) (n : nat)
    (body : nat → nat → nat → St → St) :
  (∀ i j k s, proj (body i j k s) = proj s) →
  ∀ s, proj (for_triples n body s) = proj s.
Proof.
  intros Hbody s. unfold for_triples.
  apply for_preserves. intros i s1.
  apply for_preserves. intros j s2.
  apply for_preserves. intros k s3. apply Hbody.
Qed.

Lemma keeps_variables_RM : keeps_variables insert_constraints_RM.
Proof.
  intros X n p. unfold insert_constraints_RM.
  split; apply for_triples_preserves; done.
Qed.

Lemma keeps_variables_RMalpha (S : list (list Z)) (cut : Z) :
  keeps_variables (insert_constraints_RMalpha S cut).
Proof.
  intros X n p. unfold insert_constraints_RMalpha.
  split; apply for_triples_preserves; intros; repeat case_decide; done.
Qed.

Lemma keeps_variables_RMbeta (S : list (list Z)) (cut : Z) :
  keeps_variables (insert_constraints_RMbeta S cut).
Proof.
  intros X n p. unfold insert_constraints_RMbeta.
  split; apply for_triples_preserves; intros; repeat case_decide; done.
Qed.

Lemma keeps_variables_RMgamma (S : list (list Z)) (cut : Z) :
  keeps_variables (insert_constraints_RMgamma S cut).
Proof.
  intros X n p. unfold insert_constraints_RMgamma.
  split; apply for_triples_preserves; intros; repeat case_decide; done.
Qed.

Lemma model_with_variables (ins : list (list nat) → nat → Cplex → Cplex)
    (self : RegnierProblem) (lp_problem : bool) :
  keeps_variables ins →
  variables (model_with ins self lp_problem).2
  = variable_of (_S self) (type_of lp_problem) <$> pairs (_n self) ∧
  sense (model_with ins self lp_problem).2 = maximize ∧
  (model_with ins self lp_problem).1 = (model_RM self lp_problem).1.
Proof.
  intros Hins. unfold model_RM, model_with.
  destruct (create_objective_variables (_S self) (_n self) lp_problem
              (new_X (_n self), set_sense maximize new_Cplex)) as [Hv Hs].
  destruct (create_objective _ _ _ _) as [X p]. cbn [fst snd] in *.
  destruct (Hins X (_n self) p) as [-> ->]. by rewrite Hv, Hs.
Qed.

(** X1. Whatever the variant, the model has one variable for each pair
    [i < j] of records, in the order of the pairs: [choose n 2] of them,
    with bounds 0 and 1, the similarity [S[i][j]] as objective
    coefficient, the name [v.i.j], and continuous or binary as
    [lp_problem] says; the sense is maximize. The cell [X[i][j]] of the
    variables matrix holds the position of the variable of its pair. *)
Theorem model_variables (self : RegnierProblem) (cut : Z) (lp_problem : bool)
    (i j : nat) :
  i < j → j < _n self →
  let vars := variable_of (_S self) (type_of lp_problem) <$> pairs (_n self) in
  let X := (model_RM self lp_problem).1 in
  (∀ M, M ∈ [model_RM self lp_problem; model_RMalpha self cut lp_problem;
             model_RMbeta self cut lp_problem; model_RMgamma self lp_problem] →
        variables M.2 = vars ∧ sense M.2 = maximize ∧ M.1 = X) ∧
  length vars = choose (_n self) 2 ∧
  vars !! at2 X i j
  = Some (mkVariable (at2 (_S self) i j) 0 1 (LP.v i j) (type_of lp_problem)).
Proof.
  intros Hij Hj. cbv zeta. split_and!.
  - intros M HM. rewrite !elem_of_cons in HM.
    destruct HM as [-> | [-> | [-> | [-> | HM]]]].
    + apply model_with_variables, keeps_variables_RM.
    + apply model_with_variables, keeps_variables_RMalpha.
    + apply model_with_variables, keeps_variables_RMbeta.
    + apply model_with_variables, keeps_variables_RMgamma.
    + by apply elem_of_nil in HM.
  - by rewrite length_fmap, length_pairs.
  - destruct (model_with_spec insert_constraints_RM always always always
                self lp_problem) as (HX & _ & _).
    { intros. apply insert_constraints_RM_spec. }
    unfold model_RM. rewrite HX by lia.
    by rewrite list_lookup_fmap, pairs_lookup.
Qed.

Lemma model_variables_witness :
  let vars := variable_of (_S scenario_A_self) (type_of false) <$> pairs 3 in
  let X := (model_RM scenario_A_self false).1 in
  (∀ M, M ∈ [model_RM scenario_A_self false; model_RMalpha scenario_A_self 0 false;
             model_RMbeta scenario_A_self 0 false; model_RMgamma scenario_A_self false] →
        variables M.2 = vars ∧ sense M.2 = maximize ∧ M.1 = X) ∧
  length vars = choose 3 2 ∧
  vars !! at2 X 1 2
  = Some (mkVariable (at2 (_S scenario_A_self) 1 2) 0 1 (LP.v 1 2) (type_of false)).
Proof.
  apply (model_variables scenario_A_self 0 false 1 2); simpl; lia.
Defined.

(** ** The beta variant *)



(** ** The cut of the alpha and beta variants *)

Lemma bind_sublist_pointwise {A B : Type} (f g : A → list B) (l : list A) :
  (∀ a, f a `sublist_of` g a) → l ≫= f `sublist_of` l ≫= g.
Proof.
  intros Hfg. induction l as [|a l IH]; [done |].
  rewrite !bind_cons. by apply sublist_app.
Qed.

Lemma over_triples_sublist {A : Type} (n : nat) (f g : nat → nat → nat → list A) :
  (∀ i j k, f i j k `sublist_of` g i j k) →
  over_triples n f `sublist_of` over_triples n g.
Proof.
  intros Hfg. unfold over_triples.
  apply bind_sublist_pointwise. intros i.
  apply bind_sublist_pointwise. intros j.
  apply bind_sublist_pointwise. intros k. apply Hfg.
Qed.

Lemma over_triples_ext {A : Type} (n : nat) (f g : nat → nat → nat → list A) :
  (∀ i j k, i < j → j < k → k < n → f i j k = g i j k) →
  over_triples n f = over_triples n g.
Proof.
  intros Hfg. unfold over_triples.
  apply Forall_bind_ext, Forall_forall. intros i Hi. apply elem_of_range in Hi.
  apply Forall_bind_ext, Forall_forall. intros j Hj. apply elem_of_range in Hj.
  apply Forall_bind_ext, Forall_forall. intros k Hk. apply elem_of_range in Hk.
  apply Hfg; lia.
Qed.

Lemma over_triples_nil {A : Type} (n : nat) :
  over_triples n (λ _ _ _, @nil A) = [].
Proof.
  apply nil_length_inv. rewrite (length_over_triples n 0); [lia | done].
Qed.

Lemma emit_sublist (b b' : bool) (c : linear_constraint) :
  (b = true → b' = true) → emit b c `sublist_of` emit b' c.
Proof.
  intros Hb. destruct b, b'; simpl; try done.
  - by discriminate Hb.
  - apply sublist_nil_l.
Qed.

Lemma kept_sublist (c1 c2 c3 d1 d2 d3 : nat → nat → nat → bool)
    (X : list (list nat)) (i j k : nat) :
  (c1 i j k = true → d1 i j k = true) →
  (c2 i j k = true → d2 i j k = true) →
  (c3 i j k = true → d3 i j k = true) →
  kept c1 c2 c3 X i j k `sublist_of` kept d1 d2 d3 X i j k.
Proof.
  intros H1 H2 H3. unfold kept.
  repeat apply sublist_app; by apply emit_sublist.
Qed.

Lemma lp_kept_sublist (c1 c2 c3 d1 d2 d3 : nat → nat → nat → bool) (i j k : nat) :
  (c1 i j k = true → d1 i j k = true) →
  (c2 i j k = true → d2 i j k = true) →
  (c3 i j k = true → d3 i j k = true) →
  LP.kept c1 c2 c3 i j k `sublist_of` LP.kept d1 d2 d3 i j k.
Proof.
  intros H1 H2 H3. unfold LP.kept.
  repeat apply sublist_app.
  - destruct (c1 i j k), (d1 i j k); try done; [by discriminate H1 | apply sublist_nil_l].
  - destruct (c2 i j k), (d2 i j k); try done; [by discriminate H2 | apply sublist_nil_l].
  - destruct (c3 i j k), (d3 i j k); try done; [by discriminate H3 | apply sublist_nil_l].
Qed.

Lemma model_constraints (ins : list (list nat) → nat → Cplex → Cplex)
    (c1 c2 c3 : nat → nat → nat → bool) (self : RegnierProblem) (lp_problem : bool) :
  (∀ X n p, linear_constraints (ins X n p)
            = linear_constraints p ++ over_triples n (kept c1 c2 c3 X)) →
  linear_constraints (model_with ins self lp_problem).2
  = over_triples (_n self) (kept c1 c2 c3 (model_RM self lp_problem).1).
Proof.
  intros Hins.
  by destruct (model_with_spec ins c1 c2 c3 self lp_problem Hins) as (_ & -> & ->).
Qed.

Lemma model_RM_constraints (self : RegnierProblem) (lp_problem : bool) :
  linear_constraints (model_RM self lp_problem).2
  = over_triples (_n self) (kept always always always (model_RM self lp_problem).1).
Proof. apply model_constraints. intros. apply insert_constraints_RM_spec. Qed.

Lemma model_RMalpha_constraints (self : RegnierProblem) (cut : Z) (lp_problem : bool) :
  linear_constraints (model_RMalpha self cut lp_problem).2
  = over_triples (_n self)
      (kept (alpha1 (_S self) cut) (alpha2 (_S self) cut) (alpha3 (_S self) cut)
         (model_RM self lp_problem).1).
Proof. apply model_constraints. intros. apply insert_constraints_RMalpha_spec. Qed.

Lemma model_RMbeta_constraints (self : RegnierProblem) (cut : Z) (lp_problem : bool) :
  linear_constraints (model_RMbeta self cut lp_problem).2
  = over_triples (_n self)
      (kept (beta1 (_S self) cut) (beta2 (_S self) cut) (beta3 (_S self) cut)
         (model_RM self lp_problem).1).
Proof. apply model_constraints. intros. apply insert_constraints_RMbeta_spec. Qed.

Lemma model_RMgamma_constraints (self : RegnierProblem) (lp_problem : bool) :
  linear_constraints (model_RMgamma self lp_problem).2
  = over_triples (_n self)
      (kept (gamma1 (_S self) (cut (__findNegativeCut self)))
            (gamma2 (_S self) (cut (__findNegativeCut self)))
            (gamma3 (_S self) (cut (__findNegativeCut self)))
         (model_RM self lp_problem).1).
Proof. apply model_constraints. intros. apply insert_constraints_RMgamma_spec. Qed.

(** X3. Raising the cut of the alpha or of the beta variant only removes
    constraints: the constraints of the model with the larger cut are
    those of the model with the smaller cut with some left out, the order
    kept. The same holds of the constraints the [save] methods write,
    which are numbered after the selection. *)
Theorem cut_monotone (self : RegnierProblem) (cut cut' : Z) (lp_problem : bool)
    (f : list string) :
  (cut ≤ cut')%Z →
  linear_constraints (model_RMalpha self cut' lp_problem).2
    `sublist_of` linear_constraints (model_RMalpha self cut lp_problem).2 ∧
  linear_constraints (model_RMbeta self cut' lp_problem).2
    `sublist_of` linear_constraints (model_RMbeta self cut lp_problem).2 ∧
  (∃ written written',
     LP.alpha_block self cut f = LP.write_all written (LP.subject_to f) ∧
     LP.alpha_block self cut' f = LP.write_all written' (LP.subject_to f) ∧
     written' `sublist_of` written) ∧
  (∃ written written',
     LP.beta_block self cut f = LP.write_all written (LP.subject_to f) ∧
     LP.beta_block self cut' f = LP.write_all written' (LP.subject_to f) ∧
     written' `sublist_of` written).
Proof.
  intros Hcut.
  rewrite !model_RMalpha_constraints, !model_RMbeta_constraints.
  split_and!.
  - apply over_triples_sublist. intros i j k.
    apply kept_sublist; unfold alpha1, alpha2, alpha3;
      rewrite !bool_decide_eq_true; lia.
  - apply over_triples_sublist. intros i j k.
    apply kept_sublist; unfold beta1, beta2, beta3;
      rewrite !bool_decide_eq_true; lia.
  - eexists _, _. split_and!; [apply alpha_block_spec.. |].
    apply over_triples_sublist. intros i j k.
    apply lp_kept_sublist; unfold alpha1, alpha2, alpha3;
      rewrite !bool_decide_eq_true; lia.
  - eexists _, _. split_and!; [apply beta_block_spec.. |].
    apply over_triples_sublist. intros i j k.
    apply lp_kept_sublist; unfold beta1, beta2, beta3;
      rewrite !bool_decide_eq_true; lia.
Qed.

Lemma cut_monotone_witness :
  linear_constraints (model_RMalpha scenario_A_self 3 false).2
    `sublist_of` linear_constraints (model_RMalpha scenario_A_self 0 false).2 ∧
  linear_constraints (model_RMbeta scenario_A_self 3 false).2
    `sublist_of` linear_constraints (model_RMbeta scenario_A_self 0 false).2 ∧
  (∃ written written',
     LP.alpha_block scenario_A_self 0 [] = LP.write_all written (LP.subject_to []) ∧
     LP.alpha_block scenario_A_self 3 [] = LP.write_all written' (LP.subject_to []) ∧
     written' `sublist_of` written) ∧
  (∃ written written',
     LP.beta_block scenario_A_self 0 [] = LP.write_all written (LP.subject_to []) ∧
     LP.beta_block scenario_A_self 3 [] = LP.write_all written' (LP.subject_to []) ∧
     written' `sublist_of` written).
Proof.
  apply (cut_monotone scenario_A_self 0 3 false []). lia.
Defined.

(** The similarities of an object the constructor returned, as the model
    builders read them. *)
Lemma init_similarity_bounds (D : list (list string)) (self : RegnierProblem) (a b : nat) :
  __init__ D = Ok self → a < _n self → b < _n self → a ≠ b →
  (- Z.of_nat (_m self) ≤ at2 (_S self) a b ≤ Z.of_nat (_m self))%Z.
Proof.
  intros Hinit. destruct (init_Ok_inv D self Hinit) as [Hne Hrows].
  destruct (init_accepts D Hne Hrows) as (S & HS & Hcell).
  rewrite Hinit in HS. injection HS as ->. simpl. intros Ha Hb Hab.
  rewrite (at2_cell S a b (sim_value (derived_m D) (D !!! a) (D !!! b))).
  - apply sim_value_bounds.
  - by rewrite Hcell, decide_True, decide_True.
Qed.

(** X4. For an object the constructor built from a dataset, with its
    attribute count [m]: the alpha variant with a cut of at most [-m] and
    the beta variant with a cut of at most [-2m] are the base model, no
    constraint being left out, in the model handed to the solver and in
    the lines written. *)
Theorem low_cut_is_base (D : list (list string)) (self : RegnierProblem)
    (cut_alpha cut_beta : Z) (lp_problem : bool) (f : list string) :
  __init__ D = Ok self →
  (cut_alpha ≤ - Z.of_nat (_m self))%Z →
  (cut_beta ≤ - 2 * Z.of_nat (_m self))%Z →
  linear_constraints (model_RMalpha self cut_alpha lp_problem).2
  = linear_constraints (model_RM self lp_problem).2 ∧
  linear_constraints (model_RMbeta self cut_beta lp_problem).2
  = linear_constraints (model_RM self lp_problem).2 ∧
  LP.alpha_block self cut_alpha f = LP.saveRM_constraints self f ∧
  LP.beta_block self cut_beta f = LP.saveRM_constraints self f.
Proof.
  intros Hinit Ha Hb.
  assert (∀ a b, a < _n self → b < _n self → a ≠ b →
            (- Z.of_nat (_m self) ≤ at2 (_S self) a b ≤ Z.of_nat (_m self))%Z) as HS.
  { intros a b. by apply (init_similarity_bounds D). }
  rewrite model_RMalpha_constraints, model_RMbeta_constraints, model_RM_constraints.
  rewrite alpha_block_spec, beta_block_spec, saveRM_constraints_spec.
  assert (∀ i j k, i < j → j < k → k < _n self →
            alpha1 (_S self) cut_alpha i j k = true ∧
            alpha2 (_S self) cut_alpha i j k = true ∧
            alpha3 (_S self) cut_alpha i j k = true ∧
            beta1 (_S self) cut_beta i j k = true ∧
            beta2 (_S self) cut_beta i j k = true ∧
            beta3 (_S self) cut_beta i j k = true) as Hall.
  { intros i j k Hij Hjk Hk.
    pose proof (HS i j ltac:(lia) ltac:(lia) ltac:(lia)).
    pose proof (HS j k ltac:(lia) ltac:(lia) ltac:(lia)).
    pose proof (HS i k ltac:(lia) ltac:(lia) ltac:(lia)).
    unfold alpha1, alpha2, alpha3, beta1, beta2, beta3.
    rewrite !bool_decide_eq_true. lia. }
  split_and!.
  - apply over_triples_ext. intros i j k Hij Hjk Hk.
    destruct (Hall i j k) as (H1 & H2 & H3 & _); [done.. |].
    unfold kept. by rewrite H1, H2, H3.
  - apply over_triples_ext. intros i j k Hij Hjk Hk.
    destruct (Hall i j k) as (_ & _ & _ & H1 & H2 & H3); [done.. |].
    unfold kept. by rewrite H1, H2, H3.
  - f_equal. apply over_triples_ext. intros i j k Hij Hjk Hk.
    destruct (Hall i j k) as (H1 & H2 & H3 & _); [done.. |].
    unfold LP.kept. by rewrite H1, H2, H3.
  - f_equal. apply over_triples_ext. intros i j k Hij Hjk Hk.
    destruct (Hall i j k) as (_ & _ & _ & H1 & H2 & H3); [done.. |].
    unfold LP.kept. by rewrite H1, H2, H3.
Qed.

Lemma low_cut_is_base_witness :
  linear_constraints (model_RMalpha scenario_A_self (-2) false).2
  = linear_constraints (model_RM scenario_A_self false).2 ∧
  linear_constraints (model_RMbeta scenario_A_self (-4) false).2
  = linear_constraints (model_RM scenario_A_self false).2 ∧
  LP.alpha_block scenario_A_self (-2) [] = LP.saveRM_constraints scenario_A_self [] ∧
  LP.beta_block scenario_A_self (-4) [] = LP.saveRM_constraints scenario_A_self [].
Proof.
  apply (low_cut_is_base scenario_A scenario_A_self (-2) (-4) false []).
  - vm_compute. reflexivity.
  - simpl. lia.
  - simpl. lia.
Defined.

(** X5. For an object the constructor built, the alpha variant with a cut
    above [m] and the beta variant with a cut above [2m] have no
    constraint at all: the model handed to the solver is the objective
    over the unit box, and nothing follows the line [Subject To]. *)
Theorem high_cut_is_unconstrained (D : list (list string)) (self : RegnierProblem)
    (cut_alpha cut_beta : Z) (lp_problem : bool) (f : list string) :
  __init__ D = Ok self →
  (Z.of_nat (_m self) < cut_alpha)%Z →
  (2 * Z.of_nat (_m self) < cut_beta)%Z →
  linear_constraints (model_RMalpha self cut_alpha lp_problem).2 = [] ∧
  linear_constraints (model_RMbeta self cut_beta lp_problem).2 = [] ∧
  LP.alpha_block self cut_alpha f = LP.subject_to f ∧
  LP.beta_block self cut_beta f = LP.subject_to f.
Proof.
  intros Hinit Ha Hb.
  assert (∀ a b, a < _n self → b < _n self → a ≠ b →
            (- Z.of_nat (_m self) ≤ at2 (_S self) a b ≤ Z.of_nat (_m self))%Z) as HS.
  { intros a b. by apply (init_similarity_bounds D). }
  rewrite model_RMalpha_constraints, model_RMbeta_constraints.
  rewrite alpha_block_spec, beta_block_spec.
  assert (∀ i j k, i < j → j < k → k < _n self →
            alpha1 (_S self) cut_alpha i j k = false ∧
            alpha2 (_S self) cut_alpha i j k = false ∧
            alpha3 (_S self) cut_alpha i j k = false ∧
            beta1 (_S self) cut_beta i j k = false ∧
            beta2 (_S self) cut_beta i j k = false ∧
            beta3 (_S self) cut_beta i j k = false) as Hall.
  { intros i j k Hij Hjk Hk.
    pose proof (HS i j ltac:(lia) ltac:(lia) ltac:(lia)).
    pose proof (HS j k ltac:(lia) ltac:(lia) ltac:(lia)).
    pose proof (HS i k ltac:(lia) ltac:(lia) ltac:(lia)).
    unfold alpha1, alpha2, alpha3, beta1, beta2, beta3.
    rewrite !bool_decide_eq_false. lia. }
  split_and!.
  - rewrite <- (over_triples_nil (_n self)).
    apply over_triples_ext. intros i j k Hij Hjk Hk.
    destruct (Hall i j k) as (H1 & H2 & H3 & _); [done.. |].
    unfold kept. by rewrite H1, H2, H3.
  - rewrite <- (over_triples_nil (_n self)).
    apply over_triples_ext. intros i j k Hij Hjk Hk.
    destruct (Hall i j k) as (_ & _ & _ & H1 & H2 & H3); [done.. |].
    unfold kept. by rewrite H1, H2, H3.
  - replace (over_triples (_n self) (LP.kept _ _ _)) with (@nil (LP.which * nat * nat * nat));
      [done |].
    rewrite <- (over_triples_nil (_n self)).
    apply over_triples_ext. intros i j k Hij Hjk Hk.
    destruct (Hall i j k) as (H1 & H2 & H3 & _); [done.. |].
    unfold LP.kept. by rewrite H1, H2, H3.
  - replace (over_triples (_n self) (LP.kept _ _ _)) with (@nil (LP.which * nat * nat * nat));
      [done |].
    rewrite <- (over_triples_nil (_n self)).
    apply over_triples_ext. intros i j k Hij Hjk Hk.
    destruct (Hall i j k) as (_ & _ & _ & H1 & H2 & H3); [done.. |].
    unfold LP.kept. by rewrite H1, H2, H3.
Qed.

Lemma high_cut_is_unconstrained_witness :
  linear_constraints (model_RMalpha scenario_A_self 3 false).2 = [] ∧
  linear_constraints (model_RMbeta scenario_A_self 5 false).2 = [] ∧
  LP.alpha_block scenario_A_self 3 [] = LP.subject_to [] ∧
  LP.beta_block scenario_A_self 5 [] = LP.subject_to [].
Proof.
  apply (high_cut_is_unconstrained scenario_A scenario_A_self 3 5 false []).
  - vm_compute. reflexivity.
  - simpl. lia.
  - simpl. lia.
Defined.

(** ** The two front-ends *)






(** ** The LP file *)

Lemma write_all_lines (cs : list (LP.which * nat * nat * nat)) :
  ∀ st, (LP.write_all cs st).1 = st.1 ++ imap (λ k c, LP.line c (st.2 + k)) cs.
Proof.
  unfold LP.write_all. induction cs as [|c cs IH]; intros st.
  - by rewrite app_nil_r.
  - cbn [foldl]. rewrite IH. unfold LP.write_constraint. cbn [fst snd].
    rewrite <- app_assoc. f_equal. cbn [imap app]. rewrite Nat.add_0_r. f_equal.
    apply imap_ext. intros k c' _. simpl. f_equal. lia.
Qed.

Lemma write_all_numbered (f : list string) (cs : list (LP.which * nat * nat * nat)) :
  numbered_from_one f cs (LP.write_all cs (LP.subject_to f)).
Proof.
  split.
  - rewrite write_all_lines. unfold LP.subject_to. cbn [fst snd].
    rewrite <- app_assoc. do 2 f_equal.
    apply imap_ext. intros k c _. simpl. f_equal. lia.
  - destruct (length_write_all cs (LP.subject_to f)) as [_ ->].
    unfold LP.subject_to. simpl. lia.
Qed.

(** X7. In every [save] method the constraint lines follow the line
    [Subject To] and are numbered 1, 2, 3, ... in the order they are
    written: the number advances only when a line is written, so the
    variants that leave constraints out leave no gap in the numbers. *)
Theorem constraint_numbers (self : RegnierProblem) (cut0 : Z) (f : list string) :
  numbered_from_one f (over_triples (_n self) (LP.kept always always always))
    (LP.saveRM_constraints self f) ∧
  numbered_from_one f
    (over_triples (_n self)
       (LP.kept (alpha1 (_S self) cut0) (alpha2 (_S self) cut0) (alpha3 (_S self) cut0)))
    (LP.alpha_block self cut0 f) ∧
  numbered_from_one f
    (over_triples (_n self)
       (LP.kept (beta1 (_S self) cut0) (beta2 (_S self) cut0) (beta3 (_S self) cut0)))
    (LP.beta_block self cut0 f) ∧
  numbered_from_one f
    (over_triples (_n self)
       (LP.kept (gamma1 (_S self) (cut (__findNegativeCut self)))
                (gamma2 (_S self) (cut (__findNegativeCut self)))
                (gamma3 (_S self) (cut (__findNegativeCut self)))))
    (LP.saveRMgamma_constraints self f).
Proof.
  rewrite saveRM_constraints_spec, alpha_block_spec, beta_block_spec,
    saveRMgamma_constraints_spec.
  split_and!; apply write_all_numbered.
Qed.

(** *** The objective *)

Lemma objective_term_spec (self : RegnierProblem) (k i j : nat) (f : list string) :
  LP.objective_term self i j (f, objective_total k)
  = (f ++ [objective_string self k (i, j)], objective_total (k + 1)).
Proof.
  unfold LP.objective_term, objective_string, objective_total. cbn [fst snd].
  destruct (decide (k = 0)) as [->|Hk].
  - simpl. by case_decide.
  - rewrite (decide_False (P := k + 1 = 0)) by lia.
    replace (k + 1 - 1) with k by lia.
    pose proof (Nat.mod_upper_bound (k - 1) 4 ltac:(lia)) as Hlt.
    pose proof (Nat.div_mod_eq (k - 1) 4) as Hdm.
    pose proof (Nat.mod_upper_bound k 4 ltac:(lia)) as Hlt'.
    pose proof (Nat.div_mod_eq k 4) as Hdm'.
    destruct (decide ((k - 1) `mod` 4 + 1 = 4)) as [H4|H4].
    + rewrite (decide_True (P := 0 < k ∧ k `mod` 4 = 0)) by lia.
      case_decide; (f_equal; lia).
    + rewrite (decide_False (P := 0 < k ∧ k `mod` 4 = 0)) by lia.
      case_decide; (f_equal; lia).
Qed.

Lemma objective_terms (self : RegnierProblem) (l : list (nat * nat)) :
  ∀ k f,
    foldl (λ s p, LP.objective_term self p.1 p.2 s) (f, objective_total k) l
    = (f ++ imap (λ q p, objective_string self (k + q) p) l,
       objective_total (k + length l)).
Proof.
  induction l as [|[i j] l IH]; intros k f.
  - by rewrite app_nil_r, Nat.add_0_r.
  - cbn [foldl fst snd]. rewrite objective_term_spec, IH.
    rewrite <- app_assoc. cbn [imap app length]. rewrite Nat.add_0_r.
    f_equal; [|f_equal; lia]. do 2 f_equal.
    apply imap_ext. intros q p _. simpl. f_equal. lia.
Qed.

Lemma objective_block_spec (name : string) (self : RegnierProblem) :
  LP.objective_block name self
  = ["\ENCODING=ISO-8859-1" +:+ LP.newline;
     "\Problem name: " +:+ name +:+ " model" +:+ LP.newline +:+ LP.newline;
     "Maximize" +:+ LP.newline;
     " obj: " +:+ LP.newline]
    ++ imap (objective_string self) (pairs (_n self)).
Proof.
  unfold LP.objective_block. rewrite (for_pairs (_n self) (LP.objective_term self)).
  change 0 with (objective_total 0) at 1.
  rewrite objective_terms. cbn [fst]. done.
Qed.

(** X8. The objective a [save] method writes: after the four opening
    lines, one term for each pair [i < j], the term of the pair [(i, j)]
    at the place of its variable in the order of the pairs. A term is made
    of the sign of [S[i][j]] (plus for 0), its absolute value and the name
    [v.i.j]; the terms at the places 4, 8, 12, ... (counted from 0) end
    the line, so the first line of terms has five of them and the
    following ones four. *)
Theorem objective_written (name : string) (self : RegnierProblem) (i j : nat) :
  i < j → j < _n self →
  length (LP.objective_block name self) = 4 + choose (_n self) 2 ∧
  LP.objective_block name self !! (4 + var_index (_n self) i j)
  = Some (objective_string self (var_index (_n self) i j) (i, j)).
Proof.
  intros Hij Hj. rewrite objective_block_spec. split.
  - rewrite length_app, length_imap, length_pairs. done.
  - rewrite lookup_app_r by (simpl; lia).
    replace (4 + var_index (_n self) i j - length _) with (var_index (_n self) i j)
      by (simpl; lia).
    by rewrite list_lookup_imap, pairs_lookup.
Qed.

Lemma objective_written_witness :
  length (LP.objective_block "RM" scenario_B_self) = 4 + choose 4 2 ∧
  LP.objective_block "RM" scenario_B_self !! (4 + var_index 4 1 3)
  = Some (objective_string scenario_B_self (var_index 4 1 3) (1, 3)).
Proof.
  apply (objective_written "RM" scenario_B_self 1 3); simpl; lia.
Defined.

(** *** Bounds and binaries *)

Lemma binaries_four (p1 p2 p3 p4 : nat * nat) (f : list string) :
  LP.binaries_name p4.1 p4.2
    (LP.binaries_name p3.1 p3.2
       (LP.binaries_name p2.1 p2.2 (LP.binaries_name p1.1 p1.2 (f, 0, ""))))
  = (f ++ names_by_four [p1; p2; p3; p4], 0, "").
Proof. reflexivity. Qed.

Lemma binaries_by_four (m : nat) :
  ∀ (l : list (nat * nat)) (f : list string), length l ≤ m →
    (foldl (λ s p, LP.binaries_name p.1 p.2 s) (f, 0, "") l).1.1
    = f ++ names_by_four l.
Proof.
  induction m as [|m IH]; intros l f Hlen.
  - destruct l; [|simpl in Hlen; lia]. by rewrite app_nil_r.
  - destruct l as [|p1 [|p2 [|p3 [|p4 l]]]]; try (by rewrite app_nil_r).
    cbn [foldl]. rewrite binaries_four. simpl in Hlen.
    rewrite IH by lia. cbn [names_by_four]. by rewrite <- app_assoc.
Qed.

Lemma names_by_four_length (m : nat) :
  ∀ l : list (nat * nat), length l ≤ m →
    length (names_by_four l) = length l `div` 4 ∧
    names_by_four l = names_by_four (take (4 * (length l `div` 4)) l).
Proof.
  induction m as [|m IH]; intros l Hlen.
  - destruct l; [|simpl in Hlen; lia]. done.
  - destruct l as [|p1 [|p2 [|p3 [|p4 l]]]]; try done.
    simpl in Hlen. destruct (IH l) as [IH1 IH2]; [lia |].
    assert (length (p1 :: p2 :: p3 :: p4 :: l) `div` 4 = S (length l `div` 4)) as ->.
    { change (length (p1 :: p2 :: p3 :: p4 :: l)) with (4 + length l).
      pose proof (Nat.div_mod_eq (length l) 4).
      pose proof (Nat.mod_upper_bound (length l) 4 ltac:(lia)).
      pose proof (Nat.div_mod_eq (4 + length l) 4).
      pose proof (Nat.mod_upper_bound (4 + length l) 4 ltac:(lia)). lia. }
    replace (4 * S (length l `div` 4)) with (S (S (S (S (4 * (length l `div` 4)))))) by lia.
    cbn [names_by_four length take]. split; [by rewrite IH1 |]. by rewrite <- IH2.
Qed.

Lemma bounds_block_spec (header : string) (self : RegnierProblem) (f : list string) :
  LP.bounds_block header self f = f ++ [header] ++ (bounds_line <$> pairs (_n self)).
Proof.
  unfold LP.bounds_block.
  rewrite (for_pairs (_n self) (λ i j f, f ++ [" 0 <= " +:+ LP.v i j +:+ " <= 1" +:+ LP.newline])).
  rewrite app_assoc. generalize (f ++ [header]) as g. intros g.
  induction (pairs (_n self)) as [|p l IH] in g |- *.
  - by rewrite app_nil_r.
  - cbn [foldl]. rewrite IH, <- app_assoc. done.
Qed.

Lemma binaries_block_spec (header : string) (self : RegnierProblem)
    (lp_problem : bool) (f : list string) :
  LP.binaries_block header self lp_problem f
  = f ++ (if lp_problem then [] else [header] ++ names_by_four (pairs (_n self)))
      ++ ["End" +:+ LP.newline].
Proof.
  unfold LP.binaries_block. destruct lp_problem; [done |].
  rewrite (for_pairs (_n self) LP.binaries_name).
  rewrite (binaries_by_four (length (pairs (_n self)))) by done.
  by rewrite <- !app_assoc.
Qed.

(** X9. The declarations a [save] method writes after the constraints.
    Every variable has its line of bounds, in the order of the pairs.
    With [lp_problem] true no variable is declared binary. With
    [lp_problem] false the names are written four to a line, and the
    names gathered for an incomplete last line are never written: of the
    [choose n 2] variables only the first [4 * (choose n 2 / 4)] are
    declared binary, the others being left continuous in the file. *)
Theorem declarations_written (header : string) (self : RegnierProblem)
    (f : list string) :
  LP.bounds_block header self f = f ++ [header] ++ (bounds_line <$> pairs (_n self)) ∧
  LP.binaries_block header self true f = f ++ ["End" +:+ LP.newline] ∧
  LP.binaries_block header self false f
  = f ++ [header] ++ names_by_four (pairs (_n self)) ++ ["End" +:+ LP.newline] ∧
  length (names_by_four (pairs (_n self))) = choose (_n self) 2 `div` 4 ∧
  names_by_four (pairs (_n self))
  = names_by_four (take (4 * (choose (_n self) 2 `div` 4)) (pairs (_n self))).
Proof.
  split_and!.
  - apply bounds_block_spec.
  - done.
  - rewrite binaries_block_spec. by rewrite <- !app_assoc.
  - destruct (names_by_four_length _ (pairs (_n self)) (le_n _)) as [-> _].
    by rewrite length_pairs.
  - destruct (names_by_four_length _ (pairs (_n self)) (le_n _)) as [_ Heq].
    by rewrite length_pairs in Heq.
Qed.

(** *** The whole file *)

Lemma save_with (name : string) (self : RegnierProblem)
    (cs : list (LP.which * nat * nat * nat)) (blank : string) (lp_problem : bool)
    (block : list string → list string * nat) :
  (∀ f, block f = LP.write_all cs (LP.subject_to f)) →
  LP.binaries_block (blank +:+ "Binaries" +:+ LP.newline) self lp_problem
    (LP.bounds_block (blank +:+ "Bounds" +:+ LP.newline) self
       (block (LP.objective_block name self)).1)
  = lp_file name self cs blank lp_problem.
Proof.
  intros Hblock. rewrite Hblock.
  destruct (write_all_numbered (LP.objective_block name self) cs) as [-> _].
  rewrite bounds_block_spec, binaries_block_spec, objective_block_spec.
  unfold lp_file. by rewrite <- !app_assoc.
Qed.

(** X10. What each [save] method writes, and where: the file named after
    the variant holds the objective, the constraints its loop keeps
    numbered from 1, the bounds, the binaries when [lp_problem] is false,
    and the closing line, in this order. *)
Theorem save_files (self : RegnierProblem) (filename : string) (lp_problem : bool) :
  let n := _n self in
  let S := _S self in
  let positive := cut (__findPositiveCut self) in
  let negative := cut (__findNegativeCut self) in
  LP.saveRM self filename lp_problem
  = (filename +:+ "(RM).lp",
     lp_file "RM" self (over_triples n (LP.kept always always always))
       LP.newline lp_problem) ∧
  LP.saveRMalpha self filename lp_problem
  = (filename +:+ "(RMalpha0).lp",
     lp_file "RMalpha0" self
       (over_triples n (LP.kept (alpha1 S 0) (alpha2 S 0) (alpha3 S 0))) "" lp_problem) ∧
  LP.saveRMalphaPlus self filename lp_problem
  = (filename +:+ "(RMalpha+).lp",
     lp_file "RMalpha+" self
       (over_triples n
          (LP.kept (alpha1 S positive) (alpha2 S positive) (alpha3 S positive)))
       "" lp_problem) ∧
  LP.saveRMbeta self filename lp_problem
  = (filename +:+ "(RMbeta0).lp",
     lp_file "RMbeta" self
       (over_triples n (LP.kept (beta1 S 0) (beta2 S 0) (beta3 S 0))) "" lp_problem) ∧
  LP.saveRMbetaPlus self filename lp_problem
  = (filename +:+ "(RMbeta+).lp",
     lp_file "RMbeta+" self
       (over_triples n
          (LP.kept (beta1 S positive) (beta2 S positive) (beta3 S positive)))
       "" lp_problem) ∧
  LP.saveRMgamma self filename lp_problem
  = (filename +:+ "(RMgamma).lp",
     lp_file "RMgamma" self
       (over_triples n
          (LP.kept (gamma1 S negative) (gamma2 S negative) (gamma3 S negative)))
       "" lp_problem).
Proof.
  cbv zeta.
  unfold LP.saveRM, LP.saveRMalpha, LP.saveRMalphaPlus, LP.saveRMbeta,
    LP.saveRMbetaPlus, LP.saveRMgamma.
  split_and!; f_equal.
  - apply (save_with "RM" self _ LP.newline). intros. apply saveRM_constraints_spec.
  - apply (save_with "RMalpha0" self _ ""). intros. apply alpha_block_spec.
  - apply (save_with "RMalpha+" self _ ""). intros. apply alpha_block_spec.
  - apply (save_with "RMbeta" self _ ""). intros. apply beta_block_spec.
  - apply (save_with "RMbeta+" self _ ""). intros. apply beta_block_spec.
  - apply (save_with "RMgamma" self _ ""). intros. apply saveRMgamma_constraints_spec.
Qed.

(** ** The decoder *)

Lemma unassigned_insert_le (l : list Z) (i : nat) (g : Z) :
  g ≠ (-1)%Z → unassigned (<[i:=g]> l) ≤ unassigned l.
Proof.
  intros Hg. unfold unassigned. revert i.
  induction l as [|a l IH]; intros i; [done |].
  destruct i as [|i].
  - change (<[0:=g]> (a :: l)) with (g :: l).
    rewrite filter_cons_False by done. rewrite filter_cons.
    case_decide; simpl; lia.
  - change (<[S i:=g]> (a :: l)) with (a :: <[i:=g]> l).
    rewrite !filter_cons. specialize (IH i).
    case_decide; simpl; lia.
Qed.

Lemma unassigned_insert_new (l : list Z) (i : nat) (g : Z) :
  i < length l → l !!! i = (-1)%Z → g ≠ (-1)%Z →
  unassigned (<[i:=g]> l) + 1 = unassigned l.
Proof.
  intros Hi Hl Hg. unfold unassigned. revert i Hi Hl.
  induction l as [|a l IH]; intros i Hi Hl; [simpl in Hi; lia |].
  destruct i as [|i].
  - change (<[0:=g]> (a :: l)) with (g :: l).
    simpl in Hl. subst a.
    rewrite filter_cons_False by done. rewrite filter_cons_True by done.
    simpl. lia.
  - change (<[S i:=g]> (a :: l)) with (a :: <[i:=g]> l).
    simpl in Hi. specialize (IH i ltac:(lia) Hl).
    rewrite !filter_cons. case_decide; simpl; lia.
Qed.

Lemma unassigned_replicate (n : nat) : unassigned (replicate n (-1)%Z) = n.
Proof.
  unfold unassigned. induction n as [|n IH]; [done |].
  cbn [replicate]. rewrite filter_cons_True by done. simpl. by rewrite IH.
Qed.

Lemma decoder_inv_initial (n : nat) : decoder_inv n (replicate n (-1)%Z, 0%Z).
Proof.
  unfold decoder_inv. cbn [fst snd].
  rewrite length_replicate, unassigned_replicate.
  split_and!; [done | done | | lia].
  apply Forall_replicate. by left.
Qed.

Lemma decoder_inv_join (n i j : nat) (st : list Z * Z) :
  i < n → j < n → decoder_inv n st → decoder_inv n (join_pair i j st).
Proof.
  intros Hi Hj. destruct st as [g gid]. unfold decoder_inv. cbn [fst snd].
  intros (Hlen & Hid & Hall & Hcount). unfold join_pair.
  pose proof (Forall_lookup_total_1 _ g i Hall ltac:(lia)) as Hgi.
  pose proof (Forall_lookup_total_1 _ g j Hall ltac:(lia)) as Hgj.
  cbn beta in Hgi, Hgj.
  destruct (decide (g !!! i = (-1)%Z ∧ g !!! j = (-1)%Z)) as [[Hi1 Hj1]|Hnot];
    [|destruct (decide (g !!! i = (-1)%Z)) as [Hi1|Hi1]]; cbn [fst snd].
  - rewrite !length_insert. split_and!; [done | lia | |].
    + do 2 (apply Forall_insert; [|right; lia]).
      eapply Forall_impl; [exact Hall |]. cbn beta. lia.
    + pose proof (unassigned_insert_new g i gid ltac:(lia) Hi1 ltac:(lia)).
      pose proof (unassigned_insert_le (<[i:=gid]> g) j gid ltac:(lia)). lia.
  - assert (g !!! j ≠ (-1)%Z) as Hj1 by tauto.
    rewrite length_insert. split_and!; [done | done | |].
    + apply Forall_insert; [done |]. right. lia.
    + pose proof (unassigned_insert_le g i (g !!! j) Hj1). lia.
  - rewrite length_insert. split_and!; [done | done | |].
    + apply Forall_insert; [done |]. right. lia.
    + pose proof (unassigned_insert_le g j (g !!! i) Hi1). lia.
Qed.

Lemma decoder_inv_visit (n : nat) (X : list (list nat)) (x : list Q) (i j : nat)
    (st st' : list Z * Z) :
  i < n → j < n → decoder_inv n st → visit_cell X x i j st = Ok st' →
  decoder_inv n st'.
Proof.
  intros Hi Hj Hinv. unfold visit_cell.
  destruct (x !! at2 X i j) as [v|]; [|done].
  destruct (Qlt_le_dec 0 v); intros [= <-]; [by apply decoder_inv_join | done].
Qed.

(** The singleton groups: afterwards every record has a group. *)
Lemma decoder_inv_close (n : nat) (st : list Z * Z) :
  decoder_inv n st →
  decoder_inv n (close_singletons st) ∧
  Forall (λ g, g ≠ (-1)%Z) (close_singletons st).1.
Proof.
  intros Hinv. unfold close_singletons.
  assert (length st.1 = n) as Hn by apply Hinv. rewrite Hn.
  destruct (for_range_inv
    (λ i s, decoder_inv n s ∧ ∀ a, a < i → s.1 !!! a ≠ (-1)%Z)
    (λ i '(groups, groupID),
       if decide (groups !!! i = (-1)%Z)
       then (<[i := groupID]> groups, (groupID + 1)%Z)
       else (groups, groupID)) 0 n st) as [Hfin Hall].
  - lia.
  - split; [done |]. intros a Ha. lia.
  - intros i [g gid] Hi [(Hlen & Hid & Hbound & Hcount) Hdone]. cbn [fst snd] in *.
    case_decide as Hgi; cbn [fst snd].
    + split.
      * unfold decoder_inv. cbn [fst snd]. rewrite length_insert.
        split_and!; [done | lia | |].
        -- apply Forall_insert; [|right; lia].
           eapply Forall_impl; [exact Hbound |]. cbn beta. lia.
        -- pose proof (unassigned_insert_new g i gid ltac:(lia) Hgi ltac:(lia)). lia.
      * intros a Ha. destruct (decide (a = i)) as [->|Hne].
        -- rewrite list_lookup_total_insert_eq by lia. lia.
        -- rewrite list_lookup_total_insert_ne by done. apply Hdone. lia.
    + split; [done |]. intros a Ha. destruct (decide (a = i)) as [->|Hne]; [done |].
      apply Hdone. lia.
  - split; [done |]. apply Forall_forall. intros g Hg.
    apply list_elem_of_lookup_total_1 in Hg as (a & Ha & <-).
    apply Hall. destruct Hfin as [Hl _]. lia.
Qed.

(** The values the decoder reads are there. *)
Lemma decoder_reads (n : nat) (X : list (list nat)) (x : list Q) (i j : nat) :
  variables_matrix n X → 0 < length x → row_start n n ≤ length x →
  i < n → j < n → is_Some (x !! at2 X i j).
Proof.
  intros HX H0 Hlen Hi Hj. apply lookup_lt_is_Some_2. rewrite HX by done.
  case_decide; [|done].
  pose proof (var_index_lt n i j ltac:(lia)). lia.
Qed.

Lemma visit_cell_raises (X : list (list nat)) (x : list Q) (i j : nat)
    (st : list Z * Z) (e : exn) :
  visit_cell X x i j st = Raise e → e = IndexError.
Proof.
  unfold visit_cell. destruct (x !! at2 X i j) as [v|]; [|by intros [= <-]].
  by destruct (Qlt_le_dec 0 v).
Qed.

Lemma visit_cell_Ok (X : list (list nat)) (x : list Q) (i j : nat)
    (st st' : list Z * Z) :
  visit_cell X x i j st = Ok st' → at2 X i j < length x.
Proof.
  unfold visit_cell. destruct (x !! at2 X i j) as [v|] eqn:Hx; [|done].
  intros _. by apply lookup_lt_Some in Hx.
Qed.

Lemma create_partition_Ok (n : nat) (X : list (list nat)) (x : list Q) :
  variables_matrix n X →
  n = 0 ∨ (0 < length x ∧ row_start n n ≤ length x) →
  ∃ groups, create_partition X x n = Ok groups ∧ length groups = n ∧
    Forall (λ g, (0 ≤ g < Z.of_nat n)%Z) groups.
Proof.
  intros HX Hx. unfold create_partition. rewrite initial_groups.
  destruct (forM_range_inv (λ _ s, decoder_inv n s)
    (λ i, forM (range 0 n) (visit_cell X x i)) 0 n
    (replicate n (-1)%Z, 0%Z)) as (st & -> & Hinv).
  - lia.
  - apply decoder_inv_initial.
  - intros i s Hi Hs.
    apply (forM_range_inv (λ _ s, decoder_inv n s) (visit_cell X x i) 0 n s); [lia | done |].
    intros j s' Hj Hs'.
    destruct Hx as [-> | [H0 Hlen]]; [lia |].
    destruct (decoder_reads n X x i j) as [v Hv]; [done | done | done | lia | lia |].
    destruct (visit_cell X x i j s') as [s''|e] eqn:Hvisit.
    + exists s''. split; [done |]. eapply decoder_inv_visit; [| |exact Hs'|exact Hvisit]; lia.
    + unfold visit_cell in Hvisit. rewrite Hv in Hvisit. by destruct (Qlt_le_dec 0 v).
  - destruct (decoder_inv_close n st Hinv) as [(Hlen & Hid & Hbound & Hcount) Hall].
    eexists. split; [done |]. split; [done |].
    apply Forall_forall. intros g Hg.
    pose proof (proj1 (Forall_forall _ _) Hbound g Hg) as Hb.
    pose proof (proj1 (Forall_forall _ _) Hall g Hg) as Ha.
    cbn beta in Hb, Ha. lia.
Qed.

Lemma create_partition_raises (n : nat) (X : list (list nat)) (x : list Q) (e : exn) :
  create_partition X x n = Raise e → e = IndexError.
Proof.
  unfold create_partition.
  destruct (forM _ _ _) as [st|e1] eqn:Hloop; [done |].
  intros [= <-].
  eapply (forM_raises _ IndexError); [|exact Hloop].
  intros i s e2 Hrow.
  eapply (forM_raises _ IndexError); [|exact Hrow].
  intros j t e3. apply visit_cell_raises.
Qed.

Lemma create_partition_Ok_inv (n : nat) (X : list (list nat)) (x : list Q)
    (groups : list Z) :
  variables_matrix n X →
  create_partition X x n = Ok groups →
  n = 0 ∨ (0 < length x ∧ row_start n n ≤ length x).
Proof.
  intros HX. unfold create_partition.
  destruct (forM _ _ _) as [st|e1] eqn:Hloop; [|done]. intros _.
  destruct (decide (n = 0)) as [Hn|Hn]; [by left | right].
  assert (∀ i j, i < n → j < n → at2 X i j < length x) as Hread.
  { intros i j Hi Hj.
    destruct (forM_Ok_each _ _ _ _ Hloop i) as (s & s' & Hrow).
    { apply elem_of_range. lia. }
    destruct (forM_Ok_each _ _ _ _ Hrow j) as (t & t' & Hcell).
    { apply elem_of_range. lia. }
    by eapply visit_cell_Ok. }
  split.
  - pose proof (Hread 0 0 ltac:(lia) ltac:(lia)). lia.
  - destruct (decide (n = 1)) as [->|Hn1]; [simpl; lia |].
    pose proof (Hread (n - 2) (n - 1) ltac:(lia) ltac:(lia)) as Hlast.
    rewrite HX, decide_True in Hlast by lia.
    unfold var_index in Hlast.
    pose proof (row_start_S n (n - 2)) as H1.
    pose proof (row_start_S n (n - 1)) as H2.
    replace (S (n - 2)) with (n - 1) in H1 by lia.
    replace (S (n - 1)) with n in H2 by lia. lia.
Qed.

(** X11. What the decoder does with the values of a solver. It reads a
    value for every cell of the variables matrix, the cells on and below
    the diagonal included, so it needs the value at index 0 even when
    there is no variable (one record): it returns iff there are no
    records, or the solver gave at least one value and at least
    [choose n 2] of them, and raises [IndexError] otherwise. When it
    returns, every record has a group id, and the ids lie between 0 and
    [n - 1]. *)
Theorem decoder_outcome (n : nat) (X : list (list nat)) (x : list Q) :
  variables_matrix n X →
  match create_partition X x n with
  | Ok groups =>
      (n = 0 ∨ (0 < length x ∧ choose n 2 ≤ length x)) ∧
      length groups = n ∧
      ∀ a, a < n → (0 ≤ groups !!! a < Z.of_nat n)%Z
  | Raise e =>
      e = IndexError ∧ 0 < n ∧ (length x = 0 ∨ length x < choose n 2)
  end.
Proof.
  intros HX. rewrite <- row_start_choose.
  destruct (create_partition X x n) as [groups|e] eqn:Hrun.
  - pose proof (create_partition_Ok_inv n X x groups HX Hrun) as Hx.
    destruct (create_partition_Ok n X x HX Hx) as (groups' & Hrun' & Hlen & Hall).
    rewrite Hrun in Hrun'. injection Hrun' as <-.
    split_and!; [done | done |].
    intros a Ha. apply (Forall_lookup_total_1 _ _ _ Hall). lia.
  - split; [by eapply create_partition_raises |].
    destruct (decide (n = 0 ∨ (0 < length x ∧ row_start n n ≤ length x))) as [Hx|Hx].
    + destruct (create_partition_Ok n X x HX Hx) as (groups' & Hrun' & _). congruence.
    + lia.
Qed.

Lemma decoder_outcome_witness :
  match create_partition scenario_A_X scenario_A_x 3 with
  | Ok groups =>
      (3 = 0 ∨ (0 < length scenario_A_x ∧ choose 3 2 ≤ length scenario_A_x)) ∧
      length groups = 3 ∧
      ∀ a, a < 3 → (0 ≤ groups !!! a < Z.of_nat 3)%Z
  | Raise e =>
      e = IndexError ∧ 0 < 3 ∧
      (length scenario_A_x = 0 ∨ length scenario_A_x < choose 3 2)
  end.
Proof.
  apply (decoder_outcome 3 scenario_A_X scenario_A_x).
  intros a b Ha Hb.
  destruct a as [|[|[|a]]]; [| | |lia];
    (destruct b as [|[|[|b]]]; [| | |lia]); reflexivity.
Defined.

(** ** The [run] methods *)

Lemma model_with_sizes (ins : list (list nat) → nat → Cplex → Cplex)
    (c1 c2 c3 : nat → nat → nat → bool) (self : RegnierProblem) (lp_problem : bool) :
  keeps_variables ins →
  (∀ X n p, linear_constraints (ins X n p)
            = linear_constraints p ++ over_triples n (kept c1 c2 c3 X)) →
  get_num (model_with ins self lp_problem).2 = choose (_n self) 2 ∧
  length (linear_constraints (model_with ins self lp_problem).2)
  ≤ 3 * choose (_n self) 3.
Proof.
  intros Hkeeps Hins. split.
  - destruct (model_with_variables ins self lp_problem Hkeeps) as (Hv & _ & _).
    unfold get_num. by rewrite Hv, length_fmap, length_pairs.
  - rewrite (model_constraints ins c1 c2 c3 self lp_problem Hins).
    rewrite <- (length_over_triples (_n self) 3
                  (kept always always always (model_RM self lp_problem).1)) by done.
    apply sublist_length, over_triples_sublist. intros i j k.
    by apply kept_sublist.
Qed.

Lemma model_sizes (self : RegnierProblem) (cut0 : Z) (lp_problem : bool)
    (M : list (list nat) * Cplex) :
  M ∈ [model_RM self lp_problem; model_RMalpha self cut0 lp_problem;
       model_RMbeta self cut0 lp_problem; model_RMgamma self lp_problem] →
  variables_matrix (_n self) M.1 ∧
  get_num M.2 = choose (_n self) 2 ∧
  length (linear_constraints M.2) ≤ 3 * choose (_n self) 3.
Proof.
  intros HM. rewrite !elem_of_cons in HM.
  destruct HM as [-> | [-> | [-> | [-> | HM]]]]; [| | | |by apply elem_of_nil in HM];
    (split; [apply model_variables_matrix |]).
  - apply (model_with_sizes _ always always always);
      [apply keeps_variables_RM | intros; apply insert_constraints_RM_spec].
  - eapply model_with_sizes;
      [apply keeps_variables_RMalpha | intros; apply insert_constraints_RMalpha_spec].
  - eapply model_with_sizes;
      [apply keeps_variables_RMbeta | intros; apply insert_constraints_RMbeta_spec].
  - eapply model_with_sizes;
      [apply keeps_variables_RMgamma | intros; apply insert_constraints_RMgamma_spec].
Qed.

Section run_outcomes.
Variable solve : Cplex → option (Q * list Q).

Lemma solve_and_decode_None (X : list (list nat)) (my_prob : Cplex) (n : nat)
    (h : option Heuristic) :
  solve my_prob = None → solve_and_decode solve X my_prob n h = Ok None.
Proof. intros Hs. unfold solve_and_decode. by rewrite Hs. Qed.

Lemma solve_and_decode_Some (X : list (list nat)) (my_prob : Cplex) (n : nat)
    (h : option Heuristic) (s : Solution) :
  solve_and_decode solve X my_prob n h = Ok (Some s) →
  num_rows s = length (linear_constraints my_prob) ∧
  num_cols s = get_num my_prob ∧
  heuristic s = h ∧
  ∃ x, solve my_prob = Some (objective s, x) ∧ create_partition X x n = Ok (groups s).
Proof.
  unfold solve_and_decode. destruct (solve my_prob) as [[o x]|]; [|done].
  destruct (create_partition X x n) as [g|e] eqn:Hg; [|done].
  intros [= <-]. cbn [num_rows num_cols heuristic objective groups].
  split_and!; [done.. |]. by exists x.
Qed.

Lemma set_heuristic_Some (h : Heuristic) (r : result (option Solution)) (s : Solution) :
  r ≫= set_heuristic h = Ok (Some s) →
  ∃ s0, r = Ok (Some s0) ∧ heuristic s = Some h ∧
    num_rows s = num_rows s0 ∧ num_cols s = num_cols s0 ∧
    objective s = objective s0 ∧ groups s = groups s0.
Proof.
  destruct r as [[s0|]|e]; [|done..].
  intros [= <-]. by exists s0.
Qed.

(** The six [run] methods with the model each one solves and the
    heuristic it records. *)
Lemma run_methods (self : RegnierProblem) (cut0 : Z) (lp_problem : bool)
    (r : result (option Solution)) (M : list (list nat) * Cplex)
    (h : option Heuristic) (s : Solution) :
  (r, M, h) ∈
    [(runRM solve self lp_problem, model_RM self lp_problem, None);
     (runRMalpha solve self cut0 lp_problem, model_RMalpha self cut0 lp_problem, None);
     (runRMbeta solve self cut0 lp_problem, model_RMbeta self cut0 lp_problem, None);
     (runRMgamma solve self lp_problem, model_RMgamma self lp_problem,
      Some (__findNegativeCut self));
     (runRMalphaPlus solve self lp_problem,
      model_RMalpha self (cut (__findPositiveCut self)) lp_problem,
      Some (__findPositiveCut self));
     (runRMbetaPlus solve self lp_problem,
      model_RMbeta self (cut (__findPositiveCut self)) lp_problem,
      Some (__findPositiveCut self))] →
  r = Ok (Some s) →
  (∃ c, M ∈ [model_RM self lp_problem; model_RMalpha self c lp_problem;
             model_RMbeta self c lp_problem; model_RMgamma self lp_problem]) ∧
  num_rows s = length (linear_constraints M.2) ∧
  num_cols s = get_num M.2 ∧
  heuristic s = h ∧
  ∃ x, solve M.2 = Some (objective s, x) ∧
       create_partition M.1 x (_n self) = Ok (groups s).
Proof.
  intros Hin Hr. rewrite !elem_of_cons in Hin.
  destruct Hin as [Hin | [Hin | [Hin | [Hin | [Hin | [Hin | Hin]]]]]];
    [injection Hin as -> -> ->.. | by apply elem_of_nil in Hin].
  - split; [exists cut0; set_solver |]. rewrite runRM_model in Hr.
    by apply solve_and_decode_Some.
  - split; [exists cut0; set_solver |]. rewrite runRMalpha_model in Hr.
    by apply solve_and_decode_Some.
  - split; [exists cut0; set_solver |]. rewrite runRMbeta_model in Hr.
    by apply solve_and_decode_Some.
  - split; [exists cut0; set_solver |]. rewrite runRMgamma_model in Hr.
    by apply solve_and_decode_Some.
  - split; [exists (cut (__findPositiveCut self)); set_solver |].
    unfold runRMalphaPlus in Hr. rewrite runRMalpha_model in Hr.
    apply set_heuristic_Some in Hr as (s0 & Hr & Hh & -> & -> & -> & ->).
    apply solve_and_decode_Some in Hr as (? & ? & _ & ?). done.
  - split; [exists (cut (__findPositiveCut self)); set_solver |].
    unfold runRMbetaPlus in Hr. rewrite runRMbeta_model in Hr.
    apply set_heuristic_Some in Hr as (s0 & Hr & Hh & -> & -> & -> & ->).
    apply solve_and_decode_Some in Hr as (? & ? & _ & ?). done.
Qed.

(** X12. What a [run] method returns when the solver succeeds. Each of
    the six methods solves the model of its variant (the [Plus] methods
    the alpha and beta models at the cut of the positive heuristic) and
    records the heuristic it used, none for [runRM], [runRMalpha] and
    [runRMbeta]. The solution counts [choose n 2] columns and as many rows
    as the model has constraints, at most [3 * choose n 3]; its objective
    is the solver's; its groups are the decoding of the solver's values,
    one id between 0 and [n - 1] for each record. *)
Theorem run_solution (self : RegnierProblem) (cut0 : Z) (lp_problem : bool)
    (r : result (option Solution)) (M : list (list nat) * Cplex)
    (h : option Heuristic) (s : Solution) :
  (r, M, h) ∈
    [(runRM solve self lp_problem, model_RM self lp_problem, None);
     (runRMalpha solve self cut0 lp_problem, model_RMalpha self cut0 lp_problem, None);
     (runRMbeta solve self cut0 lp_problem, model_RMbeta self cut0 lp_problem, None);
     (runRMgamma solve self lp_problem, model_RMgamma self lp_problem,
      Some (__findNegativeCut self));
     (runRMalphaPlus solve self lp_problem,
      model_RMalpha self (cut (__findPositiveCut self)) lp_problem,
      Some (__findPositiveCut self));
     (runRMbetaPlus solve self lp_problem,
      model_RMbeta self (cut (__findPositiveCut self)) lp_problem,
      Some (__findPositiveCut self))] →
  r = Ok (Some s) →
  num_cols s = choose (_n self) 2 ∧
  num_rows s = length (linear_constraints M.2) ∧
  num_rows s ≤ 3 * choose (_n self) 3 ∧
  heuristic s = h ∧
  length (groups s) = _n self ∧
  (∀ a, a < _n self → (0 ≤ groups s !!! a < Z.of_nat (_n self))%Z) ∧
  ∃ x, solve M.2 = Some (objective s, x) ∧
       create_partition M.1 x (_n self) = Ok (groups s).
Proof.
  intros Hin Hr.
  destruct (run_methods self cut0 lp_problem r M h s Hin Hr)
    as ([c HM] & Hrows & Hcols & Hh & x & Hsolve & Hdec).
  destruct (model_sizes self c lp_problem M HM) as (HX & Hnum & Hlen).
  split_and!; [lia | done | lia | done | | | by exists x].
  - pose proof (create_partition_Ok_inv _ _ _ _ HX Hdec) as Hx.
    destruct (create_partition_Ok _ _ _ HX Hx) as (g & Hg & Hl & _). congruence.
  - pose proof (create_partition_Ok_inv _ _ _ _ HX Hdec) as Hx.
    destruct (create_partition_Ok _ _ _ HX Hx) as (g & Hg & _ & Hall).
    rewrite Hdec in Hg. injection Hg as <-.
    intros a Ha. apply (Forall_lookup_total_1 _ _ _ Hall).
    destruct (create_partition_Ok _ _ _ HX Hx) as (g & Hg & Hl & _). congruence.
Qed.

(** X13. What a [run] method does when the solver fails on its model
    (a [CplexError], which the method prints): [runRM], [runRMalpha],
    [runRMbeta] and [runRMgamma] return [None]; [runRMalphaPlus] and
    [runRMbetaPlus] then store the heuristic in that [None] and raise
    [TypeError]. *)
Theorem solver_failure (self : RegnierProblem) (cut0 : Z) (lp_problem : bool) :
  (∀ c M, M ∈ [model_RM self lp_problem; model_RMalpha self c lp_problem;
               model_RMbeta self c lp_problem; model_RMgamma self lp_problem] →
          solve M.2 = None) →
  runRM solve self lp_problem = Ok None ∧
  runRMalpha solve self cut0 lp_problem = Ok None ∧
  runRMbeta solve self cut0 lp_problem = Ok None ∧
  runRMgamma solve self lp_problem = Ok None ∧
  runRMalphaPlus solve self lp_problem = Raise TypeError ∧
  runRMbetaPlus solve self lp_problem = Raise TypeError.
Proof.
  intros Hfail.
  unfold runRMalphaPlus, runRMbetaPlus.
  rewrite runRM_model, !runRMalpha_model, !runRMbeta_model, runRMgamma_model.
  split_and!.
  - apply solve_and_decode_None, (Hfail cut0). set_solver.
  - apply solve_and_decode_None, (Hfail cut0). set_solver.
  - apply solve_and_decode_None, (Hfail cut0). set_solver.
  - apply solve_and_decode_None, (Hfail cut0). set_solver.
  - rewrite solve_and_decode_None; [done |].
    apply (Hfail (cut (__findPositiveCut self))). set_solver.
  - rewrite solve_and_decode_None; [done |].
    apply (Hfail (cut (__findPositiveCut self))). set_solver.
Qed.
End run_outcomes.

Lemma run_solution_witness :
  let solve := λ _ : Cplex, Some (2%Q, scenario_A_x) in
  let s := mkSolution 3 3 2%Q None [0; 0; 0]%Z in
  let M := model_RM scenario_A_self false in
  num_cols s = choose 3 2 ∧
  num_rows s = length (linear_constraints M.2) ∧
  num_rows s ≤ 3 * choose 3 3 ∧
  heuristic s = None ∧
  length (groups s) = 3 ∧
  (∀ a, a < 3 → (0 ≤ groups s !!! a < Z.of_nat 3)%Z) ∧
  ∃ x, solve M.2 = Some (objective s, x) ∧
       create_partition M.1 x 3 = Ok (groups s).
Proof.
  apply (run_solution (λ _, Some (2%Q, scenario_A_x)) scenario_A_self 0 false
           (runRM (λ _, Some (2%Q, scenario_A_x)) scenario_A_self false)
           (model_RM scenario_A_self false) None
           (mkSolution 3 3 2%Q None [0; 0; 0]%Z)).
  - left.
  - vm_compute. reflexivity.
Defined.

Lemma solver_failure_witness :
  let solve := λ _ : Cplex, @None (Q * list Q) in
  runRM solve scenario_A_self false = Ok None ∧
  runRMalpha solve scenario_A_self 0 false = Ok None ∧
  runRMbeta solve scenario_A_self 0 false = Ok None ∧
  runRMgamma solve scenario_A_self false = Ok None ∧
  runRMalphaPlus solve scenario_A_self false = Raise TypeError ∧
  runRMbetaPlus solve scenario_A_self false = Raise TypeError.
Proof.
  apply (solver_failure (λ _, None) scenario_A_self 0 false).
  intros c M HM. reflexivity.
Defined.

(** ** The decoder on the values of a partition *)

Lemma insert_total (g : list Z) (i a : nat) (v : Z) :
  i < length g → <[i:=v]> g !!! a = if decide (a = i) then v else g !!! a.
Proof.
  intros Hi. case_decide as Ha.
  - subst. by apply list_lookup_total_insert_eq.
  - by apply list_lookup_total_insert_ne.
Qed.

Section partition_values.
Variable n : nat.
Variable X : list (list nat).
Variable x : list Q.
Variable v0 : Q.
Variable c : nat → nat.
Hypothesis HX : variables_matrix n X.
Hypothesis Hx0 : x !! 0 = Some v0.
Hypothesis Hv0 : (v0 <= 0)%Q.
Hypothesis Hlen : row_start n n ≤ length x.
Hypothesis Hc : ∀ a b v, a < b → b < n → x !! var_index n a b = Some v →
  ((0 < v)%Q ↔ c a = c b).

Lemma assigned_by_next_row (i a : nat) :
  assigned_by c n i n a ↔ assigned_by c n (S i) 0 a.
Proof.
  unfold assigned_by.
  split; intros (p & q & Hd & Hpq & Hq & Hcpq & Ha); exists p, q;
    (split_and!; [lia | done..]).
Qed.

Lemma assigned_by_row_start (i a : nat) :
  assigned_by c n i 0 a ↔ assigned_by c n i (i + 1) a.
Proof.
  unfold assigned_by.
  split; intros (p & q & Hd & Hpq & Hq & Hcpq & Ha); exists p, q;
    (split_and!; [lia | done..]).
Qed.

Lemma assigned_by_skip (i j a : nat) :
  c i ≠ c j → (assigned_by c n i j a ↔ assigned_by c n i (S j) a).
Proof.
  intros Hne. unfold assigned_by.
  split; intros (p & q & Hd & Hpq & Hq & Hcpq & Ha); exists p, q;
    (split_and!; [|done..]).
  - lia.
  - destruct (decide (p = i ∧ q = j)) as [[-> ->]|]; [done | lia].
Qed.

Lemma assigned_by_join (i j a : nat) :
  i < j → j < n → c i = c j →
  (assigned_by c n i (S j) a ↔ assigned_by c n i j a ∨ a = i ∨ a = j).
Proof.
  intros Hij Hj Heq. unfold assigned_by. split.
  - intros (p & q & Hd & Hpq & Hq & Hcpq & Ha).
    destruct (decide (p = i ∧ q = j)) as [[-> ->]|]; [tauto |].
    left. exists p, q. split_and!; [lia | done..].
  - intros [(p & q & Hd & Hpq & Hq & Hcpq & Ha) | Ha].
    + exists p, q. split_and!; [lia | done..].
    + exists i, j. split_and!; [lia | done..].
Qed.

(** A record of the cluster of [i] that has a group shows that [i] has
    one. *)
Lemma assigned_class (i j b : nat) (st : list Z * Z) :
  pairs_inv c n i j st → i < n → b < n →
  st.1 !!! b ≠ (-1)%Z → c b = c i → st.1 !!! i ≠ (-1)%Z.
Proof.
  intros [_ Has] Hi Hb Hab Hcb.
  apply Has in Hab as (p & q & Hd & Hpq & Hq & Hcpq & Hbpq); [|done].
  apply Has; [done |].
  destruct (decide (p = i)) as [->|Hpi].
  - exists i, q. split_and!; [done.. | by left].
  - exists p, i. split_and!; [lia | lia | done | | by right].
    destruct Hbpq as [-> | ->]; congruence.
Qed.

Lemma pairs_inv_skip (i j : nat) (st : list Z * Z) :
  c i ≠ c j → pairs_inv c n i j st → pairs_inv c n i (S j) st.
Proof.
  intros Hne [Hcl Has]. split; [done |].
  intros a Ha. rewrite Has by done. by apply assigned_by_skip.
Qed.

Lemma pairs_inv_join (i j : nat) (st : list Z * Z) :
  i < j → j < n → c i = c j →
  pairs_inv c n i j st → pairs_inv c n i (S j) (join_pair i j st).
Proof.
  intros Hij Hj Heq Hinv.
  pose proof (assigned_class i j) as Hclass.
  specialize (Hclass j st Hinv ltac:(lia) Hj).
  destruct Hinv as [(Hl & Hid & Hbound & Hsame) Has].
  destruct st as [g gid]. cbn [fst snd] in *. unfold join_pair.
  destruct (decide (g !!! i = (-1)%Z ∧ g !!! j = (-1)%Z)) as [[Hgi Hgj]|Hnot];
    [|destruct (decide (g !!! i = (-1)%Z)) as [Hgi|Hgi]].
  - (* a new group *)
    assert (∀ a, <[j:=gid]> (<[i:=gid]> g) !!! a
                 = if decide (a = i ∨ a = j) then gid else g !!! a) as Hlook.
    { intros a. rewrite insert_total by (rewrite length_insert; lia).
      rewrite insert_total by lia. repeat case_decide; try done; lia. }
    assert (∀ b, b < n → g !!! b ≠ (-1)%Z → c b ≠ c i) as Hfresh.
    { intros b Hb Hgb Hcb.
      assert (pairs_inv c n i j (g, gid)) as Hinv.
      { split; [split_and!; done |]. done. }
      by apply (assigned_class i j b (g, gid) Hinv ltac:(lia) Hb Hgb Hcb). }
    split; [split_and!|]; cbn [fst snd].
    + by rewrite !length_insert.
    + lia.
    + intros a Ha. rewrite Hlook. case_decide; [right; lia |].
      destruct (Hbound a Ha); [by left | right; lia].
    + intros a b Ha Hb. rewrite !Hlook.
      destruct (decide (a = i ∨ a = j)) as [Hai|Hai];
        destruct (decide (b = i ∨ b = j)) as [Hbi|Hbi]; intros Hga Hgb.
      * split; [|done]. intros _. destruct Hai as [-> | ->], Hbi as [-> | ->]; congruence.
      * pose proof (Hfresh b Hb Hgb) as Hcb.
        destruct (Hbound b Hb) as [|Hlt]; [done |].
        split; [lia |]. intros Hab. exfalso. apply Hcb.
        destruct Hai as [-> | ->]; congruence.
      * pose proof (Hfresh a Ha Hga) as Hca.
        destruct (Hbound a Ha) as [|Hlt]; [done |].
        split; [lia |]. intros Hab. exfalso. apply Hca.
        destruct Hbi as [-> | ->]; congruence.
      * by apply Hsame.
    + intros a Ha. rewrite Hlook, assigned_by_join by done.
      rewrite <- Has by done.
      case_decide as Hai; [|tauto]. split; [tauto | lia].
  - (* [j] has a group and [i] has none: not on the values of a partition *)
    exfalso. apply Hclass; [tauto | done | done].
  - (* [j] joins the group of [i] *)
    assert (∀ a, <[j:=g !!! i]> g !!! a
                 = if decide (a = j) then g !!! i else g !!! a) as Hlook.
    { intros a. by rewrite insert_total by lia. }
    split; [split_and!|]; cbn [fst snd].
    + by rewrite length_insert.
    + done.
    + intros a Ha. rewrite Hlook. case_decide; [|by apply Hbound].
      apply Hbound. lia.
    + intros a b Ha Hb. rewrite !Hlook.
      destruct (decide (a = j)) as [->|Haj]; destruct (decide (b = j)) as [->|Hbj];
        intros Hga Hgb.
      * done.
      * rewrite (Hsame i b) by (done || lia). by rewrite Heq.
      * rewrite (Hsame a i) by (done || lia). by rewrite Heq.
      * by apply Hsame.
    + intros a Ha. rewrite Hlook, assigned_by_join by done.
      rewrite <- !Has by (done || lia).
      case_decide as Haj; [tauto |].
      split; [tauto |]. intros [? | [-> | ->]]; done.
Qed.

Lemma pairs_inv_visit (i j : nat) (st : list Z * Z) :
  i < j → j < n → pairs_inv c n i j st →
  ∃ st', visit_cell X x i j st = Ok st' ∧ pairs_inv c n i (S j) st'.
Proof using HX Hlen Hc.
  intros Hij Hj Hinv.
  assert (at2 X i j = var_index n i j) as Hidx.
  { rewrite HX by lia. by rewrite decide_True. }
  destruct (lookup_lt_is_Some_2 x (var_index n i j)) as [v Hv].
  { pose proof (var_index_lt n i j ltac:(lia)). lia. }
  pose proof (Hc i j v Hij Hj Hv) as Hpos.
  destruct (Qlt_le_dec 0 v) as [Hlt|Hle].
  - exists (join_pair i j st). split.
    + apply (visit_cell_active _ _ _ _ _ v); [by rewrite Hidx | done].
    + apply pairs_inv_join; [done | done | by apply Hpos | done].
  - exists st. split.
    + apply (visit_cell_inactive _ _ _ _ _ v); [by rewrite Hidx | done].
    + apply pairs_inv_skip; [|done]. intros Heq. apply Hpos in Heq.
      by apply Qlt_not_le in Heq.
Qed.

Lemma pairs_inv_row (i : nat) (st : list Z * Z) :
  i < n → pairs_inv c n i 0 st →
  ∃ st', forM (range (i + 1) n) (visit_cell X x i) st = Ok st' ∧
         pairs_inv c n (S i) 0 st'.
Proof using HX Hlen Hc.
  intros Hi [Hcl Has].
  destruct (forM_range_inv (λ j s, pairs_inv c n i j s) (visit_cell X x i)
              (i + 1) n st) as (st' & Hrun & Hcl' & Has').
  - lia.
  - split; [done |]. intros a Ha. rewrite Has by done. apply assigned_by_row_start.
  - intros j s Hj Hs. apply pairs_inv_visit; [lia | lia | done].
  - exists st'. split; [done |]. split; [done |].
    intros a Ha. rewrite Has' by done. apply assigned_by_next_row.
Qed.

Lemma pairs_inv_initial : pairs_inv c n 0 0 (replicate n (-1)%Z, 0%Z).
Proof.
  split; [split_and!|]; cbn [fst snd].
  - apply length_replicate.
  - done.
  - intros a Ha. left. by apply lookup_total_replicate_2.
  - intros a b Ha Hb Hga. by rewrite lookup_total_replicate_2 in Hga.
  - intros a Ha. rewrite lookup_total_replicate_2 by done. split; [done |].
    intros (p & q & Hd & _). lia.
Qed.

Lemma pairs_inv_close (st : list Z * Z) :
  pairs_inv c n n 0 st →
  length (close_singletons st).1 = n ∧
  ∀ a b, a < n → b < n →
    ((close_singletons st).1 !!! a = (close_singletons st).1 !!! b ↔ c a = c b).
Proof.
  intros [Hcl Has]. unfold close_singletons.
  assert (length st.1 = n) as Hn by apply Hcl. rewrite Hn.
  destruct (for_range_inv
    (λ i s, clusters_inv c n s ∧
            (∀ a b, a < n → b < n → s.1 !!! a = (-1)%Z → c a = c b → a = b) ∧
            (∀ a, a < i → s.1 !!! a ≠ (-1)%Z))
    (λ i '(groups, groupID),
       if decide (groups !!! i = (-1)%Z)
       then (<[i := groupID]> groups, (groupID + 1)%Z)
       else (groups, groupID)) 0 n st) as ((Hl & Hid & Hbound & Hsame) & _ & Hall).
  - lia.
  - split_and!; [done | |intros a Ha; lia].
    intros a b Ha Hb Hga Hcab.
    destruct (decide (a = b)) as [|Hne]; [done |]. exfalso.
    assert (st.1 !!! a ≠ (-1)%Z) as Hassigned; [|done].
    apply Has; [done |].
    destruct (decide (a < b)).
    + exists a, b. split_and!; [lia | lia | done | done | by left].
    + exists b, a. split_and!; [lia | lia | done | done | by right].
  - intros i [g gid] Hi ((Hl & Hid & Hbound & Hsame) & Hsingle & Hdone).
    cbn [fst snd] in *.
    case_decide as Hgi; cbn [fst snd]; [|split_and!].
    + assert (∀ a, <[i:=gid]> g !!! a = if decide (a = i) then gid else g !!! a) as Hlook.
      { intros a. by rewrite insert_total by lia. }
      split_and!; [split_and!| |]; cbn [fst snd].
      * by rewrite length_insert.
      * lia.
      * intros a Ha. rewrite Hlook. case_decide; [right; lia |].
        destruct (Hbound a Ha); [by left | right; lia].
      * intros a b Ha Hb. rewrite !Hlook.
        destruct (decide (a = i)) as [->|Hai]; destruct (decide (b = i)) as [->|Hbi];
          intros Hga Hgb.
        -- done.
        -- destruct (Hbound b Hb) as [|Hlt]; [done |].
           split; [lia |]. intros Hcab. exfalso. apply Hbi. symmetry.
           by apply (Hsingle i b).
        -- destruct (Hbound a Ha) as [|Hlt]; [done |].
           split; [lia |]. intros Hcab. exfalso. apply Hai. symmetry.
           by apply (Hsingle i a).
        -- by apply Hsame.
      * intros a b Ha Hb. rewrite Hlook. case_decide; [lia |]. by apply Hsingle.
      * intros a Ha. rewrite Hlook. case_decide; [lia |]. apply Hdone. lia.
    + done.
    + done.
    + intros a Ha. destruct (decide (a = i)) as [->|]; [done |]. apply Hdone. lia.
  - split; [done |]. intros a b Ha Hb. apply Hsame; auto.
Qed.

Lemma create_partition_pairs_correct :
  ∃ groups, create_partition_pairs X x n = Ok groups ∧ length groups = n ∧
    ∀ a b, a < n → b < n → (groups !!! a = groups !!! b ↔ c a = c b).
Proof using HX Hlen Hc.
  unfold create_partition_pairs. rewrite initial_groups.
  destruct (forM_range_inv (λ i s, pairs_inv c n i 0 s)
              (λ i, forM (range (i + 1) n) (visit_cell X x i)) 0 n
              (replicate n (-1)%Z, 0%Z)) as (st & -> & Hinv).
  - lia.
  - apply pairs_inv_initial.
  - intros i s Hi Hs. apply pairs_inv_row; [lia | done].
  - destruct (pairs_inv_close st Hinv) as [Hl Hsame]. eexists. split; [done |]. done.
Qed.

Lemma create_partition_correct :
  ∃ groups, create_partition X x n = Ok groups ∧ length groups = n ∧
    ∀ a b, a < n → b < n → (groups !!! a = groups !!! b ↔ c a = c b).
Proof using HX Hx0 Hv0 Hlen Hc.
  rewrite (first_pair_apart n X x v0) by done.
  apply create_partition_pairs_correct.
Qed.
End partition_values.

(** X14. The decoder on the values of a partition. When the solver's
    values say which pairs of records are together (the value of a pair is
    positive exactly when its two records are in one cluster) and the
    value at index 0 is not positive, the decoder returns, and two records
    get the same group id exactly when they are in one cluster. *)
Theorem decoder_correct (n : nat) (X : list (list nat)) (x : list Q) (v0 : Q)
    (c : nat → nat) :
  variables_matrix n X →
  x !! 0 = Some v0 → (v0 <= 0)%Q →
  choose n 2 ≤ length x →
  (∀ a b v, a < b → b < n → x !! var_index n a b = Some v →
            ((0 < v)%Q ↔ c a = c b)) →
  ∃ groups, create_partition X x n = Ok groups ∧ length groups = n ∧
    ∀ a b, a < n → b < n → (groups !!! a = groups !!! b ↔ c a = c b).
Proof.
  intros HX Hx0 Hv0 Hlen Hc. rewrite <- row_start_choose in Hlen.
  by apply (create_partition_correct n X x v0 c).
Qed.

Lemma decoder_correct_witness :
  ∃ groups, create_partition scenario_A_X [0; 1; 0]%Q 3 = Ok groups ∧ length groups = 3 ∧
    ∀ a b, a < 3 → b < 3 →
      (groups !!! a = groups !!! b
       ↔ (if decide (a = 1) then 1 else 0) = (if decide (b = 1) then 1 else 0)).
Proof.
  apply (decoder_correct 3 scenario_A_X [0; 1; 0]%Q 0%Q
           (λ a, if decide (a = 1) then 1 else 0)).
  - intros a b Ha Hb.
    destruct a as [|[|[|a]]]; [| | |lia];
      (destruct b as [|[|[|b]]]; [| | |lia]); reflexivity.
  - reflexivity.
  - unfold Qle. simpl. lia.
  - simpl. lia.
  - intros a b v Hab Hb Hv.
    destruct a as [|[|a]]; (destruct b as [|[|[|b]]]; try lia);
      vm_compute in Hv; injection Hv as <-; vm_compute; split; intros H;
      try reflexivity; try discriminate H; try lia.
Defined.

(** ** The decoder when the first value is positive *)

Lemma join_pair_assigned (i j : nat) (g : list Z) (gid : Z) :
  g !!! i ≠ (-1)%Z → join_pair i j (g, gid) = (<[j := g !!! i]> g, gid).
Proof.
  intros Hgi. unfold join_pair.
  rewrite decide_False by tauto. by rewrite decide_False.
Qed.

Section one_group.
Variable n : nat.
Variable X : list (list nat).
Variable x : list Q.
Variable v0 : Q.
Hypothesis HX : variables_matrix n X.
Hypothesis Hlen : row_start n n ≤ length x.
Hypothesis Hx0 : x !! 0 = Some v0.
Hypothesis Hv0 : (0 < v0)%Q.

(** A cell of row [i] visited when [i] is in group 0 leaves the state as
    it is or puts its column in group 0. *)
Lemma one_group_cell (i j : nat) (st : list Z * Z) :
  i < n → j < n → one_group_inv n st → st.1 !!! i = 0%Z →
  ∃ st', visit_cell X x i j st = Ok st' ∧ one_group_inv n st' ∧
    st'.1 !!! i = 0%Z ∧ ∀ a, st.1 !!! a = 0%Z → st'.1 !!! a = 0%Z.
Proof using HX Hlen Hx0.
  clear Hv0. intros Hi Hj (Hl & Hid & Hall) Hgi.
  destruct (decoder_reads n X x i j) as [v Hv];
    [done | by apply lookup_lt_Some in Hx0 | done | done | done |].
  destruct (Qlt_le_dec 0 v) as [Hlt|Hle].
  - rewrite (visit_cell_active _ _ _ _ _ v) by done.
    destruct st as [g gid]. cbn [fst snd] in *.
    rewrite join_pair_assigned by lia. rewrite Hgi.
    eexists. split; [done |]. cbn [fst snd].
    split_and!.
    + split_and!; cbn [fst snd]; [by rewrite length_insert | done |].
      apply Forall_insert; [done | by right].
    + rewrite insert_total by lia. by case_decide.
    + intros a Ha. rewrite insert_total by lia. by case_decide.
  - rewrite (visit_cell_inactive _ _ _ _ _ v) by done.
    exists st. by split_and!.
Qed.

(** The first cell of a row puts the record of the row in group 0. *)
Lemma one_group_first_cell (i : nat) (st : list Z * Z) :
  i < n →
  (i = 0 ∧ st = (replicate n (-1)%Z, 0%Z)) ∨
  (0 < i ∧ one_group_inv n st ∧ ∀ a, a < i → st.1 !!! a = 0%Z) →
  ∃ st', visit_cell X x i 0 st = Ok st' ∧ one_group_inv n st' ∧
    ∀ a, a < S i → st'.1 !!! a = 0%Z.
Proof using HX Hx0 Hv0.
  clear Hlen. intros Hi Hst.
  rewrite (visit_cell_active _ _ _ _ _ v0);
    [|by rewrite HX, decide_False by lia | done].
  eexists. split; [done |].
  destruct Hst as [[-> ->] | (Hpos & (Hl & Hid & Hall) & Hdone)].
  - unfold join_pair.
    rewrite decide_True by (by rewrite lookup_total_replicate_2).
    cbn [fst snd]. split.
    + split_and!; cbn [fst snd].
      * by rewrite !length_insert, length_replicate.
      * done.
      * do 2 (apply Forall_insert; [|by right]). apply Forall_replicate. by left.
    + intros a Ha. replace a with 0 by lia.
      by rewrite list_lookup_total_insert_eq by (by rewrite length_insert, length_replicate).
  - destruct st as [g gid]. cbn [fst snd] in *.
    pose proof (Hdone 0 Hpos) as Hg0.
    pose proof (Forall_lookup_total_1 _ g i Hall ltac:(lia)) as Hgi. cbn beta in Hgi.
    unfold join_pair. rewrite decide_False by lia.
    destruct (decide (g !!! i = (-1)%Z)) as [Hi1|Hi1]; cbn [fst snd].
    + rewrite Hg0. split.
      * split_and!; cbn [fst snd]; [by rewrite length_insert | done |].
        apply Forall_insert; [done | by right].
      * intros a Ha. rewrite insert_total by lia.
        case_decide; [done |]. apply Hdone. lia.
    + assert (g !!! i = 0%Z) as -> by lia. split.
      * split_and!; cbn [fst snd]; [by rewrite length_insert | done |].
        apply Forall_insert; [done | by right].
      * intros a Ha. rewrite insert_total by lia.
        case_decide; [done |].
        destruct (decide (a = i)) as [->|]; [lia |]. apply Hdone. lia.
Qed.

Lemma one_group_row (i : nat) (st : list Z * Z) :
  i < n →
  (i = 0 ∧ st = (replicate n (-1)%Z, 0%Z)) ∨
  (0 < i ∧ one_group_inv n st ∧ ∀ a, a < i → st.1 !!! a = 0%Z) →
  ∃ st', forM (range 0 n) (visit_cell X x i) st = Ok st' ∧ one_group_inv n st' ∧
    ∀ a, a < S i → st'.1 !!! a = 0%Z.
Proof using HX Hlen Hx0 Hv0.
  intros Hi Hst.
  rewrite (range_split 0 1 n), forM_app by lia.
  change (range 0 1) with [0]. cbn [forM].
  destruct (one_group_first_cell i st Hi Hst) as (s1 & -> & Hinv1 & Hdone1).
  cbn [mbind result_bind].
  destruct (forM_range_inv
    (λ _ s, one_group_inv n s ∧ ∀ a, a < S i → s.1 !!! a = 0%Z)
    (visit_cell X x i) 1 n s1) as (st' & Hrun & Hinv' & Hdone').
  - lia.
  - done.
  - intros j s Hj [Hinv Hdone].
    destruct (one_group_cell i j s) as (s' & Hs' & Hinv' & _ & Hkeep);
      [lia | lia | done | apply Hdone; lia |].
    exists s'. split_and!; [done | done |].
    intros a Ha. apply Hkeep, Hdone. done.
  - exists st'. rewrite Hrun. done.
Qed.

Lemma one_group_partition : create_partition X x n = Ok (replicate n 0%Z).
Proof using HX Hlen Hx0 Hv0.
  unfold create_partition. rewrite initial_groups.
  destruct (forM_range_inv
    (λ i s, (i = 0 ∧ s = (replicate n (-1)%Z, 0%Z)) ∨
            (0 < i ∧ one_group_inv n s ∧ ∀ a, a < i → s.1 !!! a = 0%Z))
    (λ i, forM (range 0 n) (visit_cell X x i)) 0 n
    (replicate n (-1)%Z, 0%Z)) as ([g gid] & -> & Hfin).
  - lia.
  - by left.
  - intros i s Hi Hs.
    destruct (one_group_row i s) as (s' & Hs' & Hinv' & Hdone'); [lia | done |].
    exists s'. split; [done |]. right. split_and!; [lia | done | done].
  - cbn [mbind result_bind].
    destruct Hfin as [[Hn0 [= -> ->]] | (Hn & (Hl & Hid & Hall) & Hdone)].
    + rewrite Hn0. done.
    + cbn [fst snd] in *. rewrite close_singletons_assigned.
      * simpl. f_equal. by apply replicate_total.
      * intros a Ha. rewrite Hdone by lia. done.
Qed.
End one_group.

(** X15. Whenever the solver's value at index 0, the variable of the pair
    of the first two records, is positive, the decoder puts all the
    records in group 0, whatever the other values are: every cell on or
    below the diagonal of the variables matrix holds index 0 and joins its
    two records. *)
Theorem positive_first_value (n : nat) (X : list (list nat)) (x : list Q) (v0 : Q) :
  variables_matrix n X →
  choose n 2 ≤ length x →
  x !! 0 = Some v0 → (0 < v0)%Q →
  create_partition X x n = Ok (replicate n 0%Z).
Proof.
  intros HX Hlen Hx0 Hv0. rewrite <- row_start_choose in Hlen.
  by apply (one_group_partition n X x v0).
Qed.

Lemma positive_first_value_witness :
  create_partition scenario_B_X [1; 0; 0; 0; 0; 1]%Q 4 = Ok (replicate 4 0%Z).
Proof.
  apply (positive_first_value 4 scenario_B_X [1; 0; 0; 0; 0; 1]%Q 1%Q).
  - intros a b Ha Hb.
    destruct a as [|[|[|[|a]]]]; [| | | |lia];
      (destruct b as [|[|[|[|b]]]]; [| | | |lia]); reflexivity.
  - simpl. lia.
  - reflexivity.
  - reflexivity.
Defined.

(** ** The cut the heuristics return *)

Lemma delete_edges_twice (w1 w2 : Z) (g : Graph) :
  (w1 ≤ w2)%Z →
  delete_edges_weight_lt w2 (delete_edges_weight_lt w1 g) = delete_edges_weight_lt w2 g.
Proof.
  intros Hle. unfold delete_edges_weight_lt. cbn [vcount es]. f_equal.
  induction (es g) as [|e l IH]; [done |].
  rewrite (filter_cons (λ e, ¬ (e.2 < w1)%Z)), (filter_cons (λ e, ¬ (e.2 < w2)%Z) e l).
  destruct (decide (¬ (e.2 < w1)%Z)) as [H1|H1];
    destruct (decide (¬ (e.2 < w2)%Z)) as [H2|H2].
  - rewrite filter_cons_True by done. by rewrite IH.
  - rewrite filter_cons_False by done. done.
  - lia.
  - done.
Qed.

Lemma delete_edges_well_formed (w : Z) (g : Graph) :
  well_formed g → well_formed (delete_edges_weight_lt w g).
Proof.
  intros Hwf e He. unfold delete_edges_weight_lt in He. cbn [es vcount] in *.
  apply list_elem_of_filter in He as [_ He]. by apply Hwf.
Qed.

Lemma delete_edges_adjacent (w w' : Z) (g : Graph) (a b : nat) :
  (w ≤ w')%Z →
  adjacent (delete_edges_weight_lt w' g) a b → adjacent (delete_edges_weight_lt w g) a b.
Proof.
  intros Hle [wt Hin]. exists wt. unfold delete_edges_weight_lt in *. cbn [es] in *.
  rewrite !list_elem_of_filter in Hin. rewrite !list_elem_of_filter.
  cbn [snd] in *. destruct Hin as [[Hwt Hin] | [Hwt Hin]]; [left | right]; (split; [lia | done]).
Qed.

(** A graph that is connected above a threshold is connected above every
    smaller one. *)
Lemma connected_above_mono (w w' : Z) (g : Graph) :
  well_formed g → (w ≤ w')%Z →
  is_connected (delete_edges_weight_lt w' g) = true →
  is_connected (delete_edges_weight_lt w g) = true.
Proof.
  intros Hwf Hle.
  rewrite !is_connected_spec by (by apply delete_edges_well_formed).
  cbn [vcount delete_edges_weight_lt]. intros [Hn Hall]. split; [done |].
  intros v Hv. eapply rtc_subrel; [|by apply Hall].
  intros a b. by apply delete_edges_adjacent.
Qed.

(** The search over increasing cuts, the graph being the graph [g0]
    without its edges lighter than [lo]: it returns the starting value
    when every cut disconnects [g0], and otherwise the largest cut that
    leaves [g0] connected. *)
Lemma test_cuts_sorted (g0 : Graph) (cuts : list Z) :
  well_formed g0 → StronglySorted Z.le cuts →
  ∀ lo best, (∀ w, w ∈ cuts → (lo ≤ w)%Z) →
    (test_cuts cuts (delete_edges_weight_lt lo g0) best = best ∧
     ∀ w, w ∈ cuts → is_connected (delete_edges_weight_lt w g0) = false) ∨
    (test_cuts cuts (delete_edges_weight_lt lo g0) best ∈ cuts ∧
     is_connected
       (delete_edges_weight_lt (test_cuts cuts (delete_edges_weight_lt lo g0) best) g0)
     = true ∧
     ∀ w, w ∈ cuts →
       (test_cuts cuts (delete_edges_weight_lt lo g0) best < w)%Z →
       is_connected (delete_edges_weight_lt w g0) = false).
Proof.
  intros Hwf Hsorted. induction Hsorted as [|w0 cuts Hsorted IH Hall]; intros lo best Hlo.
  - left. split; [done |]. intros w Hw. by apply elem_of_nil in Hw.
  - cbn [test_cuts]. rewrite delete_edges_twice by (apply Hlo; left).
    destruct (is_connected (delete_edges_weight_lt w0 g0)) eqn:Hconn.
    + right.
      destruct (IH w0 w0) as [[-> Hnone] | (Hin & Hc & Habove)].
      { intros w Hw. by apply (proj1 (Forall_forall _ _) Hall). }
      * split_and!; [left | done |].
        intros w Hw Hlt. apply elem_of_cons in Hw as [-> | Hw]; [lia |]. by apply Hnone.
      * split_and!; [by right | done |].
        intros w Hw Hlt. apply elem_of_cons in Hw as [-> | Hw]; [|by apply Habove].
        pose proof (proj1 (Forall_forall _ _) Hall _ Hin). lia.
    + left. split; [done |].
      intros w Hw.
      assert (w0 ≤ w)%Z as Hle.
      { apply elem_of_cons in Hw as [-> | Hw]; [done |].
        by apply (proj1 (Forall_forall _ _) Hall). }
      destruct (is_connected (delete_edges_weight_lt w g0)) eqn:Hw'; [|done].
      by rewrite (connected_above_mono w0 w g0 Hwf Hle Hw') in Hconn.
Qed.

Lemma signed_bottleneck (keep : Z → Prop) `{∀ w, Decision (keep w)}
    (S : list (list Z)) (n : nat) :
  let G := (signed_graph keep S n).1 in
  let W := (signed_graph keep S n).2 in
  let c := test_cuts (sorted W) G 0%Z in
  is_connected G = true → W ≠ [] →
  c ∈ W ∧
  is_connected (delete_edges_weight_lt c G) = true ∧
  ∀ w, w ∈ W → (c < w)%Z → is_connected (delete_edges_weight_lt w G) = false.
Proof.
  intros G W c Hconn Hne. subst c.
  destruct (sorted W) as [|w0 rest] eqn:Hs.
  { apply (proj1 (sorted_nil W)) in Hs. contradiction. }
  pose proof (first_cut_deletes_nothing keep S n w0 rest Hs) as Hfirst.
  fold G in Hfirst.
  destruct (test_cuts_sorted G (w0 :: rest)) with (lo := w0) (best := 0%Z)
    as [[_ Hnone] | (Hin & Hc & Habove)].
  - apply signed_graph_well_formed.
  - rewrite <- Hs. apply StronglySorted_merge_sort; apply _.
  - intros w Hw. apply (sorted_head_least W w0 rest Hs).
    apply elem_of_sorted. by rewrite Hs.
  - specialize (Hnone w0 ltac:(left)). rewrite Hfirst in Hnone. congruence.
  - rewrite Hfirst in Hin, Hc, Habove. split_and!.
    + apply elem_of_sorted. by rewrite Hs.
    + done.
    + intros w Hw. apply Habove. rewrite <- Hs. by apply elem_of_sorted.
Qed.

(** X16. What the cut of a heuristic is when its graph is connected and
    it collected some weight: the largest collected weight [c] such that
    the graph restricted to the edges of weight at least [c] is still
    connected. It is a collected weight, the graph without the edges
    lighter than it is connected, and at every larger collected weight the
    graph falls apart. *)
Theorem heuristic_bottleneck (self : RegnierProblem) (G : Graph) (W : list Z) (c : Z) :
  (G, W, c) ∈
    [((positive_graph (_S self) (_n self)).1, (positive_graph (_S self) (_n self)).2,
      cut (__findPositiveCut self));
     ((negative_graph (_S self) (_n self)).1, (negative_graph (_S self) (_n self)).2,
      cut (__findNegativeCut self))] →
  is_connected G = true → W ≠ [] →
  c ∈ W ∧
  is_connected (delete_edges_weight_lt c G) = true ∧
  ∀ w, w ∈ W → (c < w)%Z → is_connected (delete_edges_weight_lt w G) = false.
Proof.
  intros Hin. rewrite !elem_of_cons in Hin.
  destruct Hin as [[= -> -> ->] | [[= -> -> ->] | Hin]]; [| |by apply elem_of_nil in Hin].
  - rewrite findPositiveCut_cut, positive_graph_signed. apply signed_bottleneck.
  - rewrite findNegativeCut_cut, negative_graph_signed. apply signed_bottleneck.
Qed.

Lemma heuristic_bottleneck_witness :
  let G := (positive_graph (_S scenario_B_self) (_n scenario_B_self)).1 in
  let W := (positive_graph (_S scenario_B_self) (_n scenario_B_self)).2 in
  let c := cut (__findPositiveCut scenario_B_self) in
  c ∈ W ∧
  is_connected (delete_edges_weight_lt c G) = true ∧
  ∀ w, w ∈ W → (c < w)%Z → is_connected (delete_edges_weight_lt w G) = false.
Proof.
  apply (heuristic_bottleneck scenario_B_self
           (positive_graph (_S scenario_B_self) (_n scenario_B_self)).1
           (positive_graph (_S scenario_B_self) (_n scenario_B_self)).2
           (cut (__findPositiveCut scenario_B_self))).
  - left.
  - vm_compute. reflexivity.
  - vm_compute. discriminate.
Defined.

(** ** The extreme similarities *)

Lemma matches_all (r1 : list string) :
  ∀ r2, length r1 = length r2 →
    (matches r1 r2 = length r1 ↔ r1 = r2 ∧ "?" ∉ r1).
Proof.
  unfold matches. induction r1 as [|a r1 IH]; intros [|b r2] Hlen; try done.
  - split; [|done]. intros _. split; [done |]. apply not_elem_of_nil.
  - cbn [zip zip_with]. simpl in Hlen. rewrite filter_cons.
    specialize (IH r2 ltac:(lia)).
    destruct (decide (both_present (a, b) ∧ (a, b).1 = (a, b).2)) as [[[Ha Hb] Hab]|Hno];
      cbn [fst snd length] in *.
    + subst b. rewrite not_elem_of_cons. split.
      * intros Hm. destruct (proj1 IH ltac:(lia)) as [-> ?]. split_and!; done.
      * intros [[= ->] [_ Hnot]]. f_equal. apply IH. done.
    + pose proof (length_filter (λ p : string * string, both_present p ∧ p.1 = p.2)
                    (zip r1 r2)) as Hle.
      rewrite length_zip_with in Hle.
      split; [lia |]. intros [[= -> ->] Hnot%not_elem_of_cons].
      exfalso. apply Hno. unfold both_present. cbn [fst snd]. naive_solver.
Qed.

Lemma missing_row (r1 : list string) :
  Forall (λ t, t = "?") r1 → ∀ r2, matches r1 r2 = 0 ∧ mismatches r1 r2 = 0.
Proof.
  unfold matches, mismatches.
  induction 1 as [|a r1 -> _ IH]; intros [|b r2]; try done.
  cbn [zip zip_with]. destruct (IH r2) as [IH1 IH2].
  rewrite !filter_cons_False; [done | |]; unfold both_present; cbn [fst snd]; tauto.
Qed.

(** X17. For an object the constructor returned and two distinct records,
    over their first [m] attributes: the similarity is [m], its largest
    value, exactly when the two records have the same values and none is
    missing; and a record whose values are all missing has similarity 0
    with every other record. *)
Theorem similarity_extremes (D : list (list string)) (self : RegnierProblem) (i j : nat) :
  __init__ D = Ok self → i < _n self → j < _n self → i ≠ j →
  (at2 (_S self) i j = Z.of_nat (_m self)
   ↔ take (_m self) (D !!! i) = take (_m self) (D !!! j)
     ∧ "?" ∉ take (_m self) (D !!! i)) ∧
  (Forall (λ t, t = "?") (take (_m self) (D !!! i)) → at2 (_S self) i j = 0%Z).
Proof.
  intros Hinit. destruct (init_Ok_inv D self Hinit) as [Hne Hrows].
  destruct (init_accepts D Hne Hrows) as (S & HS & Hcell).
  rewrite Hinit in HS. injection HS as ->. cbn [_S _n _m]. intros Hi Hj Hij.
  rewrite (at2_cell S i j (sim_value (derived_m D) (D !!! i) (D !!! j)))
    by (by rewrite Hcell, decide_True, decide_True).
  assert (∀ a, a < length D → length (take (derived_m D) (D !!! a)) = derived_m D) as Htake.
  { intros a Ha. apply length_take_le.
    apply (Forall_lookup_1 _ _ a (D !!! a) Hrows).
    by apply list_lookup_lookup_total_lt. }
  unfold sim_value.
  set (ri := take (derived_m D) (D !!! i)). set (rj := take (derived_m D) (D !!! j)).
  assert (length ri = derived_m D) as Hli by (by apply Htake).
  assert (length rj = derived_m D) as Hlj by (by apply Htake).
  pose proof (counts_total ri rj) as Htotal.
  rewrite length_zip_with, Hli, Hlj, Nat.min_id in Htotal.
  split.
  - rewrite <- matches_all by lia. rewrite Hli. lia.
  - intros Hall. destruct (missing_row ri Hall rj) as [-> ->]. done.
Qed.

Lemma similarity_extremes_witness :
  (at2 (_S scenario_A_self) 0 1 = Z.of_nat (_m scenario_A_self)
   ↔ take (_m scenario_A_self) (scenario_A !!! 0) = take (_m scenario_A_self) (scenario_A !!! 1)
     ∧ "?" ∉ take (_m scenario_A_self) (scenario_A !!! 0)) ∧
  (Forall (λ t, t = "?") (take (_m scenario_A_self) (scenario_A !!! 0)) →
   at2 (_S scenario_A_self) 0 1 = 0%Z).
Proof.
  apply (similarity_extremes scenario_A scenario_A_self 0 1).
  - vm_compute. reflexivity.
  - simpl. lia.
  - simpl. lia.
  - lia.
Defined.
